(** * ImageToAscii: a shallow embedding of [ascii_art.c]

    The program decodes an image (through stb_image, an external
    collaborator), picks an output width, derives the output height from the
    character aspect ratio, and prints one glyph per output cell: the glyph is
    chosen from a ten-character ramp by the mean luminance of the block of
    source pixels the cell stands for.

    The C [int] is modelled as [Z] together with the 32-bit range predicate
    [in_int]; [float] and [double] are the IEEE-754 binary32 and binary64
    formats of the Standard Library's [SpecFloat] (round to nearest, ties to
    even), so that every floating-point operation of the source is evaluated
    bit for bit: each operation rounds to the type of its operands, with
    neither excess precision nor contraction into fused operations. *)

From Stdlib Require Import String Ascii.
From Stdlib Require Import Strings.Byte.
From Stdlib Require Import ZArith List Bool Lia.
From Stdlib Require Import Reals Lra Psatz.
From Stdlib Require Import SpecFloat.
Import ListNotations.
Local Open Scope Z_scope.

(** ** Machine integers *)

Definition INT_MIN : Z := - 2 ^ 31.
Definition INT_MAX : Z := 2 ^ 31 - 1.

Definition in_int (z : Z) : bool := (INT_MIN <=? z) && (z <=? INT_MAX).

(** [a + b] and [a * b] on [int]: the exact result where it is an [int],
    and [None] where it is not, which C leaves undefined. *)
Definition int_add (a b : Z) : option Z :=
  if in_int (a + b) then Some (a + b) else None.

Definition int_mul (a b : Z) : option Z :=
  if in_int (a * b) then Some (a * b) else None.

(** ** Floating-point formats *)

(** [float]: binary32. *)
Module F32.
Definition prec : Z := 24.
Definition emax : Z := 128.
Definition t := spec_float.

Definition zero : t := S754_zero false.
(** [(float)n] for an integer [n]. *)
Definition of_int (n : Z) : t := binary_normalize prec emax n 0 false.
Definition add : t -> t -> t := SFadd prec emax.
Definition mul : t -> t -> t := SFmul prec emax.
Definition div : t -> t -> t := SFdiv prec emax.
(** A decimal literal [n/d] with the suffix [f]: the float nearest to the
    quotient (both [n] and [d] are small enough to convert exactly). *)
Definition literal (n d : Z) : t := div (of_int n) (of_int d).
End F32.

(** [double]: binary64. *)
Module F64.
Definition prec : Z := 53.
Definition emax : Z := 1024.
Definition t := spec_float.

Definition zero : t := S754_zero false.
Definition of_int (n : Z) : t := binary_normalize prec emax n 0 false.
Definition add : t -> t -> t := SFadd prec emax.
Definition div : t -> t -> t := SFdiv prec emax.
(** The promotion of a [float] operand to [double] (always exact). *)
Definition of_f32 (x : F32.t) : t := SFldexp prec emax x 0.
(** The conversion [(float)d], rounding to nearest. *)
Definition to_f32 (d : t) : F32.t := SFldexp F32.prec F32.emax d 0.
End F64.

(** The signed mantissa of a finite float. *)
Definition signed (s : bool) (m : positive) : Z := cond_Zopp s (Zpos m).

(** [floorf], [ceilf] and [roundf] return integer-valued floats; the model
    keeps the integer itself, and [None] for NaN and the infinities, which
    the three functions hand back unchanged. *)
Definition floorf (x : spec_float) : option Z :=
  match x with
  | S754_zero _ => Some 0
  | S754_finite s m e =>
      Some (if 0 <=? e then signed s m * 2 ^ e else signed s m / 2 ^ (- e))
  | _ => None
  end.

Definition ceilf (x : spec_float) : option Z :=
  match x with
  | S754_zero _ => Some 0
  | S754_finite s m e =>
      Some (if 0 <=? e then signed s m * 2 ^ e
            else - ((- signed s m) / 2 ^ (- e)))
  | _ => None
  end.

(** [roundf]: to the nearest integer, halfway cases away from zero. *)
Definition roundf (x : spec_float) : option Z :=
  match x with
  | S754_zero _ => Some 0
  | S754_finite s m e =>
      Some (if 0 <=? e then signed s m * 2 ^ e
            else cond_Zopp s ((2 * Zpos m + 2 ^ (- e)) / (2 * 2 ^ (- e))))
  | _ => None
  end.

(** ** Strings and streams *)

Definition newline : ascii := ascii_of_nat 10.

(** Integers [lo, lo+1, ..., hi-1], the index set of a [for] loop. *)
Definition Zrange (lo hi : Z) : list Z :=
  map (fun i => lo + Z.of_nat i) (seq 0 (Z.to_nat (hi - lo))).

(** [ramp[idx]]; past the end of the string the model reads NUL. *)
Definition char_at (s : string) (idx : Z) : ascii :=
  match String.get (Z.to_nat idx) s with
  | Some c => c
  | None => Ascii.zero
  end.

Fixpoint string_rev (s : string) : string :=
  match s with
  | EmptyString => EmptyString
  | String c s' => (string_rev s' ++ String c EmptyString)%string
  end.

(** ASCII ramps. Dark -> Light *)
Definition RAMP_DEFAULT : string := "@%#*+=-:. ".
Definition RAMP_INVERT : string := " .:-=+*#%@".

(** Clamp helper *)
Definition clampi (v a b : Z) : Z :=
  if v <? a then a else if v >? b then b else v.

(** ** The decoded image *)

Record image := {
  img_w : Z;
  img_h : Z;
  img_channels : Z;          (* as reported by the decoder *)
  img_data : list byte       (* row-major, top to bottom *)
}.

(** [img[idx]], promoted to [int]. *)
Definition byte_at (data : list byte) (idx : Z) : Z :=
  Z.of_N (Byte.to_N (nth (Z.to_nat idx) data "000"%byte)).

(** [if (channels < 3) channels = 1;] *)
Definition effective_channels (channels : Z) : Z :=
  if channels <? 3 then 1 else channels.

(** The float constants of the source. *)
Definition CHAR_ASPECT : F32.t := F32.literal 55 100.     (* 0.55f *)
Definition W_RED : F32.t := F32.literal 2126 10000.       (* 0.2126f *)
Definition W_GREEN : F32.t := F32.literal 7152 10000.     (* 0.7152f *)
Definition W_BLUE : F32.t := F32.literal 722 10000.       (* 0.0722f *)
Definition HALF : F32.t := F32.literal 1 2.               (* 0.5f *)
Definition F255 : F32.t := F32.of_int 255.                (* 255.0f *)

(** [(0.2126f * r + 0.7152f * g + 0.0722f * b) / 255.0f] *)
Definition pixel_lum (r g b : Z) : F32.t :=
  F32.div
    (F32.add (F32.add (F32.mul W_RED (F32.of_int r))
                      (F32.mul W_GREEN (F32.of_int g)))
             (F32.mul W_BLUE (F32.of_int b)))
    F255.

(** The byte index of pixel [(sx, sy)] in the buffer, as an exact integer.
    The source computes it on [int]: that is [int_pixel_index] below, and
    the two agree for every pixel of a picture whose buffer an [int] can
    index ([int_pixel_index_exact]). *)
Definition pixel_index (w channels sx sy : Z) : Z :=
  (sy * w + sx) * (if channels =? 1 then 1 else channels).

(** The byte indices the loop body reads for pixel [(sx, sy)]. *)
Definition pixel_reads (w channels sx sy : Z) : list Z :=
  let idx := pixel_index w channels sx sy in
  if channels =? 1 then [idx] else [idx + 0; idx + 1; idx + 2].

(** [int idx = (sy * w + sx) * (channels == 1 ? 1 : channels);] on [int],
    one operation after the other: [None] as soon as one of them leaves
    [int]. *)
Definition int_pixel_index (w channels sx sy : Z) : option Z :=
  match int_mul sy w with
  | Some row =>
      match int_add row sx with
      | Some p => int_mul p (if channels =? 1 then 1 else channels)
      | None => None
      end
  | None => None
  end.

(** The subscripts of the loop body on [int]: [idx], or [idx + 0],
    [idx + 1] and [idx + 2]. *)
Definition int_pixel_reads (w channels sx sy : Z) : option (list Z) :=
  match int_pixel_index w channels sx sy with
  | Some idx =>
      if channels =? 1 then Some [idx]
      else
        match int_add idx 0, int_add idx 1, int_add idx 2 with
        | Some i0, Some i1, Some i2 => Some [i0; i1; i2]
        | _, _, _ => None
        end
  | None => None
  end.

(** The luminance of pixel [(sx, sy)]: the body of the inner loop. *)
Definition pixel_luminance (data : list byte) (w channels sx sy : Z) : F32.t :=
  let idx := pixel_index w channels sx sy in
  if channels =? 1 then
    let v := byte_at data idx in pixel_lum v v v
  else
    pixel_lum (byte_at data (idx + 0)) (byte_at data (idx + 1))
              (byte_at data (idx + 2)).

(** The accumulator [(sum_lum, count)] of the averaging loops. *)
Definition acc : Type := F64.t * Z.

Definition add_pixel (data : list byte) (w channels sy : Z) (a : acc) (sx : Z)
  : acc :=
  (F64.add (fst a) (F64.of_f32 (pixel_luminance data w channels sx sy)),
   snd a + 1).

Definition sum_rect (data : list byte) (w channels sx0 sx1 sy0 sy1 : Z) : acc :=
  fold_left
    (fun a sy => fold_left (add_pixel data w channels sy) (Zrange sx0 sx1) a)
    (Zrange sy0 sy1) (F64.zero, 0).

(** [avg_lum = (count > 0) ? (float)(sum_lum / count) : 0.0f] *)
Definition average_luminance (data : list byte) (w channels sx0 sx1 sy0 sy1 : Z)
  : F32.t :=
  let '(sum_lum, count) := sum_rect data w channels sx0 sx1 sy0 sy1 in
  if count >? 0 then F64.to_f32 (F64.div sum_lum (F64.of_int count))
  else F32.zero.

(** The float [(float)o * (float)n / (float)out_n] both bounds of a cell are
    taken from: the lower bound of cell [o] and the upper bound of cell
    [o - 1]. *)
Definition edge (o n out_n : Z) : F32.t :=
  F32.div (F32.mul (F32.of_int o) (F32.of_int n)) (F32.of_int out_n).

(** [atoi]'s view of a string: white space, an optional sign, digits. *)
Definition isspace (c : ascii) : bool :=
  let n := Z.of_nat (nat_of_ascii c) in (n =? 32) || ((9 <=? n) && (n <=? 13)).

Definition digit_of (c : ascii) : option Z :=
  let n := Z.of_nat (nat_of_ascii c) in
  if (48 <=? n) && (n <=? 57) then Some (n - 48) else None.

Fixpoint skip_spaces (s : string) : string :=
  match s with
  | String c s' => if isspace c then skip_spaces s' else s
  | EmptyString => s
  end.

(** The value of the longest prefix of decimal digits, continuing [value]. *)
Fixpoint digits_value (s : string) (value : Z) : Z :=
  match s with
  | String c s' =>
      match digit_of c with
      | Some d => digits_value s' (10 * value + d)
      | None => value
      end
  | EmptyString => value
  end.

(** The number [atoi] reads, before it is stored in an [int]. *)
Definition parse_int (s : string) : Z :=
  match skip_spaces s with
  | String "-" s' => - digits_value s' 0
  | String "+" s' => digits_value s' 0
  | s' => digits_value s' 0
  end.

(** A string [atoi] finds no number in. *)
Definition unparsable (s : string) : bool :=
  match skip_spaces s with
  | String "-" (String c _) | String "+" (String c _) =>
      match digit_of c with Some _ => false | None => true end
  | String "-" EmptyString | String "+" EmptyString => true
  | String c _ => match digit_of c with Some _ => false | None => true end
  | EmptyString => true
  end.

(** What the process leaves behind: exit status, standard output, standard
    error. *)
Record outcome := {
  exit_code : Z;
  stdout : list ascii;
  stderr : string
}.

Definition nl : string := String newline EmptyString.

Definition usage (prog : string) : string :=
  ("Usage: " ++ prog ++ " <image> [width] [inv]" ++ nl
   ++ "  image : path to PNG/JPEG/BMP/GIF/TGA/WebP etc" ++ nl
   ++ "  width : desired output width in characters (default 120)" ++ nl
   ++ "  inv   : if present (e.g. 'inv'), invert ASCII brightness mapping" ++ nl)%string.

Definition load_error (filename : string) : string :=
  ("Failed to load image '" ++ filename ++ "' (stb_image error)" ++ nl)%string.

Section Program.

(** The C standard leaves a conversion from a float to [int] undefined when
    the value is NaN, infinite or outside the range of [int]; the targets
    the program runs on deliver some integer then (x86-64 delivers
    [INT_MIN]).  That integer is a parameter of the model, as is the one
    [atoi] returns for a number that does not fit an [int]. *)
Variable cvt_invalid : spec_float -> Z.
Variable atoi_invalid : string -> Z.

(** The external decoder [stbi_load]: [None] stands for the null pointer. *)
Variable stbi_load : string -> option image.

(** [(int)r], for [r] the result of [floorf], [ceilf] or [roundf] at [x]. *)
Definition to_int (x : spec_float) (r : option Z) : Z :=
  match r with
  | Some z => if in_int z then z else cvt_invalid x
  | None => cvt_invalid x
  end.

Definition atoi (s : string) : Z :=
  let v := parse_int s in
  if in_int v then v else atoi_invalid s.

(** Compute a character from a normalized luminance in [0,1] *)
Definition luminance_to_char (lum : F32.t) (ramp : string) : ascii :=
  let len := Z.of_nat (String.length ramp) in
  (* lum 0->dark, 1->light. Map to ramp indices 0..len-1 *)
  let x := F32.add (F32.mul lum (F32.of_int (len - 1))) HALF in
  let idx := to_int x (floorf x) in
  let idx := clampi idx 0 (len - 1) in
  char_at ramp idx.

(** [out_h], from the image size and [out_w]. *)
Definition height_f (w h out_w : Z) : F32.t :=
  F32.mul (F32.mul (F32.of_int h) (F32.div (F32.of_int out_w) (F32.of_int w)))
          CHAR_ASPECT.

Definition out_height (w h out_w : Z) : Z :=
  let v := height_f w h out_w in
  let out_h := to_int v (roundf v) in
  if out_h <? 1 then 1 else out_h.

(** The clamped source range [[src_lo, src_hi)] of output index [o], along
    an axis of [n] source pixels and [out_n] output cells. *)
Definition src_lo (o n out_n : Z) : Z :=
  let f := edge o n out_n in clampi (to_int f (floorf f)) 0 n.

Definition src_hi (o n out_n : Z) : Z :=
  let f := edge (o + 1) n out_n in clampi (to_int f (ceilf f)) 0 n.

(** The glyph of output cell [(ox, oy)]. *)
Definition cell_char (img : image) (ramp : string) (out_w out_h ox oy : Z)
  : ascii :=
  let w := img_w img in
  let h := img_h img in
  let channels := effective_channels (img_channels img) in
  let avg_lum :=
    average_luminance (img_data img) w channels
      (src_lo ox w out_w) (src_hi ox w out_w)
      (src_lo oy h out_h) (src_hi oy h out_h) in
  luminance_to_char avg_lum ramp.

(** One turn of the outer loop: the glyphs of row [oy], then a newline. *)
Definition render_row (img : image) (ramp : string) (out_w out_h : Z)
    (out : list ascii) (oy : Z) : list ascii :=
  fold_left (fun o ox => o ++ [cell_char img ramp out_w out_h ox oy])
            (Zrange 0 out_w) out
  ++ [newline].

Definition render (img : image) (ramp : string) (out_w out_h : Z)
  : list ascii :=
  fold_left (render_row img ramp out_w out_h) (Zrange 0 out_h) [].

(** [argv[i]]; a missing argument reads as the empty string. *)
Definition arg (argv : list string) (i : nat) : string :=
  nth i argv EmptyString.

Definition target_width (argv : list string) : Z :=
  if (3 <=? List.length argv)%nat then
    let t := atoi (arg argv 2) in
    if t <=? 0 then 120 else t
  else 120.

Definition invert (argv : list string) : bool :=
  if (4 <=? List.length argv)%nat then
    String.eqb (arg argv 3) "inv" || String.eqb (arg argv 3) "invert"
  else false.

Definition main (argv : list string) : outcome :=
  if (List.length argv <? 2)%nat then
    {| exit_code := 1; stdout := []; stderr := usage (arg argv 0) |}
  else
    let filename := arg argv 1 in
    match stbi_load filename with
    | None =>
        {| exit_code := 2; stdout := []; stderr := load_error filename |}
    | Some img =>
        let out_w := target_width argv in
        let out_h := out_height (img_w img) (img_h img) out_w in
        let ramp := if invert argv then RAMP_INVERT else RAMP_DEFAULT in
        {| exit_code := 0;
           stdout := render img ramp out_w out_h;
           stderr := EmptyString |}
    end.

End Program.

(** * Auxiliary definitions *)

(** ** The output as a grid *)

(** The glyphs of row [oy], without the newline. *)
Definition row_glyphs (cvt_invalid : spec_float -> Z) (img : image)
    (ramp : string) (out_w out_h oy : Z) : list ascii :=
  map (fun ox => cell_char cvt_invalid img ramp out_w out_h ox oy)
      (Zrange 0 out_w).

(** The output grid: one list of glyphs per row. *)
Definition grid (cvt_invalid : spec_float -> Z) (img : image) (ramp : string)
    (out_w out_h : Z) : list (list ascii) :=
  map (row_glyphs cvt_invalid img ramp out_w out_h) (Zrange 0 out_h).

(** The index [idx] that [luminance_to_char] computes for a ramp of [len]
    glyphs. *)
Definition ramp_index (cvt_invalid : spec_float -> Z) (lum : F32.t) (len : Z)
  : Z :=
  let x := F32.add (F32.mul lum (F32.of_int (len - 1))) HALF in
  clampi (to_int cvt_invalid x (floorf x)) 0 (len - 1).

(** ** The formulas of the specification, in exact arithmetic *)



(** The integer nearest to a float, halfway cases upwards: [floor (x + 1/2)]
    without rounding the sum. *)
Definition round_half_up (x : spec_float) : option Z :=
  match x with
  | S754_zero _ => Some 0
  | S754_finite s m e =>
      Some (if 0 <=? e then signed s m * 2 ^ e
            else (2 * signed s m + 2 ^ (- e)) / (2 * 2 ^ (- e)))
  | _ => None
  end.

(** The pixels of a rectangle, row by row. *)
Definition rect_coords (sx0 sx1 sy0 sy1 : Z) : list (Z * Z) :=
  flat_map (fun sy => map (fun sx => (sx, sy)) (Zrange sx0 sx1))
           (Zrange sy0 sy1).


(** The luminance of a pixel in exact arithmetic:
    [(0.2126 r + 0.7152 g + 0.0722 b) / 255]. *)
Definition exact_lum (r g b : Z) : R :=
  ((2126 / 10000 * IZR r + 7152 / 10000 * IZR g + 722 / 10000 * IZR b)
   / 255)%R.

(** The exact luminance of pixel [(sx, sy)]: the single byte thrice for one
    channel, the first three bytes otherwise. *)
Definition exact_pixel (data : list byte) (w channels sx sy : Z) : R :=
  let idx := (sy * w + sx) * channels in
  if channels =? 1 then
    exact_lum (byte_at data idx) (byte_at data idx) (byte_at data idx)
  else
    exact_lum (byte_at data idx) (byte_at data (idx + 1))
              (byte_at data (idx + 2)).



(** ** The real value of a float *)

Definition bpow (e : Z) : R := powerRZ 2 e.

(** The real number a float stands for (zero for NaN and the infinities). *)
Definition SF2R (x : spec_float) : R :=
  match x with
  | S754_finite s m e => (IZR (cond_Zopp s (Zpos m)) * bpow e)%R
  | _ => 0%R
  end.

Definition sign_R (s : bool) : R := if s then (-1)%R else 1%R.

Definition is_finite (x : spec_float) : bool :=
  match x with
  | S754_zero _ | S754_finite _ _ _ => true
  | _ => false
  end.

(** The location of the fraction [N / D] between its floor and the next
    integer. *)
Definition loc_of (N D : Z) : location :=
  if N mod D =? 0 then loc_Exact else loc_Inexact (2 * (N mod D) ?= D).

(** [mrs] stands for the fraction [N / D]: its mantissa is the floor, its
    two bits locate the remainder. *)
Definition repr (mrs : shr_record) (N D : Z) : Prop :=
  shr_m mrs = N / D /\ loc_of_shr_record mrs = loc_of N D.

(** ** Rounding to nearest in a format of [prec] digits *)

(** [E] is the exponent of the last place of the binade of [X]. *)
Definition quantum (prec emax : Z) (X : R) (E : Z) : Prop :=
  SpecFloat.emin prec emax <= E /\ (Rabs X < bpow (E + prec))%R
  /\ (E = SpecFloat.emin prec emax \/ (bpow (E + prec - 1) <= Rabs X)%R).

(** A finite float in canonical form. *)
Definition fv (prec emax : Z) (x : spec_float) : Prop :=
  is_finite x = true /\ valid_binary prec emax x = true.

(** [r] is a float of the format within half a unit in the last place of
    [X]. *)
Definition rounds (prec emax : Z) (X : R) (r : spec_float) : Prop :=
  is_finite r = true /\ valid_binary prec emax r = true
  /\ exists E j, quantum prec emax X E /\ SF2R r = (IZR j * bpow E)%R
                /\ (Rabs (SF2R r - X) <= bpow E / 2)%R.

(** [V] is a multiple of the unit in the last place of [X], within half
    that unit of [X]. *)
Definition near (prec emax : Z) (X V : R) : Prop :=
  exists E j, quantum prec emax X E /\ V = (IZR j * bpow E)%R
              /\ (Rabs (V - X) <= bpow E / 2)%R.

(** A real number the format represents exactly. *)
Definition format (prec emax : Z) (z : R) : Prop :=
  exists E i, quantum prec emax z E /\ z = (IZR i * bpow E)%R.

(** ** The two formats of the program *)

Definition fv32 : spec_float -> Prop := fv F32.prec F32.emax.

Definition near32 : R -> R -> Prop := near F32.prec F32.emax.

Definition format32 : R -> Prop := format F32.prec F32.emax.

Definition rounds32 : R -> spec_float -> Prop := rounds F32.prec F32.emax.

(** The unit roundoff of binary32. *)
Definition eps : R := (/ 16777216)%R.

Definition fv64 : spec_float -> Prop := fv F64.prec F64.emax.

Definition near64 : R -> R -> Prop := near F64.prec F64.emax.

Definition format64 : R -> Prop := format F64.prec F64.emax.

Definition rounds64 : R -> spec_float -> Prop := rounds F64.prec F64.emax.

(** The accumulator holds a sum of [count] luminances, each at most one. *)
Definition acc_ok (a : acc) : Prop :=
  fv64 (fst a) /\ 0 <= snd a /\ (0 <= SF2R (fst a) <= IZR (snd a))%R.

(** The number of pixels of a rectangle. *)
Definition rect_pixels (sx0 sx1 sy0 sy1 : Z) : Z :=
  Z.max 0 (sy1 - sy0) * Z.max 0 (sx1 - sx0).


(** ** Concrete environments *)

(** The integer an x86-64 [cvttss2si] delivers where the conversion is
    undefined: the "integer indefinite" value. *)
Definition x86_cvt (x : spec_float) : Z := INT_MIN.

(** What the usual two's complement targets leave in an [int] where the
    exact result of an operation is [z]: its low 32 bits. *)
Definition wrap_int (z : Z) : Z := (z + 2 ^ 31) mod 2 ^ 32 - 2 ^ 31.

(** What [atoi] of glibc on a 64-bit target returns for a number outside
    [int]: [strtol] saturates to [long], the cast keeps the low 32 bits. *)
Definition glibc_atoi (s : string) : Z :=
  (clampi (parse_int s) (- 2 ^ 63) (2 ^ 63 - 1) + 2 ^ 31) mod 2 ^ 32 - 2 ^ 31.

(** A 2 x 2 RGB picture: three white pixels, and a black one at the bottom
    right. *)
Definition sample_pixels : list byte :=
  [xff; xff; xff;  xff; xff; xff;
   xff; xff; xff;  x00; x00; x00].

Definition sample_image : image :=
  {| img_w := 2; img_h := 2; img_channels := 3; img_data := sample_pixels |}.

(** A column of eight black pixels, one channel. *)
Definition strip_image : image :=
  {| img_w := 1; img_h := 8; img_channels := 1; img_data := repeat x00 8 |}.

(** A decoder that knows two files. *)
Definition sample_decoder (filename : string) : option image :=
  if String.eqb filename "sample.png" then Some sample_image
  else if String.eqb filename "strip.png" then Some strip_image
  else None.

(** A closed comparison or equation, by evaluation. *)
Ltac evaluate := vm_compute; repeat split; first [reflexivity | discriminate].

(** One RGBA pixel, opaque and transparent. *)
Definition rgba_opaque : image :=
  {| img_w := 1; img_h := 1; img_channels := 4;
     img_data := [x40; x80; xc0; xff] |}.

Definition rgba_clear : image :=
  {| img_w := 1; img_h := 1; img_channels := 4;
     img_data := [x40; x80; xc0; x00] |}.

(** A 2 x 2 picture of two channels, grey and alpha. *)
Definition grey_alpha_pixels : list byte :=
  [x10; xff;  x20; xff;
   x30; xff;  x40; xff].
(** * Properties *)

(** ** Loops over integer ranges *)

Lemma Zrange_length lo hi : length (Zrange lo hi) = Z.to_nat (hi - lo).
Proof. unfold Zrange. now rewrite length_map, length_seq. Qed.

Lemma Zrange_empty lo hi : hi <= lo -> Zrange lo hi = [].
Proof.
  intros H. unfold Zrange.
  replace (Z.to_nat (hi - lo)) with 0%nat by lia. reflexivity.
Qed.

Lemma Zrange_In lo hi x : In x (Zrange lo hi) <-> lo <= x < hi.
Proof.
  unfold Zrange. rewrite in_map_iff. split.
  - intros (i & <- & Hi). apply in_seq in Hi. lia.
  - intros H. exists (Z.to_nat (x - lo)). split; [lia|].
    apply in_seq. lia.
Qed.

Lemma Zrange_nth lo hi i d :
  (i < Z.to_nat (hi - lo))%nat -> nth i (Zrange lo hi) d = lo + Z.of_nat i.
Proof.
  intros H. unfold Zrange.
  rewrite (nth_indep _ d (lo + Z.of_nat 0)) by now rewrite length_map, length_seq.
  rewrite (map_nth (fun i => lo + Z.of_nat i)), seq_nth by assumption.
  reflexivity.
Qed.

(** A loop that only appends to the stream emits the image of its index
    set. *)
Lemma fold_left_emit {A B} (f : A -> list B) (l : list A) (out : list B) :
  fold_left (fun o x => o ++ f x) l out = out ++ concat (map f l).
Proof.
  revert out. induction l as [|x l IH]; intros out; simpl.
  - now rewrite app_nil_r.
  - now rewrite IH, app_assoc.
Qed.

Lemma clampi_range v a b : a <= b -> a <= clampi v a b <= b.
Proof.
  intros H. unfold clampi.
  destruct (v <? a) eqn:E1; [lia|].
  destruct (v >? b) eqn:E2; [lia|].
  apply Z.ltb_ge in E1. rewrite Z.gtb_ltb in E2. apply Z.ltb_ge in E2. lia.
Qed.

Lemma clampi_mono v v' a b : a <= b -> v <= v' -> clampi v a b <= clampi v' a b.
Proof.
  intros Hab H. unfold clampi.
  repeat match goal with
         | |- context [?x <? ?y] => destruct (Z.ltb_spec x y)
         | |- context [?x >? ?y] => rewrite (Z.gtb_ltb x y)
         end; lia.
Qed.

Lemma clampi_id v a b : a <= v <= b -> clampi v a b = v.
Proof.
  intros H. unfold clampi.
  destruct (Z.ltb_spec v a); [lia|].
  rewrite Z.gtb_ltb. destruct (Z.ltb_spec b v); lia.
Qed.

(** ** Powers of two as reals *)


Lemma bpow_gt_0 e : (0 < bpow e)%R.
Proof. apply powerRZ_lt. lra. Qed.

Lemma bpow_plus a b : bpow (a + b) = (bpow a * bpow b)%R.
Proof. apply powerRZ_add. lra. Qed.

Lemma bpow_0 : bpow 0 = 1%R.
Proof. reflexivity. Qed.

Lemma bpow_1 : bpow 1 = 2%R.
Proof. unfold bpow. simpl. lra. Qed.

Lemma bpow_succ e : bpow (e + 1) = (2 * bpow e)%R.
Proof. rewrite bpow_plus, bpow_1. lra. Qed.

Lemma bpow_pred e : bpow (e - 1) = (bpow e / 2)%R.
Proof.
  replace e with ((e - 1) + 1) at 2 by lia. rewrite bpow_succ. lra.
Qed.

Lemma bpow_opp e : bpow (- e) = (/ bpow e)%R.
Proof. apply powerRZ_neg'. Qed.

Lemma bpow_IZR e : 0 <= e -> bpow e = IZR (2 ^ e).
Proof.
  revert e. apply natlike_ind.
  - reflexivity.
  - intros e He IH. rewrite Z.pow_succ_r by assumption.
    rewrite mult_IZR, <- IH. unfold Z.succ. rewrite bpow_succ. reflexivity.
Qed.

Lemma bpow_le a b : a <= b -> (bpow a <= bpow b)%R.
Proof.
  intros H. replace b with (a + (b - a)) by lia.
  rewrite bpow_plus, (bpow_IZR (b - a)) by lia.
  assert (1 <= IZR (2 ^ (b - a)))%R.
  { apply IZR_le. assert (0 < 2 ^ (b - a)) by (apply Z.pow_pos_nonneg; lia). lia. }
  pose proof (bpow_gt_0 a). nra.
Qed.

Lemma bpow_lt a b : a < b -> (bpow a < bpow b)%R.
Proof.
  intros H. apply Rlt_le_trans with (bpow (a + 1)).
  - rewrite bpow_succ. pose proof (bpow_gt_0 a). lra.
  - apply bpow_le. lia.
Qed.

Lemma bpow_lt_inv a b : (bpow a < bpow b)%R -> a < b.
Proof.
  intros H. destruct (Z_lt_le_dec a b) as [|Hle]; [assumption|].
  apply bpow_le in Hle. lra.
Qed.

Lemma bpow_le_inv a b : (bpow a <= bpow b)%R -> a <= b.
Proof.
  intros H. destruct (Z_le_gt_dec a b) as [|Hgt]; [assumption|].
  assert (b < a) as Hlt by lia. apply bpow_lt in Hlt. lra.
Qed.

Lemma Rabs_le_inv a b : (Rabs a <= b)%R -> (- b <= a <= b)%R.
Proof. unfold Rabs. destruct (Rcase_abs a); lra. Qed.

Lemma Rabs_lt_inv a b : (Rabs a < b)%R -> (- b < a < b)%R.
Proof. unfold Rabs. destruct (Rcase_abs a); lra. Qed.

(** ** Binary digits *)

Lemma digits2_pos_spec m :
  2 ^ (Zpos (digits2_pos m) - 1) <= Zpos m < 2 ^ Zpos (digits2_pos m).
Proof.
  induction m as [m IH|m IH|]; simpl digits2_pos.
  - rewrite Pos2Z.inj_succ. replace (Z.succ (Zpos (digits2_pos m)) - 1)
      with (Z.succ (Zpos (digits2_pos m) - 1)) by lia.
    rewrite !Z.pow_succ_r by lia. lia.
  - rewrite Pos2Z.inj_succ. replace (Z.succ (Zpos (digits2_pos m)) - 1)
      with (Z.succ (Zpos (digits2_pos m) - 1)) by lia.
    rewrite !Z.pow_succ_r by lia. lia.
  - simpl. lia.
Qed.

Lemma Zdigits2_spec m :
  0 < m -> 2 ^ (Zdigits2 m - 1) <= m < 2 ^ Zdigits2 m.
Proof. destruct m; try lia. intros _. apply digits2_pos_spec. Qed.

Lemma Zdigits2_pos m : 0 < m -> 0 < Zdigits2 m.
Proof. destruct m; simpl; lia. Qed.

(** A number below [2^d] has at most [d] digits. *)
Lemma Zdigits2_le m d : 0 < m -> m < 2 ^ d -> Zdigits2 m <= d.
Proof.
  intros Hm H. pose proof (Zdigits2_spec m Hm) as [Hl _].
  destruct (Z_le_gt_dec (Zdigits2 m) d) as [|Hgt]; [assumption|exfalso].
  assert (0 <= d).
  { destruct (Z_le_gt_dec 0 d); [assumption|]. rewrite Z.pow_neg_r in H by lia. lia. }
  assert (2 ^ d <= 2 ^ (Zdigits2 m - 1)) by (apply Z.pow_le_mono_r; lia).
  lia.
Qed.

Lemma Zdigits2_ge m d : 0 <= d -> 2 ^ d <= m -> d + 1 <= Zdigits2 m.
Proof.
  intros Hd H.
  assert (0 < m) as Hm by (pose proof (Z.pow_pos_nonneg 2 d); lia).
  pose proof (Zdigits2_spec m Hm) as [_ Hu].
  destruct (Z_le_gt_dec (d + 1) (Zdigits2 m)) as [|Hgt]; [assumption|exfalso].
  pose proof (Zdigits2_pos m Hm).
  assert (2 ^ Zdigits2 m <= 2 ^ d) by (apply Z.pow_le_mono_r; lia).
  lia.
Qed.

(** ** Shifting with a location *)



Lemma repr_of_loc N D : repr (shr_record_of_loc (N / D) (loc_of N D)) N D.
Proof.
  unfold repr. destruct (loc_of N D) as [|[]]; simpl; auto.
Qed.

Lemma shr_1_step m r s :
  0 <= m ->
  shr_1 {| shr_m := m; shr_r := r; shr_s := s |}
  = {| shr_m := Z.div2 m; shr_r := Z.odd m; shr_s := (r || s)%bool |}.
Proof. destruct m as [|[p|p|]|p]; intros H; try lia; reflexivity. Qed.

Lemma shr_1_repr mrs N D :
  0 <= N -> 0 < D -> repr mrs N D -> repr (shr_1 mrs) N (2 * D).
Proof.
  intros HN HD [Hm Hl].
  assert (Hq : N / (2 * D) = (N / D) / 2).
  { rewrite (Z.mul_comm 2 D), Z.div_div by lia. reflexivity. }
  assert (Hr : N mod (2 * D) = N mod D + D * ((N / D) mod 2)).
  { rewrite (Z.mul_comm 2 D). apply Z.rem_mul_r; lia. }
  pose proof (Z.mod_pos_bound N D HD) as Hrho.
  pose proof (Z.div_pos N D HN HD) as Hm0.
  unfold repr, loc_of in *. rewrite Hq, Hr.
  destruct mrs as [m r s]. cbn [shr_m] in Hm. subst m.
  cbn [loc_of_shr_record] in Hl.
  rewrite shr_1_step by assumption. cbn [shr_m loc_of_shr_record].
  rewrite Z.div2_div, Zmod_odd.
  set (rho := N mod D) in *. set (m := N / D) in *.
  assert (Hbits : (r || s = negb (rho =? 0))%bool).
  { destruct (Z.eqb_spec rho 0); destruct r, s; simpl in *; try discriminate; reflexivity. }
  rewrite Hbits. split; [reflexivity|].
  destruct (Z.odd m).
  - replace (rho + D * 1 =? 0) with false by (symmetry; apply Z.eqb_neq; lia).
    destruct (Z.eqb_spec rho 0); cbn [negb].
    + replace (2 * (rho + D * 1) ?= 2 * D) with Eq; [reflexivity|].
      symmetry. apply Z.compare_eq_iff. lia.
    + replace (2 * (rho + D * 1) ?= 2 * D) with Gt; [reflexivity|].
      symmetry. apply Z.compare_gt_iff. lia.
  - replace (rho + D * 0) with rho by lia.
    destruct (Z.eqb_spec rho 0); cbn [negb]; [reflexivity|].
    replace (2 * rho ?= 2 * D) with Lt; [reflexivity|].
    symmetry. apply Z.compare_lt_iff. lia.
Qed.

Lemma iter_pos_nat {A} (f : A -> A) p x :
  iter_pos f p x = Nat.iter (Pos.to_nat p) f x.
Proof.
  revert x. induction p as [p IH|p IH|]; intros x; cbn [iter_pos].
  - rewrite !IH, Pos2Nat.inj_xI.
    replace (S (2 * Pos.to_nat p)) with (Pos.to_nat p + (Pos.to_nat p + 1))%nat by lia.
    rewrite !Nat.iter_add. reflexivity.
  - rewrite !IH, Pos2Nat.inj_xO.
    replace (2 * Pos.to_nat p)%nat with (Pos.to_nat p + Pos.to_nat p)%nat by lia.
    rewrite Nat.iter_add. reflexivity.
  - reflexivity.
Qed.

Lemma shr_iter_repr n mrs N D :
  0 <= N -> 0 < D -> repr mrs N D ->
  repr (Nat.iter n shr_1 mrs) N (D * 2 ^ Z.of_nat n).
Proof.
  intros HN HD H. induction n as [|n IH].
  - simpl. now rewrite Z.mul_1_r.
  - rewrite Nat2Z.inj_succ, Z.pow_succ_r by lia. cbn [Nat.iter nat_rect].
    replace (D * (2 * 2 ^ Z.of_nat n)) with (2 * (D * 2 ^ Z.of_nat n)) by lia.
    apply shr_1_repr; try assumption.
    assert (0 < 2 ^ Z.of_nat n) by (apply Z.pow_pos_nonneg; lia). nia.
Qed.

(** [shr] by [k] places (none when [k <= 0]). *)
Lemma shr_repr mrs e k N D :
  0 <= N -> 0 < D -> repr mrs N D ->
  repr (fst (shr mrs e k)) N (D * 2 ^ Z.max 0 k)
  /\ snd (shr mrs e k) = e + Z.max 0 k.
Proof.
  intros HN HD H. destruct k as [|p|p]; simpl shr; simpl fst; simpl snd.
  - rewrite Z.mul_1_r. split; [assumption|lia].
  - rewrite iter_pos_nat. split; [|lia].
    replace (Z.max 0 (Zpos p)) with (Z.of_nat (Pos.to_nat p)) by lia.
    now apply shr_iter_repr.
  - rewrite Z.mul_1_r. split; [assumption|lia].
Qed.

(** Rounding the located mantissa to nearest. *)
Lemma round_nearest_even_spec mrs N D :
  0 <= N -> 0 < D -> repr mrs N D ->
  let m2 := round_nearest_even (shr_m mrs) (loc_of_shr_record mrs) in
  N / D <= m2 <= N / D + 1
  /\ Z.abs (2 * (m2 * D - N)) <= D
  /\ (N mod D = 0 -> m2 = N / D).
Proof.
  intros HN HD [Hm Hl]. rewrite Hm, Hl. unfold loc_of.
  pose proof (Z.mod_pos_bound N D HD) as Hrho.
  pose proof (Z.div_mod N D ltac:(lia)) as Hdm.
  set (q := N / D) in *. set (rho := N mod D) in *.
  destruct (Z.eqb_spec rho 0) as [E|E]; cbn [round_nearest_even].
  - repeat split; lia.
  - destruct (Z.compare_spec (2 * rho) D) as [C|C|C].
    + destruct (Z.even q); repeat split; lia.
    + repeat split; lia.
    + repeat split; lia.
Qed.

(** ** The rounding step [binary_round_aux] *)



Lemma Rabs_sign s x : Rabs (sign_R s * x) = Rabs x.
Proof.
  unfold sign_R. destruct s.
  - replace (-1 * x)%R with (- x)%R by ring. apply Rabs_Ropp.
  - now rewrite Rmult_1_l.
Qed.


Section Round.

Variables prec emax : Z.
Hypothesis Hprec : 0 < prec.
Hypothesis Hemax : prec < emax.

Local Abbreviation fexp := (fexp prec emax).
Local Abbreviation emin := (emin prec emax).

Lemma fexp_ge_emin e : emin <= fexp e.
Proof. unfold SpecFloat.fexp. lia. Qed.

Lemma fexp_mono a b : a <= b -> fexp a <= fexp b.
Proof. unfold SpecFloat.fexp. lia. Qed.

Lemma Zdigits2_pow2 n : 0 <= n -> Zdigits2 (2 ^ n) = n + 1.
Proof.
  intros Hn. assert (0 < 2 ^ n) by (apply Z.pow_pos_nonneg; lia).
  apply Z.le_antisymm.
  - apply Zdigits2_le; [assumption|].
    replace (n + 1) with (Z.succ n) by lia. rewrite Z.pow_succ_r by lia. lia.
  - apply Zdigits2_ge; lia.
Qed.

(** The outcome of the second, normalising shift, for a rounded mantissa
    [m2] at most [2^prec] and an exponent [e1] not below [emin]. *)
Lemma normalise_rounded m2 e1 :
  0 <= m2 <= 2 ^ prec -> emin <= e1 ->
  let '(mrs, e) := shr_fexp prec emax m2 e1 loc_Exact in
  match shr_m mrs with
  | Z0 => m2 = 0
  | Zpos m =>
      Zpos m * 2 ^ (e - e1) = m2 /\ e1 <= e <= e1 + 1
      /\ Zpos m < 2 ^ prec
      /\ (m2 < 2 ^ prec -> e = e1 /\ Zpos m = m2)
  | Zneg _ => False
  end.
Proof.
  intros Hm He. unfold shr_fexp.
  assert (H2p : 0 < 2 ^ prec) by (apply Z.pow_pos_nonneg; lia).
  destruct (Z.eq_dec m2 (2 ^ prec)) as [Htop|Hlow].
  - (* a carry out of the mantissa: one more shift *)
    subst m2. rewrite Zdigits2_pow2 by lia.
    replace (fexp (prec + 1 + e1) - e1) with 1 by (unfold SpecFloat.fexp; lia).
    cbn [shr shr_record_of_loc iter_pos]. rewrite shr_1_step by lia.
    cbn [shr_m]. rewrite Z.div2_div.
    replace (2 ^ prec) with (2 * 2 ^ (prec - 1)).
    2:{ rewrite <- Z.pow_succ_r by lia. f_equal. lia. }
    rewrite (Z.mul_comm 2), Z.div_mul by lia.
    assert (0 < 2 ^ (prec - 1)) by (apply Z.pow_pos_nonneg; lia).
    destruct (2 ^ (prec - 1)) as [|m|m] eqn:Em; try lia.
    replace (e1 + 1 - e1) with 1 by lia.
    repeat split; try lia.
  - assert (Hk : fexp (Zdigits2 m2 + e1) - e1 <= 0).
    { destruct (Z.eq_dec m2 0) as [->|Hnz].
      - simpl. unfold SpecFloat.fexp. lia.
      - assert (Zdigits2 m2 <= prec) by (apply Zdigits2_le; lia).
        unfold SpecFloat.fexp. lia. }
    destruct (fexp (Zdigits2 m2 + e1) - e1) as [|p|p] eqn:Ek; try lia;
      cbn [shr shr_record_of_loc shr_m];
      (destruct m2 as [|m|m]; [reflexivity| |lia]);
      rewrite Z.sub_diag, Z.mul_1_r; repeat split; lia.
Qed.

(** The rounding step on the fraction [N / D] scaled by [2^ex]. *)
Lemma binary_round_aux_int sx mx ex lx N D :
  0 <= N -> 0 < D -> mx = N / D -> lx = loc_of N D ->
  let K := Z.max 0 (fexp (Zdigits2 mx + ex) - ex) in
  let e1 := ex + K in
  exists m2,
    0 <= m2 <= 2 ^ prec
    /\ N / (D * 2 ^ K) <= m2 <= N / (D * 2 ^ K) + 1
    /\ Z.abs (2 * (m2 * (D * 2 ^ K) - N)) <= D * 2 ^ K
    /\ (N mod (D * 2 ^ K) = 0 -> m2 = N / (D * 2 ^ K))
    /\ match binary_round_aux prec emax sx mx ex lx with
       | S754_zero s => s = sx /\ m2 = 0
       | S754_finite s m e =>
           s = sx /\ Zpos m * 2 ^ (e - e1) = m2 /\ e1 <= e <= e1 + 1
           /\ Zpos m < 2 ^ prec /\ e <= emax - prec
           /\ (m2 < 2 ^ prec -> e = e1 /\ Zpos m = m2)
       | S754_infinity s => s = sx /\ 0 < m2 /\ emax - prec <= e1
       | S754_nan => False
       end.
Proof.
  intros HN HD Hmx Hlx K e1.
  assert (H2p : 0 < 2 ^ prec) by (apply Z.pow_pos_nonneg; lia).
  assert (H2K : 0 < 2 ^ K) by (apply Z.pow_pos_nonneg; lia).
  assert (HDK : 0 < D * 2 ^ K) by nia.
  unfold binary_round_aux. unfold shr_fexp at 1.
  pose proof (repr_of_loc N D) as Hrep. rewrite <- Hmx, <- Hlx in Hrep.
  destruct (shr_repr _ ex (fexp (Zdigits2 mx + ex) - ex) N D HN HD Hrep)
    as [Hrep' He'].
  fold K in Hrep', He'.
  destruct (shr (shr_record_of_loc mx lx) ex (fexp (Zdigits2 mx + ex) - ex))
    as [mrs' e'] eqn:Eshr.
  cbn [fst snd] in Hrep', He'.
  pose proof (round_nearest_even_spec mrs' N (D * 2 ^ K) HN HDK Hrep')
    as (Hb & Habs & Hex).
  set (m2 := round_nearest_even (shr_m mrs') (loc_of_shr_record mrs')) in *.
  (* the first shift leaves at most [prec] digits *)
  assert (Hm1 : N / (D * 2 ^ K) < 2 ^ prec).
  { rewrite <- Z.div_div by lia. rewrite <- Hmx.
    destruct (Z.eq_dec mx 0) as [->|Hnz].
    - rewrite Z.div_0_l by lia. lia.
    - assert (0 < mx) as Hpos by (pose proof (Z.div_pos N D HN HD); lia).
      pose proof (Zdigits2_spec mx Hpos) as [_ Hu].
      pose proof (Zdigits2_pos mx Hpos) as Hd.
      apply Z.div_lt_upper_bound; [lia|].
      rewrite <- Z.pow_add_r by lia.
      apply Z.lt_le_trans with (1 := Hu).
      apply Z.pow_le_mono_r; [lia|].
      unfold K, SpecFloat.fexp. lia. }
  assert (Hm2 : 0 <= m2 <= 2 ^ prec).
  { pose proof (Z.div_pos N (D * 2 ^ K) HN HDK). lia. }
  assert (He1 : emin <= e').
  { subst e'. unfold K. pose proof (fexp_ge_emin (Zdigits2 mx + ex)). lia. }
  exists m2. repeat (split; [solve [assumption | lia]|]).
  pose proof (normalise_rounded m2 e' Hm2 He1) as Hn.
  destruct (shr_fexp prec emax m2 e' loc_Exact) as [mrs'' e''].
  subst e'. fold e1 in Hn |- *.
  destruct (shr_m mrs'') as [|m|m]; [auto| |contradiction].
  destruct Hn as (Hv & Hee & Hlt & Hsame).
  destruct (Z.leb_spec e'' (emax - prec)).
  - repeat split; solve [assumption | lia | apply Hsame; assumption].
  - assert (0 < 2 ^ (e'' - e1)) by (apply Z.pow_pos_nonneg; lia).
    repeat split; solve [lia | nia].
Qed.



Lemma binary_round_aux_real sx mx ex lx N D :
  0 <= N -> 0 < D -> mx = N / D -> lx = loc_of N D ->
  ex <= fexp (Zdigits2 mx + ex) ->
  let X := (IZR N / IZR D * bpow ex)%R in
  (X < bpow (emax - 1))%R ->
  rounds prec emax (sign_R sx * X) (binary_round_aux prec emax sx mx ex lx).
Proof.
  intros HN HD Hmx Hlx Hshift X HX.
  pose proof (binary_round_aux_int sx mx ex lx N D HN HD Hmx Hlx)
    as (m2 & Hm2 & Hfl & Habs & _ & Hres).
  set (E := fexp (Zdigits2 mx + ex)) in *.
  replace (Z.max 0 (E - ex)) with (E - ex) in * by lia.
  replace (ex + (E - ex)) with E in Hres by lia.
  set (K := E - ex) in *.
  set (d := Zdigits2 mx) in *.
  assert (Hmx0 : 0 <= mx) by (rewrite Hmx; apply Z.div_pos; lia).
  assert (H2K : 0 < 2 ^ K) by (apply Z.pow_pos_nonneg; lia).
  assert (H2p : 0 < 2 ^ prec) by (apply Z.pow_pos_nonneg; lia).
  assert (HDr : (0 < IZR D)%R) by (apply IZR_lt; lia).
  pose proof (bpow_gt_0 ex) as Hbex.
  pose proof (fexp_ge_emin (d + ex)) as HEm. fold E in HEm.
  (* the fraction lies between [mx] and [mx + 1] *)
  assert (Hfrac : (IZR mx <= IZR N / IZR D < IZR mx + 1)%R).
  { pose proof (Z.div_mod N D ltac:(lia)) as Hdm.
    pose proof (Z.mod_pos_bound N D HD) as Hr. rewrite <- Hmx in Hdm.
    assert (IZR N = IZR D * IZR mx + IZR (N mod D))%R as HNr
      by (rewrite <- mult_IZR, <- plus_IZR; f_equal; exact Hdm).
    assert (0 <= IZR (N mod D) < IZR D)%R
      by (split; [apply IZR_le|apply IZR_lt]; lia).
    split.
    - apply Rmult_le_reg_r with (IZR D); [assumption|].
      unfold Rdiv. rewrite Rmult_assoc, Rinv_l by lra. nra.
    - apply Rmult_lt_reg_r with (IZR D); [assumption|].
      unfold Rdiv. rewrite Rmult_assoc, Rinv_l by lra. nra. }
  assert (HXnn : (0 <= X)%R).
  { unfold X. apply Rmult_le_pos; [|lra].
    apply Rle_trans with (IZR mx); [apply IZR_le; lia|apply Hfrac]. }
  assert (Hnormal : E <> emin -> 0 < mx /\ E = d + ex - prec).
  { intros Hne. split.
    - destruct (Z.eq_dec mx 0) as [Hz|]; [|lia].
      exfalso. unfold E, d in *. rewrite Hz in *. simpl Zdigits2 in *.
      unfold SpecFloat.fexp in *. lia.
    - unfold E, SpecFloat.fexp in *. lia. }
  assert (Hq : quantum prec emax (sign_R sx * X) E /\ E <= emax - 1 - prec).
  { assert (Rabs (sign_R sx * X) = X) as HabsX
      by (rewrite Rabs_sign; apply Rabs_pos_eq; lra).
    unfold quantum. rewrite HabsX.
    destruct (Z.eq_dec mx 0) as [Hz|Hnz].
    - (* the fraction is below one and the exponent at most [emin] *)
      assert (ex <= emin /\ E = emin) as [Hex HEe].
      { unfold E, d in *. rewrite Hz in *. simpl Zdigits2 in *.
        unfold SpecFloat.fexp in *. lia. }
      split; [|unfold SpecFloat.emin in *; lia].
      split; [lia|]. split; [|now left].
      apply Rlt_le_trans with (bpow ex).
      + unfold X. rewrite Hz in Hfrac.
        rewrite <- (Rmult_1_l (bpow ex)) at 2.
        apply Rmult_lt_compat_r; lra.
      + apply bpow_le. lia.
    - assert (Hpos : 0 < mx) by lia.
      pose proof (Zdigits2_spec mx Hpos) as [Hdl Hdu]. fold d in Hdl, Hdu.
      pose proof (Zdigits2_pos mx Hpos) as Hd0. fold d in Hd0.
      assert (Hmag : (bpow (d + ex - 1) <= X < bpow (d + ex))%R).
      { unfold X. split.
        - replace (d + ex - 1) with ((d - 1) + ex) by lia.
          rewrite bpow_plus, (bpow_IZR (d - 1)) by lia.
          apply Rmult_le_compat_r; [lra|].
          apply Rle_trans with (IZR mx); [apply IZR_le; lia|apply Hfrac].
        - rewrite bpow_plus, (bpow_IZR d) by lia.
          apply Rmult_lt_compat_r; [assumption|].
          apply Rlt_le_trans with (IZR mx + 1)%R; [apply Hfrac|].
          rewrite <- plus_IZR. apply IZR_le. lia. }
      split.
      + split; [assumption|]. split.
        * apply Rlt_le_trans with (1 := proj2 Hmag). apply bpow_le.
          unfold E, SpecFloat.fexp. lia.
        * destruct (Z.eq_dec E emin) as [|Hne]; [now left|right].
          apply Rle_trans with (2 := proj1 Hmag). apply bpow_le.
          unfold E, SpecFloat.fexp in *. lia.
      + assert (d + ex - 1 < emax - 1) by (apply bpow_lt_inv; lra).
        unfold E, SpecFloat.fexp, SpecFloat.emin. lia. }
  destruct Hq as [Hq HE].
  (* the distance from the rounded mantissa *)
  assert (Hdist : (Rabs (IZR m2 * bpow E - X) <= bpow E / 2)%R).
  { replace E with (ex + K) by (unfold K; lia).
    rewrite bpow_plus, (bpow_IZR K) by lia.
    apply Z.abs_le in Habs. destruct Habs as [Hlo Hhi].
    apply IZR_le in Hlo, Hhi.
    rewrite opp_IZR in Hlo.
    rewrite !mult_IZR, minus_IZR, !mult_IZR in Hlo, Hhi.
    assert (Hp : (0 < IZR (2 ^ K))%R) by (apply IZR_lt; lia).
    unfold X. set (n := IZR N) in *. set (dr := IZR D) in *.
    set (p := IZR (2 ^ K)) in *. set (a := IZR m2) in *.
    set (b := bpow ex) in *.
    replace (a * (b * p) - n / dr * b)%R
      with ((b / dr) * (a * (dr * p) - n))%R by (field; lra).
    assert (Ht : (0 < b / dr)%R) by (apply Rdiv_lt_0_compat; assumption).
    replace (b * p / 2)%R with ((b / dr) * (dr * p / 2))%R by (field; lra).
    rewrite Rabs_mult, (Rabs_pos_eq (b / dr)) by lra.
    apply Rmult_le_compat_l; [lra|].
    apply Rabs_le. lra. }
  destruct (binary_round_aux prec emax sx mx ex lx) as [s|s| |s m e].
  - destruct Hres as [-> ->]. split; [reflexivity|]. split; [reflexivity|].
    exists E, 0. split; [assumption|]. split; [simpl; lra|].
    simpl SF2R. replace (0 - sign_R sx * X)%R with (- (sign_R sx * X))%R by lra.
    rewrite Rabs_Ropp, Rabs_sign. rewrite Rmult_0_l in Hdist.
    replace (0 - X)%R with (- X)%R in Hdist by lra. rewrite Rabs_Ropp in Hdist.
    assumption.
  - lia.
  - contradiction.
  - destruct Hres as (-> & Hv & Hee & Hlt & Hbound & Hsame).
    assert (Hval : (IZR (Zpos m) * bpow e = IZR m2 * bpow E)%R).
    { replace e with (E + (e - E)) at 1 by lia.
      rewrite bpow_plus, (bpow_IZR (e - E)) by lia.
      rewrite <- Hv, mult_IZR. ring. }
    split; [reflexivity|]. split.
    + (* the result is in canonical form *)
      cbn [valid_binary]. unfold bounded, canonical_mantissa.
      apply andb_true_iff. split; [|apply Z.leb_le; assumption].
      apply Z.eqb_eq.
      change (Zpos (digits2_pos m)) with (Zdigits2 (Zpos m)).
      destruct (Z_lt_le_dec m2 (2 ^ prec)) as [Hlow|Htop].
      * destruct (Hsame Hlow) as [-> Hmm]. rewrite Hmm.
        assert (0 < m2) as Hm2pos by lia.
        assert (Zdigits2 m2 <= prec) by (apply Zdigits2_le; lia).
        destruct (Z.eq_dec E emin) as [Hem|Hne].
        -- rewrite Hem at 1. unfold SpecFloat.fexp. lia.
        -- destruct (Hnormal Hne) as [Hpos HEd].
           pose proof (Zdigits2_spec mx Hpos) as [Hdl _]. fold d in Hdl.
           assert (prec <= Zdigits2 m2).
           { replace prec with ((prec - 1) + 1) at 1 by lia.
             apply Zdigits2_ge; [lia|].
             apply Z.le_trans with (2 := proj1 Hfl).
             rewrite <- Z.div_div, <- Hmx by lia.
             apply Z.div_le_lower_bound; [lia|].
             rewrite <- Z.pow_add_r by (unfold K; lia).
             replace (K + (prec - 1)) with (d - 1) by (unfold K; lia).
             assumption. }
           unfold SpecFloat.fexp. lia.
      * assert (m2 = 2 ^ prec) as Htop' by lia.
        assert (e = E + 1) as ->.
        { destruct (Z.eq_dec e E) as [->|]; [|lia].
          rewrite Z.sub_diag, Z.mul_1_r in Hv. lia. }
        replace (E + 1 - E) with 1 in Hv by lia.
        assert (Zpos m = 2 ^ (prec - 1)) as ->.
        { replace prec with (Z.succ (prec - 1)) in Htop' by lia.
          rewrite Z.pow_succ_r in Htop' by lia. lia. }
        rewrite Zdigits2_pow2 by lia.
        unfold SpecFloat.fexp. lia.
    + exists E, (cond_Zopp sx m2). split; [assumption|].
      assert (Hsf : (SF2R (S754_finite sx m e) = sign_R sx * (IZR m2 * bpow E))%R).
      { cbn [SF2R]. rewrite <- Hval. unfold sign_R, cond_Zopp.
        destruct sx; [rewrite opp_IZR|]; ring. }
      split.
      * rewrite Hsf. unfold sign_R, cond_Zopp.
        destruct sx; [rewrite opp_IZR|]; ring.
      * rewrite Hsf, <- Rmult_minus_distr_l, Rabs_sign. assumption.
Qed.

(** *** Floats of the format *)


Lemma SF2R_finite s m e :
  SF2R (S754_finite s m e) = (sign_R s * (IZR (Zpos m) * bpow e))%R.
Proof.
  cbn [SF2R]. unfold sign_R, cond_Zopp. destruct s; [rewrite opp_IZR|]; ring.
Qed.

Lemma emin_nonpos : emin <= 0.
Proof. unfold SpecFloat.emin. lia. Qed.

Lemma quantum_zero : quantum prec emax 0 emin.
Proof.
  unfold quantum. rewrite Rabs_R0. split; [lia|].
  split; [apply bpow_gt_0|now left].
Qed.

Lemma rounds_zero s : rounds prec emax 0 (S754_zero s).
Proof.
  split; [reflexivity|]. split; [reflexivity|].
  exists emin, 0. split; [apply quantum_zero|].
  cbn [SF2R]. split; [ring|].
  rewrite Rminus_0_r, Rabs_R0. pose proof (bpow_gt_0 emin). lra.
Qed.

Lemma canonical_finite m e :
  canonical_mantissa prec emax m e = true ->
  emin <= e /\ Zpos (digits2_pos m) <= prec
  /\ (e = emin \/ Zpos (digits2_pos m) = prec).
Proof.
  unfold canonical_mantissa. intros H. apply Z.eqb_eq in H.
  unfold SpecFloat.fexp in H. lia.
Qed.

Lemma quantum_finite s m e :
  valid_binary prec emax (S754_finite s m e) = true ->
  quantum prec emax (SF2R (S754_finite s m e)) e.
Proof.
  cbn [valid_binary]. unfold bounded. intros H.
  apply andb_true_iff in H. destruct H as [Hc _].
  apply canonical_finite in Hc. destruct Hc as (He & Hd & Hn).
  pose proof (digits2_pos_spec m) as [Hl Hu].
  set (d := Zpos (digits2_pos m)) in *.
  pose proof (bpow_gt_0 e) as Hb.
  assert (Hm : (0 < IZR (Zpos m))%R) by (apply IZR_lt; lia).
  unfold quantum. rewrite SF2R_finite, Rabs_sign, Rabs_pos_eq by nra.
  split; [assumption|]. split.
  - rewrite Z.add_comm, bpow_plus, (bpow_IZR prec) by lia.
    apply Rmult_lt_compat_r; [assumption|]. apply IZR_lt.
    apply Z.lt_le_trans with (1 := Hu). apply Z.pow_le_mono_r; lia.
  - destruct Hn as [Hn|Hn]; [now left|right].
    replace (e + prec - 1) with ((prec - 1) + e) by lia.
    rewrite bpow_plus, (bpow_IZR (prec - 1)) by lia.
    apply Rmult_le_compat_r; [lra|]. apply IZR_le.
    rewrite <- Hn. assumption.
Qed.

(** A float of the format rounds to itself. *)
Lemma rounds_self x : fv prec emax x -> rounds prec emax (SF2R x) x.
Proof.
  intros [Hf Hv]. split; [assumption|]. split; [assumption|].
  destruct x as [s|s| |s m e]; try discriminate.
  - exists emin, 0. split; [apply quantum_zero|].
    cbn [SF2R]. split; [ring|].
    rewrite Rminus_0_r, Rabs_R0. pose proof (bpow_gt_0 emin). lra.
  - exists e, (cond_Zopp s (Zpos m)). split; [now apply quantum_finite|].
    split; [reflexivity|].
    rewrite Rminus_diag, Rabs_R0. pose proof (bpow_gt_0 e). lra.
Qed.

(** *** Conversions: [binary_round] and [binary_normalize] *)

Lemma shl_align_spec mx ex ex' :
  snd (shl_align mx ex ex') = Z.min ex ex'
  /\ Zpos (fst (shl_align mx ex ex'))
     = Zpos mx * 2 ^ (ex - snd (shl_align mx ex ex')).
Proof.
  unfold shl_align. destruct (ex' - ex) as [|d|d] eqn:Ed; cbn [fst snd].
  - split; [lia|]. rewrite Z.sub_diag. lia.
  - split; [lia|]. rewrite Z.sub_diag. lia.
  - split; [lia|].
    replace (ex - ex') with (Zpos d) by lia.
    change (Pos.iter xO mx d) with (shift_pos d mx).
    rewrite shift_pos_correct. unfold Zpower_pos. cbn [Z.pow]. unfold Z.pow_pos. lia.
Qed.

Lemma Zdigits2_shift m k :
  0 < m -> 0 <= k -> Zdigits2 (m * 2 ^ k) = Zdigits2 m + k.
Proof.
  intros Hm Hk. pose proof (Zdigits2_spec m Hm) as [Hl Hu].
  pose proof (Zdigits2_pos m Hm) as Hd.
  assert (0 < 2 ^ k) by (apply Z.pow_pos_nonneg; lia).
  apply Z.le_antisymm.
  - apply Zdigits2_le; [nia|]. rewrite Z.pow_add_r by lia. nia.
  - replace (Zdigits2 m + k) with ((Zdigits2 m - 1 + k) + 1) by lia.
    apply Zdigits2_ge; [lia|]. rewrite Z.pow_add_r by lia. nia.
Qed.

Lemma binary_round_real s m e :
  (IZR (Zpos m) * bpow e < bpow (emax - 1))%R ->
  rounds prec emax (sign_R s * (IZR (Zpos m) * bpow e)) (binary_round prec emax s m e).
Proof.
  intros HX. unfold binary_round.
  pose proof (shl_align_spec m e (fexp (Zpos (digits2_pos m) + e))) as [Hez Hmz].
  destruct (shl_align m e (fexp (Zpos (digits2_pos m) + e))) as [mz ez].
  cbn [fst snd] in Hez, Hmz.
  assert (Hval : (IZR (Zpos mz) / IZR 1 * bpow ez = IZR (Zpos m) * bpow e)%R).
  { rewrite Hmz, mult_IZR, <- bpow_IZR by lia.
    assert (bpow e = bpow (e - ez) * bpow ez)%R as ->
      by (rewrite <- bpow_plus; f_equal; lia).
    field. }
  rewrite <- Hval. apply binary_round_aux_real; try lia.
  - now rewrite Z.div_1_r.
  - unfold loc_of. now rewrite Z.mod_1_r.
  - rewrite Hmz, Zdigits2_shift by lia.
    change (Zdigits2 (Zpos m)) with (Zpos (digits2_pos m)).
    replace (Zpos (digits2_pos m) + (e - ez) + ez)
      with (Zpos (digits2_pos m) + e) by lia.
    lia.
  - rewrite Hval. assumption.
Qed.

Lemma binary_normalize_real n e sz :
  (Rabs (IZR n * bpow e) < bpow (emax - 1))%R ->
  rounds prec emax (IZR n * bpow e) (binary_normalize prec emax n e sz).
Proof.
  intros HX. pose proof (bpow_gt_0 e) as Hb.
  destruct n as [|p|p]; cbn [binary_normalize].
  - rewrite Rmult_0_l. apply rounds_zero.
  - pose proof (binary_round_real false p e) as H.
    unfold sign_R in H. rewrite Rmult_1_l in H. apply H.
    rewrite Rabs_pos_eq in HX; [assumption|].
    apply Rmult_le_pos; [apply IZR_le; lia|lra].
  - pose proof (binary_round_real true p e) as H.
    unfold sign_R in H.
    replace (IZR (Zneg p) * bpow e)%R with (-1 * (IZR (Zpos p) * bpow e))%R
      by (change (Zneg p) with (- Zpos p); rewrite opp_IZR; ring).
    apply H.
    replace (IZR (Zneg p) * bpow e)%R with (- (IZR (Zpos p) * bpow e))%R in HX
      by (change (Zneg p) with (- Zpos p); rewrite opp_IZR; ring).
    rewrite Rabs_Ropp, Rabs_pos_eq in HX; [assumption|].
    apply Rmult_le_pos; [apply IZR_le; lia|lra].
Qed.

(** *** Arithmetic *)

Lemma sign_R_xorb a b : sign_R (xorb a b) = (sign_R a * sign_R b)%R.
Proof. destruct a, b; unfold sign_R; simpl; ring. Qed.

Lemma Zdigits2_mul a b :
  0 < a -> 0 < b -> Zdigits2 a + Zdigits2 b - 1 <= Zdigits2 (a * b).
Proof.
  intros Ha Hb.
  pose proof (Zdigits2_spec a Ha) as [Hal _].
  pose proof (Zdigits2_spec b Hb) as [Hbl _].
  pose proof (Zdigits2_pos a Ha). pose proof (Zdigits2_pos b Hb).
  replace (Zdigits2 a + Zdigits2 b - 1)
    with ((Zdigits2 a - 1 + (Zdigits2 b - 1)) + 1) by lia.
  apply Zdigits2_ge; [lia|]. rewrite Z.pow_add_r by lia.
  assert (0 < 2 ^ (Zdigits2 a - 1)) by (apply Z.pow_pos_nonneg; lia).
  assert (0 < 2 ^ (Zdigits2 b - 1)) by (apply Z.pow_pos_nonneg; lia).
  nia.
Qed.

Lemma SFmul_real x y :
  fv prec emax x -> fv prec emax y -> (Rabs (SF2R x * SF2R y) < bpow (emax - 1))%R ->
  rounds prec emax (SF2R x * SF2R y) (SFmul prec emax x y).
Proof.
  intros [Hfx Hvx] [Hfy Hvy] HX.
  destruct x as [sx|sx| |sx mx ex]; try discriminate;
    destruct y as [sy|sy| |sy my ey]; try discriminate;
    try (cbn [SFmul SF2R]; rewrite ?Rmult_0_l, ?Rmult_0_r; apply rounds_zero).
  cbn [SFmul]. rewrite !SF2R_finite in *.
  cbn [valid_binary] in Hvx, Hvy. unfold bounded in Hvx, Hvy.
  apply andb_true_iff in Hvx, Hvy.
  destruct Hvx as [Hcx _], Hvy as [Hcy _].
  apply canonical_finite in Hcx, Hcy.
  assert (Hval : (sign_R sx * (IZR (Zpos mx) * bpow ex)
                  * (sign_R sy * (IZR (Zpos my) * bpow ey))
                  = sign_R (xorb sx sy)
                    * (IZR (Zpos (mx * my)) / IZR 1 * bpow (ex + ey)))%R).
  { rewrite sign_R_xorb, Pos2Z.inj_mul, mult_IZR, bpow_plus. field. }
  rewrite Hval in *. rewrite Rabs_sign in HX.
  apply binary_round_aux_real; try lia.
  - now rewrite Z.div_1_r.
  - unfold loc_of. now rewrite Z.mod_1_r.
  - pose proof (Zdigits2_mul (Zpos mx) (Zpos my) ltac:(lia) ltac:(lia)) as Hd.
    rewrite <- Pos2Z.inj_mul in Hd. cbn [Zdigits2] in Hd |- *.
    pose proof (digits2_pos_spec (mx * my)).
    pose proof emin_nonpos.
    unfold SpecFloat.fexp. lia.
  - apply Rle_lt_trans with (2 := HX). apply Rle_abs.
Qed.

Lemma SFadd_real x y :
  fv prec emax x -> fv prec emax y -> (Rabs (SF2R x + SF2R y) < bpow (emax - 1))%R ->
  rounds prec emax (SF2R x + SF2R y) (SFadd prec emax x y).
Proof.
  intros Hx Hy HX. pose proof Hx as [Hfx Hvx]. pose proof Hy as [Hfy Hvy].
  destruct x as [sx|sx| |sx mx ex]; try discriminate;
    destruct y as [sy|sy| |sy my ey]; try discriminate.
  - cbn [SF2R]. rewrite Rplus_0_l.
    cbn [SFadd]. destruct sx, sy; apply rounds_zero.
  - cbn [SFadd]. change (SF2R (S754_zero sx)) with 0%R. rewrite Rplus_0_l.
    now apply rounds_self.
  - cbn [SFadd]. change (SF2R (S754_zero sy)) with 0%R. rewrite Rplus_0_r.
    now apply rounds_self.
  - cbn [SFadd].
    pose proof (shl_align_spec mx ex (Z.min ex ey)) as [Hex Hmx].
    pose proof (shl_align_spec my ey (Z.min ex ey)) as [Hey Hmy].
    set (ez := Z.min ex ey) in *.
    rewrite Hex in Hmx. rewrite Hey in Hmy.
    replace (Z.min ex ez) with ez in Hmx by lia.
    replace (Z.min ey ez) with ez in Hmy by lia.
    set (M := cond_Zopp sx (Zpos (fst (shl_align mx ex ez)))
              + cond_Zopp sy (Zpos (fst (shl_align my ey ez)))).
    assert (Hval : (SF2R (S754_finite sx mx ex) + SF2R (S754_finite sy my ey)
                    = IZR M * bpow ez)%R).
    { unfold M. rewrite plus_IZR, !SF2R_finite.
      assert (forall s z, IZR (cond_Zopp s z) = sign_R s * IZR z)%R as Hs
        by (intros [] z; unfold sign_R, cond_Zopp; [rewrite opp_IZR|]; ring).
      rewrite !Hs, Hmx, Hmy, !mult_IZR, <- !bpow_IZR by lia.
      assert (bpow ex = bpow (ex - ez) * bpow ez)%R as ->
        by (rewrite <- bpow_plus; f_equal; lia).
      assert (bpow ey = bpow (ey - ez) * bpow ez)%R as ->
        by (rewrite <- bpow_plus; f_equal; lia).
      ring. }
    rewrite Hval in *. now apply binary_normalize_real.
Qed.

Lemma new_location_spec D r :
  0 < D -> 0 <= r < D ->
  new_location D r
  = if r =? 0 then loc_Exact else loc_Inexact (2 * r ?= D).
Proof.
  intros HD Hr. unfold new_location, new_location_even, new_location_odd.
  destruct (Z.even D) eqn:Ev; destruct (Z.eqb_spec r 0); try reflexivity.
  f_equal.
  assert (D mod 2 = 1) as Hodd.
  { rewrite Zmod_odd, <- Z.negb_even, Ev. reflexivity. }
  destruct (Z.compare_spec (2 * r + 1) D), (Z.compare_spec (2 * r) D);
    try reflexivity; try lia.
  subst D. rewrite Z.mul_comm, Z.mod_mul in Hodd by lia. discriminate.
Qed.

Lemma SFdiv_core_binary_spec mx ex my ey :
  let e' := Z.min (fexp (Zpos (digits2_pos mx) + ex - (Zpos (digits2_pos my) + ey)))
                  (ex - ey) in
  let N := Zpos mx * 2 ^ (ex - ey - e') in
  SFdiv_core_binary prec emax (Zpos mx) ex (Zpos my) ey
  = (N / Zpos my, e', loc_of N (Zpos my)).
Proof.
  intros e' N. unfold SFdiv_core_binary. cbn [Zdigits2]. fold e'.
  set (s := ex - ey - e').
  assert (Hs : 0 <= s) by (unfold s, e'; lia).
  assert (Hm' : match s with
                | 0 => Zpos mx
                | Zpos _ => Z.shiftl (Zpos mx) s
                | Zneg _ => 0
                end = N).
  { unfold N. fold s. destruct s as [|p|p]; try lia.
    rewrite Z.shiftl_mul_pow2 by lia. reflexivity. }
  rewrite Hm'.
  assert (Z.div_eucl N (Zpos my) = (N / Zpos my, N mod Zpos my)) as ->.
  { unfold Z.div, Z.modulo. now destruct (Z.div_eucl N (Zpos my)). }
  rewrite new_location_spec; [reflexivity|lia|].
  apply Z.mod_pos_bound. lia.
Qed.

Lemma SFdiv_real x sy my ey :
  fv prec emax x -> fv prec emax (S754_finite sy my ey) ->
  (Rabs (SF2R x / SF2R (S754_finite sy my ey)) < bpow (emax - 1))%R ->
  rounds prec emax (SF2R x / SF2R (S754_finite sy my ey))
         (SFdiv prec emax x (S754_finite sy my ey)).
Proof.
  intros [Hfx Hvx] [_ Hvy] HX.
  destruct x as [sx|sx| |sx mx ex]; try discriminate.
  - cbn [SFdiv SF2R]. unfold Rdiv. rewrite Rmult_0_l. apply rounds_zero.
  - cbn [SFdiv]. rewrite SFdiv_core_binary_spec.
    set (dx := Zpos (digits2_pos mx)). set (dy := Zpos (digits2_pos my)).
    set (e' := Z.min (fexp (dx + ex - (dy + ey))) (ex - ey)).
    set (s := ex - ey - e').
    set (N := Zpos mx * 2 ^ s).
    assert (Hs : 0 <= s) by (unfold s, e'; lia).
    assert (H2s : 0 < 2 ^ s) by (apply Z.pow_pos_nonneg; lia).
    assert (HN : 0 < N) by (unfold N; nia).
    pose proof (bpow_gt_0 ex). pose proof (bpow_gt_0 ey).
    assert (Hmy : (0 < IZR (Zpos my))%R) by (apply IZR_lt; lia).
    assert (Hval : (SF2R (S754_finite sx mx ex) / SF2R (S754_finite sy my ey)
                    = sign_R (xorb sx sy)
                      * (IZR N / IZR (Zpos my) * bpow e'))%R).
    { rewrite !SF2R_finite, sign_R_xorb. unfold N.
      rewrite mult_IZR, <- bpow_IZR by lia.
      assert (bpow ex = bpow s * bpow e' * bpow ey)%R as ->.
      { rewrite <- !bpow_plus. f_equal. unfold s. lia. }
      pose proof (bpow_gt_0 s). pose proof (bpow_gt_0 e').
      unfold sign_R. destruct sx, sy; field; lra. }
    rewrite Hval in *. rewrite Rabs_sign in HX.
    apply binary_round_aux_real; try lia; try reflexivity.
    + (* the quotient has enough digits for the exponent [e'] *)
      pose proof (digits2_pos_spec mx) as [Hxl Hxu].
      pose proof (digits2_pos_spec my) as [Hyl Hyu].
      fold dx in Hxl, Hxu. fold dy in Hyl, Hyu.
      assert (0 < dx /\ 0 < dy) as [Hdx Hdy] by (unfold dx, dy; lia).
      assert (Hq0 : 0 <= N / Zpos my) by (apply Z.div_pos; lia).
      destruct (Z.eq_dec (N / Zpos my) 0) as [Hz|Hnz].
      * rewrite Hz. cbn [Zdigits2].
        assert (N < Zpos my).
        { destruct (Z_lt_le_dec N (Zpos my)) as [|Hge]; [assumption|exfalso].
          assert (1 <= N / Zpos my) by (apply Z.div_le_lower_bound; lia). lia. }
        assert (Hsmall : ~ (dy + prec - dx <= s)).
        { intros Hbig.
          assert (2 ^ (dy + prec - 1) <= N).
          { unfold N. apply Z.le_trans with (2 ^ (dx - 1) * 2 ^ s); [|nia].
            rewrite <- Z.pow_add_r by lia. apply Z.pow_le_mono_r; lia. }
          assert (2 ^ dy <= 2 ^ (dy + prec - 1)) by (apply Z.pow_le_mono_r; lia).
          lia. }
        unfold s, e', SpecFloat.fexp in *. lia.
      * assert (Hqpos : 0 < N / Zpos my) by lia.
        assert (Hdq : dx + s - dy <= Zdigits2 (N / Zpos my)).
        { pose proof (Zdigits2_pos _ Hqpos).
          destruct (Z_lt_le_dec (dx + s - 1 - dy) 0) as [|Hnn]; [lia|].
          replace (dx + s - dy) with ((dx + s - 1 - dy) + 1) by lia.
          apply Zdigits2_ge; [assumption|].
          apply Z.div_le_lower_bound; [lia|].
          apply Z.le_trans with (2 ^ dy * 2 ^ (dx + s - 1 - dy)).
          - apply Z.mul_le_mono_nonneg_r; [apply Z.pow_nonneg|]; lia.
          - rewrite <- Z.pow_add_r by lia.
            replace (dy + (dx + s - 1 - dy)) with ((dx - 1) + s) by lia.
            rewrite Z.pow_add_r by lia. unfold N. nia. }
        apply Z.le_trans with (fexp (dx + ex - (dy + ey))); [unfold e'; lia|].
        apply fexp_mono. unfold s in Hdq. lia.
    + apply Rle_lt_trans with (2 := HX). apply Rle_abs.
Qed.

(** The conversion of a finite float of any format into this one. *)
Lemma SFldexp0_real x :
  is_finite x = true -> (Rabs (SF2R x) < bpow (emax - 1))%R ->
  rounds prec emax (SF2R x) (SFldexp prec emax x 0).
Proof.
  intros Hf HX. destruct x as [s|s| |s m e]; try discriminate.
  - apply rounds_zero.
  - cbn [SFldexp]. rewrite Z.add_0_r, SF2R_finite in *.
    apply binary_round_real. rewrite Rabs_sign in HX.
    apply Rle_lt_trans with (2 := HX). apply Rle_abs.
Qed.

(** *** Consequences of rounding to nearest *)

Lemma quantum_opp X E : quantum prec emax X E -> quantum prec emax (- X) E.
Proof. unfold quantum. now rewrite Rabs_Ropp. Qed.

Lemma quantum_mono X Y E E' :
  quantum prec emax X E -> quantum prec emax Y E' -> (Rabs X <= Rabs Y)%R -> E <= E'.
Proof.
  intros (He & Hu & Hl) (He' & Hu' & Hl') Hle.
  destruct (Z_le_gt_dec E E') as [|Hgt]; [assumption|exfalso].
  destruct Hl as [Hl|Hl]; [lia|].
  assert (bpow (E + prec - 1) < bpow (E' + prec))%R as Hlt by lra.
  apply bpow_lt_inv in Hlt. lia.
Qed.

Lemma quantum_unique X E E' : quantum prec emax X E -> quantum prec emax X E' -> E = E'.
Proof.
  intros H H'. apply Z.le_antisymm; eapply quantum_mono; eauto; lra.
Qed.

Lemma quantum_lt X E g :
  quantum prec emax X E -> (Rabs X < bpow g)%R -> E <= Z.max (g - prec) emin.
Proof.
  intros (He & Hu & [Hl|Hl]) Hg; [lia|].
  assert (bpow (E + prec - 1) < bpow g)%R as Hlt by lra.
  apply bpow_lt_inv in Hlt. lia.
Qed.

Lemma quantum_ge X E g :
  quantum prec emax X E -> (bpow g <= Rabs X)%R -> g - prec + 1 <= E.
Proof.
  intros (He & Hu & _) Hg.
  assert (bpow g < bpow (E + prec))%R as Hlt by lra.
  apply bpow_lt_inv in Hlt. lia.
Qed.



Lemma rounds_near X r : rounds prec emax X r -> near prec emax X (SF2R r).
Proof. intros (_ & _ & H). exact H. Qed.

Lemma rounds_fv X r : rounds prec emax X r -> fv prec emax r.
Proof. intros (Hf & Hv & _). split; assumption. Qed.

Lemma near_opp X V : near prec emax X V -> near prec emax (- X) (- V).
Proof.
  intros (E & j & Hq & HV & Hd). exists E, (- j).
  split; [now apply quantum_opp|]. split.
  - rewrite opp_IZR, HV. ring.
  - replace (- V - - X)%R with (- (V - X))%R by ring. now rewrite Rabs_Ropp.
Qed.

Lemma format_opp z : format prec emax z -> format prec emax (- z).
Proof.
  intros (E & i & Hq & Hz). exists E, (- i).
  split; [now apply quantum_opp|]. rewrite opp_IZR, Hz. ring.
Qed.

Lemma format_SF2R x : fv prec emax x -> format prec emax (SF2R x).
Proof.
  intros [Hf Hv]. destruct x as [s|s| |s m e]; try discriminate.
  - exists emin, 0. split; [apply quantum_zero|]. cbn [SF2R]. ring.
  - exists e, (cond_Zopp s (Zpos m)). split; [now apply quantum_finite|].
    reflexivity.
Qed.

(** A multiple of a coarser unit is a multiple of a finer one. *)
Lemma multiple_finer i E E' :
  E <= E' -> (IZR i * bpow E' = IZR (i * 2 ^ (E' - E)) * bpow E)%R.
Proof.
  intros H. rewrite mult_IZR, <- bpow_IZR by lia.
  assert (bpow E' = bpow (E' - E) * bpow E)%R as ->
    by (rewrite <- bpow_plus; f_equal; lia).
  ring.
Qed.

(** On one grid, rounding to nearest does not step over a grid point. *)
Lemma grid_le E j i X :
  (Rabs (IZR j * bpow E - X) <= bpow E / 2)%R ->
  (X <= IZR i * bpow E)%R -> (IZR j * bpow E <= IZR i * bpow E)%R.
Proof.
  intros Hd Hle. pose proof (bpow_gt_0 E) as Hb.
  destruct (Z_le_gt_dec j i) as [Hji|Hji].
  - apply Rmult_le_compat_r; [lra|]. now apply IZR_le.
  - exfalso. assert (IZR i + 1 <= IZR j)%R as Hij
      by (rewrite <- plus_IZR; apply IZR_le; lia).
    apply Rabs_le_inv in Hd. nra.
Qed.

(** The same with a margin below half a unit. *)
Lemma grid_le_slack E j i X :
  (Rabs (IZR j * bpow E - X) <= bpow E / 2)%R ->
  (X < IZR i * bpow E + bpow E / 2)%R -> (IZR j * bpow E <= IZR i * bpow E)%R.
Proof.
  intros Hd Hle. pose proof (bpow_gt_0 E) as Hb.
  destruct (Z_le_gt_dec j i) as [Hji|Hji].
  - apply Rmult_le_compat_r; [lra|]. now apply IZR_le.
  - exfalso. assert (IZR i + 1 <= IZR j)%R as Hij
      by (rewrite <- plus_IZR; apply IZR_le; lia).
    apply Rabs_le_inv in Hd. nra.
Qed.

(** Rounding to nearest does not step over a number of the format. *)
Lemma near_le X V z : near prec emax X V -> format prec emax z -> (X <= z)%R -> (V <= z)%R.
Proof.
  intros (E & j & Hq & HV & Hd) (Ez & i & Hqz & Hz) Hle.
  subst V. pose proof (bpow_gt_0 E) as Hb.
  destruct (Z_le_gt_dec E Ez) as [HE|HE].
  - rewrite Hz, (multiple_finer i E Ez HE) in Hle |- *.
    now apply grid_le with X.
  - (* [z] lies in a binade below that of [X]: [X] is negative *)
    destruct Hq as (He & Hu & Hl). destruct Hqz as (Hez & Huz & _).
    destruct Hl as [Hl|Hl]; [lia|].
    assert (HB : (bpow (Ez + prec) <= bpow (E + prec - 1))%R)
      by (apply bpow_le; lia).
    assert (HzB : (Rabs z < bpow (E + prec - 1))%R) by lra.
    assert (HXneg : (X <= - bpow (E + prec - 1))%R).
    { destruct (Rle_lt_dec 0 X) as [Hp|Hn].
      - exfalso. rewrite Rabs_pos_eq in Hl by assumption.
        pose proof (Rle_abs z). lra.
      - rewrite Rabs_left in Hl by assumption. lra. }
    assert (Hgrid : (- bpow (E + prec - 1)
                     = IZR (- 2 ^ (prec - 1)) * bpow E)%R).
    { rewrite opp_IZR, <- bpow_IZR by lia.
      replace (E + prec - 1) with ((prec - 1) + E) by lia.
      rewrite bpow_plus. ring. }
    rewrite Hgrid in HXneg.
    apply Rle_trans with (IZR (- 2 ^ (prec - 1)) * bpow E)%R.
    + now apply grid_le with X.
    + rewrite <- Hgrid. apply Rabs_lt_inv in HzB. lra.
Qed.

Lemma near_ge X V z : near prec emax X V -> format prec emax z -> (z <= X)%R -> (z <= V)%R.
Proof.
  intros HV Hz Hle. apply near_opp in HV. apply format_opp in Hz.
  pose proof (near_le _ _ _ HV Hz). lra.
Qed.

(** A number of the format is left alone. *)
Lemma near_exact X V : near prec emax X V -> format prec emax X -> V = X.
Proof.
  intros HV HX. apply Rle_antisym.
  - apply (near_le X V X); [assumption..|lra].
  - apply (near_ge X V X); [assumption..|lra].
Qed.

(** The relative error in the normal range. *)
Lemma near_relative X V :
  near prec emax X V -> (bpow (emin + prec - 1) <= Rabs X)%R ->
  (Rabs (V - X) <= Rabs X * bpow (- prec))%R.
Proof.
  intros (E & j & (He & Hu & Hl) & HV & Hd) Hn.
  assert (HB : (bpow (E + prec - 1) <= Rabs X)%R).
  { destruct Hl as [->|Hl]; assumption. }
  apply Rle_trans with (1 := Hd).
  replace (E + prec - 1) with ((E - 1) + prec) in HB by lia.
  rewrite bpow_plus in HB. rewrite bpow_pred in HB.
  rewrite bpow_opp. pose proof (bpow_gt_0 prec) as Hp.
  apply Rmult_le_reg_r with (bpow prec); [assumption|].
  rewrite Rmult_assoc, Rinv_l by lra. lra.
Qed.

(** The sign is kept. *)
Lemma near_nonneg X V : near prec emax X V -> (0 <= X)%R -> (0 <= V)%R.
Proof.
  intros HV HX. apply (near_ge X V 0); try assumption.
  exists emin, 0. split; [apply quantum_zero|ring].
Qed.

(** Integers of at most [prec] digits are in the format. *)
Lemma format_int n : Z.abs n < 2 ^ prec -> format prec emax (IZR n).
Proof.
  intros Hn. destruct (Z.eq_dec n 0) as [->|Hnz].
  - exists emin, 0. split; [apply quantum_zero|ring].
  - assert (Hpos : 0 < Z.abs n) by lia.
    pose proof (Zdigits2_spec _ Hpos) as [Hl Hu].
    pose proof (Zdigits2_pos _ Hpos) as Hd.
    assert (Hdp : Zdigits2 (Z.abs n) <= prec) by (apply Zdigits2_le; lia).
    set (d := Zdigits2 (Z.abs n)) in *.
    pose proof emin_nonpos as Hem.
    set (E := fexp d).
    assert (HE : E <= 0) by (unfold E, SpecFloat.fexp; lia).
    exists E, (n * 2 ^ (- E)). split.
    + unfold quantum. rewrite <- abs_IZR. split; [apply fexp_ge_emin|]. split.
      * apply Rlt_le_trans with (bpow d).
        -- rewrite bpow_IZR by lia. now apply IZR_lt.
        -- apply bpow_le. unfold E, SpecFloat.fexp. lia.
      * destruct (Z.eq_dec E emin) as [|Hne]; [now left|right].
        replace (E + prec - 1) with (d - 1) by (unfold E, SpecFloat.fexp in *; lia).
        rewrite bpow_IZR by lia. now apply IZR_le.
    + rewrite mult_IZR, <- bpow_IZR by lia.
      rewrite Rmult_assoc, <- bpow_plus. replace (- E + E) with 0 by lia.
      rewrite bpow_0. ring.
Qed.

(** Powers of two in the range of the format are in the format. *)
Lemma format_bpow g : emin + prec - 1 <= g -> format prec emax (bpow g).
Proof.
  intros Hg. exists (g - prec + 1), (2 ^ (prec - 1)). split.
  - unfold quantum. rewrite Rabs_pos_eq by (pose proof (bpow_gt_0 g); lra).
    split; [lia|]. split.
    + apply bpow_lt. lia.
    + right. apply bpow_le. lia.
  - rewrite <- bpow_IZR, <- bpow_plus by lia. f_equal. lia.
Qed.

(** A float that is not zero is written with a mantissa. *)
Lemma fv_nonzero x :
  fv prec emax x -> SF2R x <> 0%R -> exists s m e, x = S754_finite s m e.
Proof.
  intros [Hf _] Hnz. destruct x as [s|s| |s m e]; try discriminate.
  - now elim Hnz.
  - now exists s, m, e.
Qed.

Lemma SFdiv_real' x y :
  fv prec emax x -> fv prec emax y -> SF2R y <> 0%R ->
  (Rabs (SF2R x / SF2R y) < bpow (emax - 1))%R ->
  rounds prec emax (SF2R x / SF2R y) (SFdiv prec emax x y).
Proof.
  intros Hx Hy Hnz HX.
  destruct (fv_nonzero y Hy Hnz) as (s & m & e & ->).
  now apply SFdiv_real.
Qed.


(** Rounding to nearest does not step over a grid point of the binade of
    [X] that is less than half a unit below [X]. *)
Lemma near_le_slack X V i g :
  near prec emax X V -> emin <= g - prec ->
  (bpow (g - 1) <= Rabs X < bpow g)%R ->
  (X < IZR i * bpow (g - prec) + bpow (g - prec) / 2)%R ->
  (V <= IZR i * bpow (g - prec))%R.
Proof.
  intros (E & j & Hq & HV & Hd) Hg [Hl Hu] Hslack.
  assert (E = g - prec) as HE.
  { pose proof (quantum_lt X E g Hq Hu).
    pose proof (quantum_ge X E (g - 1) Hq Hl). lia. }
  subst V. rewrite HE in *. now apply grid_le_slack with X.
Qed.

End Round.

(** The absolute error of a rounding below [2^k]. *)
Lemma near_abs prec emax X V k :
  near prec emax X V -> SpecFloat.emin prec emax + prec <= k ->
  (Rabs X < bpow k)%R ->
  (Rabs (V - X) <= bpow (k - prec) / 2)%R.
Proof.
  intros (E & j & (He & Hu & Hl) & HV & Hd) Hk HX.
  assert (HE : E <= k - prec).
  { destruct Hl as [->|Hl]; [lia|].
    assert (H : (bpow (E + prec - 1) < bpow k)%R) by lra.
    apply bpow_lt_inv in H. lia. }
  apply bpow_le in HE. lra.
Qed.
(** ** [floorf], [ceilf] and [roundf] against the real value *)

Lemma IZR_div_bounds n P :
  0 < P -> (IZR (n / P) <= IZR n / IZR P < IZR (n / P) + 1)%R.
Proof.
  intros HP. pose proof (Z.div_mod n P ltac:(lia)) as Hdm.
  pose proof (Z.mod_pos_bound n P HP) as Hr.
  assert (HPr : (0 < IZR P)%R) by (apply IZR_lt; lia).
  assert (IZR n = IZR P * IZR (n / P) + IZR (n mod P))%R as Hn
    by (rewrite <- mult_IZR, <- plus_IZR; f_equal; exact Hdm).
  assert (0 <= IZR (n mod P) < IZR P)%R
    by (split; [apply IZR_le|apply IZR_lt]; lia).
  split.
  - apply Rmult_le_reg_r with (IZR P); [assumption|].
    unfold Rdiv. rewrite Rmult_assoc, Rinv_l by lra. nra.
  - apply Rmult_lt_reg_r with (IZR P); [assumption|].
    unfold Rdiv. rewrite Rmult_assoc, Rinv_l by lra. nra.
Qed.

Lemma SF2R_signed s m e :
  SF2R (S754_finite s m e) = (IZR (signed s m) * bpow e)%R.
Proof. reflexivity. Qed.

Lemma bpow_neg_inv e : e < 0 -> bpow e = (/ IZR (2 ^ (- e)))%R.
Proof.
  intros He. replace e with (- (- e)) at 1 by lia.
  rewrite bpow_opp, bpow_IZR by lia. reflexivity.
Qed.

Lemma floorf_spec x z :
  floorf x = Some z -> (IZR z <= SF2R x < IZR z + 1)%R.
Proof.
  destruct x as [s|s| |s m e]; cbn [floorf]; intros H; inversion H; subst; clear H.
  - cbn [SF2R]. lra.
  - rewrite SF2R_signed. destruct (Z.leb_spec 0 e) as [He|He].
    + rewrite mult_IZR, <- bpow_IZR by lia. lra.
    + rewrite bpow_neg_inv by lia.
      apply IZR_div_bounds. apply Z.pow_pos_nonneg; lia.
Qed.

Lemma ceilf_spec x z :
  ceilf x = Some z -> (IZR z - 1 < SF2R x <= IZR z)%R.
Proof.
  destruct x as [s|s| |s m e]; cbn [ceilf]; intros H; inversion H; subst; clear H.
  - cbn [SF2R]. lra.
  - rewrite SF2R_signed. destruct (Z.leb_spec 0 e) as [He|He].
    + rewrite mult_IZR, <- bpow_IZR by lia. lra.
    + rewrite bpow_neg_inv by lia.
      assert (HP : 0 < 2 ^ (- e)) by (apply Z.pow_pos_nonneg; lia).
      pose proof (IZR_div_bounds (- signed s m) _ HP) as Hb.
      rewrite !opp_IZR in *.
      assert (0 < IZR (2 ^ (- e)))%R by (apply IZR_lt; lia).
      unfold Rdiv in *. rewrite <- Ropp_mult_distr_l in Hb. lra.
Qed.

Lemma floorf_is_finite x : is_finite x = true -> exists z, floorf x = Some z.
Proof. destruct x; try discriminate; intros _; eexists; reflexivity. Qed.

Lemma ceilf_is_finite x : is_finite x = true -> exists z, ceilf x = Some z.
Proof. destruct x; try discriminate; intros _; eexists; reflexivity. Qed.

(** An integer is the floor of the reals of the unit interval above it. *)
Lemma floor_unique (z k : Z) (v : R) :
  (IZR z <= v < IZR z + 1)%R -> (IZR k <= v < IZR k + 1)%R -> z = k.
Proof.
  intros Hz Hk.
  assert (IZR z < IZR (k + 1))%R by (rewrite plus_IZR; lra).
  assert (IZR k < IZR (z + 1))%R by (rewrite plus_IZR; lra).
  apply lt_IZR in H, H0. lia.
Qed.

Lemma ceil_unique (z k : Z) (v : R) :
  (IZR z - 1 < v <= IZR z)%R -> (IZR k - 1 < v <= IZR k)%R -> z = k.
Proof.
  intros Hz Hk.
  assert (IZR z < IZR (k + 1))%R by (rewrite plus_IZR; lra).
  assert (IZR k < IZR (z + 1))%R by (rewrite plus_IZR; lra).
  apply lt_IZR in H, H0. lia.
Qed.


Lemma Rinv_le_1 x : (1 <= x)%R -> (/ x <= 1)%R.
Proof.
  intros H. apply Rmult_le_reg_r with x; [lra|].
  rewrite Rinv_l by lra. lra.
Qed.

(** ** Binary32 arithmetic of the program *)

Lemma prec32_pos : 0 < F32.prec.
Proof. reflexivity. Qed.

Lemma emax32_gt : F32.prec < F32.emax.
Proof. reflexivity. Qed.

(** The side conditions on the format. *)
Ltac f32 := first [exact prec32_pos | exact emax32_gt].


Lemma rounds32_near X r : rounds32 X r -> near32 X (SF2R r).
Proof. apply rounds_near. Qed.

Lemma rounds32_fv X r : rounds32 X r -> fv32 r.
Proof. apply rounds_fv. Qed.

Lemma bpow127 : bpow (F32.emax - 1) = IZR (2 ^ 127).
Proof. change (F32.emax - 1) with 127. now rewrite bpow_IZR by lia. Qed.

Lemma of_int32_rounds n :
  Z.abs n < 2 ^ 127 -> rounds32 (IZR n) (F32.of_int n).
Proof.
  intros Hn. unfold F32.of_int.
  assert (H := binary_normalize_real F32.prec F32.emax).
  specialize (H prec32_pos emax32_gt n 0 false).
  rewrite bpow_0, Rmult_1_r in H. apply H.
  rewrite bpow127, <- abs_IZR. now apply IZR_lt.
Qed.

Lemma format32_int n : Z.abs n < 2 ^ 24 -> format32 (IZR n).
Proof. intros H. apply (format_int F32.prec F32.emax); try f32; assumption. Qed.

(** Integers below [2^24] convert exactly. *)
Lemma of_int32_exact n :
  Z.abs n < 2 ^ 24 -> fv32 (F32.of_int n) /\ SF2R (F32.of_int n) = IZR n.
Proof.
  intros Hn.
  assert (Z.abs n < 2 ^ 127) as Hn' by lia.
  pose proof (of_int32_rounds n Hn') as Hr. split.
  - now apply rounds32_fv in Hr.
  - apply (near_exact F32.prec F32.emax); try f32.
    + now apply rounds32_near.
    + now apply format32_int.
Qed.

Lemma mul32_rounds x y :
  fv32 x -> fv32 y -> (Rabs (SF2R x * SF2R y) < IZR (2 ^ 127))%R ->
  rounds32 (SF2R x * SF2R y) (F32.mul x y).
Proof.
  intros Hx Hy HX. apply (SFmul_real F32.prec F32.emax); try f32;
    try assumption.
  now rewrite bpow127.
Qed.

Lemma add32_rounds x y :
  fv32 x -> fv32 y -> (Rabs (SF2R x + SF2R y) < IZR (2 ^ 127))%R ->
  rounds32 (SF2R x + SF2R y) (F32.add x y).
Proof.
  intros Hx Hy HX. apply (SFadd_real F32.prec F32.emax); try f32;
    try assumption.
  now rewrite bpow127.
Qed.

Lemma div32_rounds x y :
  fv32 x -> fv32 y -> SF2R y <> 0%R ->
  (Rabs (SF2R x / SF2R y) < IZR (2 ^ 127))%R ->
  rounds32 (SF2R x / SF2R y) (F32.div x y).
Proof.
  intros Hx Hy Hnz HX.
  apply (SFdiv_real' F32.prec F32.emax); try f32; try assumption.
  now rewrite bpow127.
Qed.

(** The relative error of a rounding in the normal range of binary32. *)
Lemma near32_relative X V :
  near32 X V -> (/ IZR (2 ^ 126) <= Rabs X)%R ->
  (Rabs (V - X) <= Rabs X / IZR (2 ^ 24))%R.
Proof.
  intros HV HX.
  assert (H := near_relative F32.prec F32.emax).
  specialize (H X V HV).
  change (SpecFloat.emin F32.prec F32.emax + F32.prec - 1) with (-126) in H.
  change (- F32.prec) with (-24) in H.
  rewrite !bpow_neg_inv in H by lia. apply H. assumption.
Qed.

Lemma near32_le X V z : near32 X V -> format32 z -> (X <= z)%R -> (V <= z)%R.
Proof. apply (near_le F32.prec F32.emax); f32. Qed.

Lemma near32_ge X V z : near32 X V -> format32 z -> (z <= X)%R -> (z <= V)%R.
Proof. apply (near_ge F32.prec F32.emax); f32. Qed.

Lemma format32_pow2 g : 0 <= g <= 126 -> format32 (IZR (2 ^ g)).
Proof.
  intros Hg. rewrite <- bpow_IZR by lia.
  apply (format_bpow F32.prec F32.emax); try f32.
  unfold SpecFloat.emin, F32.prec, F32.emax. lia.
Qed.

Lemma format32_0 : format32 0.
Proof. apply (format32_int 0). reflexivity. Qed.

(** The conversion of a positive [int]. *)
Lemma of_int32_pos n :
  0 < n < 2 ^ 31 ->
  fv32 (F32.of_int n)
  /\ (1 <= SF2R (F32.of_int n) <= IZR (2 ^ 31))%R
  /\ (Rabs (SF2R (F32.of_int n) - IZR n) <= IZR n / IZR (2 ^ 24))%R.
Proof.
  intros Hn.
  assert (Z.abs n < 2 ^ 127) as Hn' by lia.
  pose proof (of_int32_rounds n Hn') as Hr.
  pose proof (rounds32_near _ _ Hr) as Hnear.
  assert (1 <= IZR n)%R as H1 by (apply IZR_le; lia).
  split; [now apply rounds32_fv in Hr|]. split; [split|].
  - apply (near32_ge (IZR n)); [assumption| |assumption].
    apply (format32_int 1). reflexivity.
  - apply (near32_le (IZR n)); [assumption| |apply IZR_le; lia].
    apply format32_pow2. lia.
  - pose proof (near32_relative _ _ Hnear) as H.
    rewrite Rabs_pos_eq in H by lra. apply H.
    apply Rle_trans with 1%R; [|assumption].
    apply Rinv_le_1. apply IZR_le. lia.
Qed.

(** ** The edges of the sampling rectangles *)


Lemma eps_def : eps = (/ IZR (2 ^ 24))%R.
Proof. reflexivity. Qed.

Lemma near32_enclosure X V :
  near32 X V -> (/ IZR (2 ^ 126) <= X)%R ->
  (X * (1 - eps) <= V <= X * (1 + eps))%R.
Proof.
  intros HV HX.
  assert (Hpos : (0 < / IZR (2 ^ 126))%R)
    by (apply Rinv_0_lt_compat, IZR_lt; reflexivity).
  pose proof (near32_relative X V HV) as H.
  rewrite Rabs_pos_eq in H by lra. specialize (H HX).
  apply Rabs_le_inv in H. rewrite eps_def. unfold Rdiv in H. lra.
Qed.

Lemma edge_zero n d :
  0 < n < 2 ^ 31 -> 0 < d < 2 ^ 31 -> exists s, edge 0 n d = S754_zero s.
Proof.
  intros Hn Hd. unfold edge.
  destruct (of_int32_pos n Hn) as (Hfn & [Hn1 _] & _).
  destruct (of_int32_pos d Hd) as (Hfd & [Hd1 _] & _).
  destruct (fv_nonzero _ _ _ Hfn ltac:(lra)) as (sn & mn & en & ->).
  destruct (fv_nonzero _ _ _ Hfd ltac:(lra)) as (sd & md & ed & ->).
  eexists. reflexivity.
Qed.

Lemma edge_enclosure o n d :
  0 < o < 2 ^ 31 -> 0 < n < 2 ^ 31 -> 0 < d < 2 ^ 31 ->
  let t := (SF2R (F32.of_int o) * SF2R (F32.of_int n) / SF2R (F32.of_int d))%R in
  fv32 (edge o n d)
  /\ (t * ((1 - eps) * (1 - eps)) <= SF2R (edge o n d)
      <= t * ((1 + eps) * (1 + eps)))%R.
Proof.
  intros Ho Hn Hd t.
  destruct (of_int32_pos o Ho) as (Hfo & [Ho1 Ho2] & _).
  destruct (of_int32_pos n Hn) as (Hfn & [Hn1 Hn2] & _).
  destruct (of_int32_pos d Hd) as (Hfd & [Hd1 Hd2] & _).
  set (o' := SF2R (F32.of_int o)) in *.
  set (n' := SF2R (F32.of_int n)) in *.
  set (d' := SF2R (F32.of_int d)) in *.
  change (2 ^ 31) with 2147483648 in *.
  assert (He : (0 < eps < / 16)%R) by (unfold eps; lra).
  assert (Hbig : (IZR (2 ^ 127) = 2147483648 * 2147483648 * 2147483648
                                   * 2147483648 * 8)%R).
  { rewrite <- !mult_IZR. reflexivity. }
  assert (Hsmall : (/ IZR (2 ^ 126) <= / 2147483648 / 4)%R).
  { replace (/ 2147483648 / 4)%R with (/ 8589934592)%R by lra.
    apply Rinv_le_contravar; [lra|]. apply IZR_le. now apply Z.leb_le. }
  (* the product *)
  assert (Ha : (1 <= o' * n' <= 2147483648 * 2147483648)%R) by nra.
  assert (HP : rounds32 (o' * n') (F32.mul (F32.of_int o) (F32.of_int n))).
  { apply mul32_rounds; try assumption. fold o' n'.
    rewrite Rabs_pos_eq by lra. lra. }
  pose proof (rounds32_fv _ _ HP) as HfP.
  pose proof (near32_enclosure _ _ (rounds32_near _ _ HP)) as HencP.
  set (P := SF2R (F32.mul (F32.of_int o) (F32.of_int n))) in *.
  assert (HencP' : (o' * n' * (1 - eps) <= P <= o' * n' * (1 + eps))%R).
  { apply HencP. apply Rle_trans with (1 := Hsmall). lra. }
  assert (HPpos : (/ 2 <= P <= 2147483648 * 2147483648 * 2)%R) by nra.
  (* the quotient *)
  assert (Hinv : (/ 2147483648 <= / d' <= 1)%R).
  { split; [apply Rinv_le_contravar; lra|apply Rinv_le_1; lra]. }
  assert (HX : (/ 2147483648 / 2 <= P / d' <= 2147483648 * 2147483648 * 2)%R).
  { unfold Rdiv. split; nra. }
  assert (HQ : rounds32 (P / d') (edge o n d)).
  { unfold edge. apply div32_rounds; try assumption.
    - fold d'. lra.
    - fold P d'. rewrite Rabs_pos_eq by lra. lra. }
  split; [now apply rounds32_fv in HQ|].
  pose proof (near32_enclosure _ _ (rounds32_near _ _ HQ)) as HencQ.
  set (Q := SF2R (edge o n d)) in *.
  assert (HencQ' : (P / d' * (1 - eps) <= Q <= P / d' * (1 + eps))%R).
  { apply HencQ. apply Rle_trans with (1 := Hsmall). lra. }
  assert (Ht : (t = o' * n' * / d')%R) by reflexivity.
  assert (HPd : (o' * n' * (1 - eps) * / d' <= P / d'
                 <= o' * n' * (1 + eps) * / d')%R).
  { unfold Rdiv. split; apply Rmult_le_compat_r; lra. }
  rewrite Ht. split.
  - apply Rle_trans with (2 := proj1 HencQ').
    apply Rle_trans with (o' * n' * (1 - eps) * / d' * (1 - eps))%R; [lra|].
    apply Rmult_le_compat_r; lra.
  - apply Rle_trans with (1 := proj2 HencQ').
    apply Rle_trans with (o' * n' * (1 + eps) * / d' * (1 + eps))%R; [|lra].
    apply Rmult_le_compat_r; lra.
Qed.


Lemma in_int_iff z : in_int z = true <-> - 2 ^ 31 <= z <= 2 ^ 31 - 1.
Proof.
  unfold in_int, INT_MIN, INT_MAX. rewrite andb_true_iff, !Z.leb_le. tauto.
Qed.

Lemma fv32_zero s : fv32 (S754_zero s).
Proof. split; reflexivity. Qed.

Lemma edge_fv o n d :
  0 <= o < 2 ^ 31 -> 0 < n < 2 ^ 31 -> 0 < d < 2 ^ 31 ->
  fv32 (edge o n d) /\ (0 <= SF2R (edge o n d))%R.
Proof.
  intros Ho Hn Hd. destruct (Z.eq_dec o 0) as [->|Hnz].
  - destruct (edge_zero n d Hn Hd) as [s ->]. split; [apply fv32_zero|].
    cbn [SF2R]. lra.
  - destruct (edge_enclosure o n d ltac:(lia) Hn Hd) as [Hf [Hl _]].
    split; [assumption|].
    destruct (of_int32_pos o ltac:(lia)) as (_ & [Ho1 _] & _).
    destruct (of_int32_pos n Hn) as (_ & [Hn1 _] & _).
    destruct (of_int32_pos d Hd) as (_ & [Hd1 _] & _).
    apply Rle_trans with (2 := Hl).
    assert (0 < / SF2R (F32.of_int d))%R by (apply Rinv_0_lt_compat; lra).
    assert (0 < eps < / 16)%R by (unfold eps; lra).
    unfold Rdiv. repeat apply Rmult_le_pos; lra.
Qed.

Section Geometry.

Variable cvt_invalid : spec_float -> Z.


Lemma src_range o n out_n :
  0 <= n ->
  0 <= src_lo cvt_invalid o n out_n <= n
  /\ 0 <= src_hi cvt_invalid o n out_n <= n.
Proof. intros Hn. unfold src_lo, src_hi. split; now apply clampi_range. Qed.


Lemma src_lo_first n out_n :
  0 < n < 2 ^ 31 -> 0 < out_n < 2 ^ 31 -> src_lo cvt_invalid 0 n out_n = 0.
Proof.
  intros Hn Hd. unfold src_lo.
  destruct (edge_zero n out_n Hn Hd) as [s ->].
  cbn [floorf to_int]. change (in_int 0) with true. cbv iota.
  apply clampi_id. lia.
Qed.


End Geometry.

(** Where the products fit in 24 bits the edges are the exact quotients. *)
Lemma edge_exact o n d :
  0 <= o -> 0 < n < 2 ^ 31 -> 0 < d < 2 ^ 24 -> o * n < 2 ^ 24 ->
  floorf (edge o n d) = Some (o * n / d)
  /\ ceilf (edge o n d) = Some (- ((- (o * n)) / d)).
Proof.
  intros Ho Hn Hd Hon. destruct (Z.eq_dec o 0) as [->|Hnz].
  - destruct (edge_zero n d Hn ltac:(lia)) as [s ->]. cbn [floorf ceilf].
    rewrite Z.mul_0_l. change (- 0) with 0. rewrite Zdiv_0_l. split; reflexivity.
  - assert (Ho24 : 0 < o < 2 ^ 24) by nia.
    assert (Hn24 : 0 < n < 2 ^ 24) by nia.
    destruct (of_int32_exact o ltac:(lia)) as [Hfo Hvo].
    destruct (of_int32_exact n ltac:(lia)) as [Hfn Hvn].
    destruct (of_int32_exact d ltac:(lia)) as [Hfd Hvd].
    set (a := o * n) in *.
    assert (Ha : 0 < a) by (unfold a; nia).
    assert (HA : (1 <= IZR a < 16777216)%R).
    { split; [apply IZR_le; lia|]. apply (IZR_lt a (2 ^ 24)). lia. }
    assert (HD : (1 <= IZR d < 16777216)%R).
    { split; [apply IZR_le; lia|]. apply (IZR_lt d (2 ^ 24)). lia. }
    assert (Hbig : (16777216 < IZR (2 ^ 127))%R).
    { apply (IZR_lt 16777216). now apply Z.ltb_lt. }
    (* the product is exact *)
    assert (HP : rounds32 (IZR a) (F32.mul (F32.of_int o) (F32.of_int n))).
    { unfold a. rewrite mult_IZR, <- Hvo, <- Hvn.
      apply mul32_rounds; try assumption.
      rewrite Hvo, Hvn, <- mult_IZR. fold a. rewrite Rabs_pos_eq by lra. lra. }
    pose proof (rounds32_fv _ _ HP) as HfP.
    assert (HvP : SF2R (F32.mul (F32.of_int o) (F32.of_int n)) = IZR a).
    { apply (near_exact F32.prec F32.emax); try f32.
      - now apply rounds32_near.
      - apply format32_int. lia. }
    (* the quotient is rounded *)
    assert (Hinv : (0 < / IZR d <= 1)%R).
    { split; [apply Rinv_0_lt_compat; lra|apply Rinv_le_1; lra]. }
    assert (HQ : rounds32 (IZR a / IZR d) (edge o n d)).
    { unfold edge. rewrite <- HvP, <- Hvd.
      apply div32_rounds; try assumption.
      - rewrite Hvd. lra.
      - rewrite HvP, Hvd, Rabs_pos_eq; unfold Rdiv; nra. }
    pose proof (rounds32_fv _ _ HQ) as [HfinQ _].
    pose proof (rounds32_near _ _ HQ) as HnearQ.
    destruct (floorf_is_finite _ HfinQ) as [z Hz].
    destruct (ceilf_is_finite _ HfinQ) as [z' Hz'].
    pose proof (floorf_spec _ _ Hz) as Hfl.
    pose proof (ceilf_spec _ _ Hz') as Hce.
    rewrite Hz, Hz'.
    pose proof (Z.div_mod a d ltac:(lia)) as Hdm.
    pose proof (Z.mod_pos_bound a d ltac:(lia)) as Hr.
    set (q := a / d) in *. set (r := a mod d) in *.
    assert (Hq : 0 <= q) by (apply Z.div_pos; lia).
    assert (HAr : (IZR a = IZR d * IZR q + IZR r)%R)
      by (rewrite <- mult_IZR, <- plus_IZR; f_equal; exact Hdm).
    destruct (Z.eq_dec r 0) as [Hr0|Hr0].
    + (* an integer quotient is a float *)
      assert (HX : (IZR a / IZR d = IZR q)%R).
      { rewrite HAr, Hr0. field. lra. }
      assert (HV : SF2R (edge o n d) = IZR q).
      { rewrite <- HX. apply (near_exact F32.prec F32.emax); try f32;
          [assumption|].
        rewrite HX. apply format32_int. nia. }
      rewrite HV in Hfl, Hce.
      assert (z = q) as ->.
      { apply (floor_unique z q (IZR q)); lra. }
      assert (z' = q) as ->.
      { apply (ceil_unique z' q (IZR q)); lra. }
      split; [reflexivity|]. f_equal.
      replace (- a) with ((- q) * d) by lia. rewrite Z.div_mul by lia. lia.
    + (* otherwise the rounding error is below the distance to an integer *)
      assert (Hsmall : (/ IZR (2 ^ 126) <= IZR a / IZR d)%R).
      { apply Rle_trans with (/ 16777216)%R.
        - apply Rinv_le_contravar; [lra|]. apply (IZR_le 16777216).
          now apply Z.leb_le.
        - assert (/ 16777216 <= / IZR d)%R by (apply Rinv_le_contravar; lra).
          unfold Rdiv. nra. }
      pose proof (near32_enclosure _ _ HnearQ Hsmall) as [Hlo Hhi].
      set (V := SF2R (edge o n d)) in *.
      assert (HR : (1 <= IZR r <= IZR d - 1)%R).
      { split; [apply (IZR_le 1); lia|].
        rewrite <- (minus_IZR d 1). apply IZR_le. lia. }
      assert (Herr : (IZR a / IZR d * eps < / IZR d)%R).
      { unfold Rdiv, eps. 
        replace (IZR a * / IZR d * / 16777216)%R
          with ((IZR a * / 16777216) * / IZR d)%R by ring.
        rewrite <- (Rmult_1_l (/ IZR d)) at 2.
        apply Rmult_lt_compat_r; lra. }
      assert (HXq : (IZR q + / IZR d <= IZR a / IZR d
                     <= IZR q + 1 - / IZR d)%R).
      { rewrite HAr. unfold Rdiv.
        replace ((IZR d * IZR q + IZR r) * / IZR d)%R
          with (IZR q + IZR r * / IZR d)%R by (field; lra).
        assert (IZR d * / IZR d = 1)%R by (field; lra).
        split; nra. }
      assert (HVq : (IZR q < V < IZR q + 1)%R) by lra.
      assert (z = q) as ->.
      { apply (floor_unique z q V); lra. }
      assert (z' = q + 1) as ->.
      { apply (ceil_unique z' (q + 1) V); rewrite ?plus_IZR; lra. }
      split; [reflexivity|]. f_equal.
      assert ((- a) / d = - q - 1) as ->; [|lia].
      symmetry. apply Z.div_unique with (d - r); lia.
Qed.

Section Coverage.

Variable cvt_invalid : spec_float -> Z.


(** Cells are not empty while the output has at most [2^21] cells along
    the axis. *)
Lemma src_nonempty o n out_n :
  0 < n <= 2 ^ 30 -> 0 < out_n <= 2 ^ 21 -> 0 <= o < out_n ->
  src_lo cvt_invalid o n out_n < src_hi cvt_invalid o n out_n.
Proof.
  intros Hn Hd Ho.
  assert (He : (eps = / 16777216)%R) by reflexivity.
  destruct (of_int32_pos n ltac:(lia)) as (_ & [Hn1 _] & Hnrel).
  destruct (of_int32_exact out_n ltac:(lia)) as [_ Hvd].
  destruct (of_int32_exact (o + 1) ltac:(lia)) as [_ Hvo1].
  set (n' := SF2R (F32.of_int n)) in *.
  assert (HN : (1 <= IZR n <= 1073741824)%R).
  { split; [apply (IZR_le 1); lia|]. apply (IZR_le n 1073741824). lia. }
  assert (HD : (1 <= IZR out_n <= 2097152)%R).
  { split; [apply (IZR_le 1); lia|]. apply (IZR_le out_n 2097152). lia. }
  assert (HO : (0 <= IZR o <= IZR out_n - 1)%R).
  { split; [apply (IZR_le 0); lia|].
    rewrite <- (minus_IZR out_n 1). apply IZR_le. lia. }
  apply Rabs_le_inv in Hnrel. unfold Rdiv in Hnrel.
  change (2 ^ 24) with 16777216 in Hnrel.
  set (u := (n' / IZR out_n)%R).
  assert (Hu : (u * IZR out_n = n')%R) by (unfold u; field; lra).
  assert (Hupos : (0 < u)%R) by (unfold u; apply Rdiv_lt_0_compat; lra).
  (* the upper edge *)
  destruct (edge_enclosure (o + 1) n out_n ltac:(lia) ltac:(lia) ltac:(lia))
    as [Hf1 [Hlo1 Hhi1]].
  rewrite Hvo1, Hvd, plus_IZR in Hlo1, Hhi1. fold n' in Hlo1, Hhi1.
  replace ((IZR o + 1) * n' / IZR out_n)%R with ((IZR o + 1) * u)%R
    in Hlo1, Hhi1 by (unfold u; field; lra).
  rewrite He in Hlo1, Hhi1.
  set (f1 := edge (o + 1) n out_n) in *.
  destruct (ceilf_is_finite f1 (proj1 Hf1)) as [b Hb].
  pose proof (ceilf_spec f1 b Hb) as Hce.
  assert (Hu21 : (n' <= u * 2097152)%R) by nra.
  assert (Hou : (IZR o * u <= n' - u)%R) by nra.
  assert (Hou1 : ((IZR o + 1) * u <= n')%R) by nra.
  assert (Hb0 : 0 < b).
  { apply lt_IZR. apply Rlt_le_trans with (2 := proj2 Hce).
    apply Rlt_le_trans with (2 := Hlo1). nra. }
  assert (Hbmax : b < 2 ^ 31 - 1).
  { apply lt_IZR. change (2 ^ 31 - 1) with 2147483647.
    assert (SF2R f1 <= 1073741824 * 1.001)%R by nra. lra. }
  unfold src_hi. fold f1. rewrite Hb. cbn [to_int].
  assert (in_int b = true) as -> by (apply in_int_iff; lia).
  destruct (Z.eq_dec o 0) as [->|Hnz].
  - rewrite src_lo_first by lia.
    unfold clampi. destruct (Z.ltb_spec b 0); [lia|].
    rewrite Z.gtb_ltb. destruct (Z.ltb_spec n b); lia.
  - (* the lower edge *)
    destruct (of_int32_exact o ltac:(lia)) as [_ Hvo].
    destruct (edge_enclosure o n out_n ltac:(lia) ltac:(lia) ltac:(lia))
      as [Hf0 [Hlo0 Hhi0]].
    rewrite Hvo, Hvd in Hlo0, Hhi0. fold n' in Hlo0, Hhi0.
    replace (IZR o * n' / IZR out_n)%R with (IZR o * u)%R
      in Hlo0, Hhi0 by (unfold u; field; lra).
    rewrite He in Hlo0, Hhi0.
    set (f0 := edge o n out_n) in *.
    destruct (floorf_is_finite f0 (proj1 Hf0)) as [a Ha].
    pose proof (floorf_spec f0 a Ha) as Hfl.
    assert (HO1 : (1 <= IZR o)%R) by (apply (IZR_le 1); lia).
    assert (Hlt : (SF2R f0 < SF2R f1)%R).
    { apply Rle_lt_trans with (1 := Hhi0).
      apply Rlt_le_trans with (2 := Hlo1).
      assert (IZR o * ((1 + / 16777216) * (1 + / 16777216))
              < (IZR o + 1) * ((1 - / 16777216) * (1 - / 16777216)))%R by lra.
      nra. }
    assert (HltN : (SF2R f0 < IZR n)%R).
    { apply Rle_lt_trans with (1 := Hhi0).
      assert (IZR o * u <= n' * (1 - / 2097152))%R by lra.
      assert (n' <= IZR n * (1 + / 16777216))%R by lra.
      assert (n' * (1 - / 2097152) * ((1 + / 16777216) * (1 + / 16777216))
              < IZR n)%R by nra.
      nra. }
    assert (Ha0 : -1 < a).
    { apply lt_IZR. assert (0 <= SF2R f0)%R by nra. lra. }
    assert (Han : a < n) by (apply lt_IZR; lra).
    assert (Hab : a < b) by (apply lt_IZR; lra).
    unfold src_lo. fold f0. rewrite Ha. cbn [to_int].
    assert (in_int a = true) as -> by (apply in_int_iff; lia).
    rewrite clampi_id by lia.
    unfold clampi. destruct (Z.ltb_spec b 0); [lia|].
    rewrite Z.gtb_ltb. destruct (Z.ltb_spec n b); lia.
Qed.

(** In the 24-bit region the bounds are the exact quotients. *)
Lemma src_bounds_exact o n out_n :
  0 < n -> 0 < out_n -> n * out_n < 2 ^ 24 -> 0 <= o < out_n ->
  src_lo cvt_invalid o n out_n = o * n / out_n
  /\ src_hi cvt_invalid o n out_n = - ((- ((o + 1) * n)) / out_n).
Proof.
  intros Hn Hd Hnd Ho.
  assert (out_n < 2 ^ 24 /\ n < 2 ^ 24) as [Hd24 Hn24] by nia.
  destruct (edge_exact o n out_n ltac:(lia) ltac:(lia) ltac:(lia) ltac:(nia))
    as [Hfl _].
  destruct (edge_exact (o + 1) n out_n ltac:(lia) ltac:(lia) ltac:(lia)
              ltac:(nia)) as [_ Hce].
  unfold src_lo, src_hi. rewrite Hfl, Hce. cbn [to_int].
  assert (H0 : 0 <= o * n / out_n <= n).
  { split; [apply Z.div_pos; nia|].
    apply Z.div_le_upper_bound; nia. }
  set (c := - (- ((o + 1) * n) / out_n)).
  assert (Hc : 0 <= c <= n).
  { unfold c.
    pose proof (Z.div_mod (- ((o + 1) * n)) out_n ltac:(lia)) as Hdm.
    pose proof (Z.mod_pos_bound (- ((o + 1) * n)) out_n ltac:(lia)) as Hr.
    set (k := - ((o + 1) * n) / out_n) in *. nia. }
  assert (in_int (o * n / out_n) = true) as -> by (apply in_int_iff; lia).
  assert (in_int c = true) as -> by (apply in_int_iff; lia).
  split; apply clampi_id; lia.
Qed.

End Coverage.

(** ** The glyph mapper *)

Lemma HALF_eq : HALF = S754_finite false 8388608 (-24).
Proof. reflexivity. Qed.

Lemma HALF_val : fv32 HALF /\ SF2R HALF = (/ 2)%R.
Proof.
  rewrite HALF_eq. split; [split; reflexivity|].
  cbn [SF2R cond_Zopp]. rewrite bpow_neg_inv by lia.
  change (2 ^ (- -24)) with 16777216. lra.
Qed.

Section Glyph.

Variable cvt_invalid : spec_float -> Z.

Lemma luminance_to_char_10 lum ramp :
  String.length ramp = 10%nat ->
  luminance_to_char cvt_invalid lum ramp
  = let x := F32.add (F32.mul lum (F32.of_int 9)) HALF in
    char_at ramp (clampi (to_int cvt_invalid x (floorf x)) 0 9).
Proof. intros H. unfold luminance_to_char. rewrite H. reflexivity. Qed.

(** A luminance of one or more selects the last glyph. *)
Lemma glyph_above lum ramp :
  String.length ramp = 10%nat -> fv32 lum ->
  (1 <= SF2R lum <= 134217728)%R ->
  luminance_to_char cvt_invalid lum ramp = char_at ramp 9.
Proof.
  intros Hlen Hf HL. rewrite luminance_to_char_10 by assumption. cbv zeta.
  destruct (of_int32_exact 9 ltac:(reflexivity)) as [Hf9 Hv9].
  destruct HALF_val as [Hfh Hvh].
  assert (He : (eps = / 16777216)%R) by reflexivity.
  assert (Hbig : (8589934592 < IZR (2 ^ 127))%R).
  { apply (IZR_lt 8589934592). now apply Z.ltb_lt. }
  assert (Hsmall : (/ IZR (2 ^ 126) <= 1)%R).
  { apply Rinv_le_1. apply (IZR_le 1). now apply Z.leb_le. }
  assert (HP : rounds32 (SF2R lum * 9) (F32.mul lum (F32.of_int 9))).
  { rewrite <- Hv9. apply mul32_rounds; try assumption.
    rewrite Hv9, Rabs_pos_eq by lra. lra. }
  pose proof (rounds32_fv _ _ HP) as HfP.
  pose proof (rounds32_near _ _ HP) as HnP.
  set (P := F32.mul lum (F32.of_int 9)) in *.
  assert (HP9 : (9 <= SF2R P)%R).
  { apply (near32_ge (SF2R lum * 9)); [assumption| |lra].
    apply (format32_int 9). reflexivity. }
  pose proof (near32_enclosure _ _ HnP ltac:(lra)) as [_ HPhi].
  rewrite He in HPhi.
  assert (HS : rounds32 (SF2R P + / 2) (F32.add P HALF)).
  { rewrite <- Hvh. apply add32_rounds; try assumption.
    rewrite Hvh, Rabs_pos_eq by lra. lra. }
  pose proof (rounds32_fv _ _ HS) as [HfinS _].
  pose proof (rounds32_near _ _ HS) as HnS.
  set (S := F32.add P HALF) in *.
  assert (HS9 : (9 <= SF2R S)%R).
  { apply (near32_ge (SF2R P + / 2)); [assumption| |lra].
    apply (format32_int 9). reflexivity. }
  pose proof (near32_enclosure _ _ HnS ltac:(lra)) as [_ HShi].
  rewrite He in HShi.
  destruct (floorf_is_finite S HfinS) as [z Hz]. rewrite Hz.
  pose proof (floorf_spec S z Hz) as Hfl.
  assert (H1 : (IZR 8 < IZR z)%R) by lra.
  assert (H2 : (IZR z < IZR 2147483647)%R) by lra.
  apply lt_IZR in H1, H2.
  cbn [to_int]. assert (in_int z = true) as -> by (apply in_int_iff; lia).
  f_equal. unfold clampi. destruct (Z.ltb_spec z 0); [lia|].
  rewrite Z.gtb_ltb. destruct (Z.ltb_spec 9 z); lia.
Qed.

(** A luminance of zero or less selects the first glyph. *)
Lemma glyph_below lum ramp :
  String.length ramp = 10%nat -> fv32 lum ->
  (- 134217728 <= SF2R lum <= 0)%R ->
  luminance_to_char cvt_invalid lum ramp = char_at ramp 0.
Proof.
  intros Hlen Hf HL. rewrite luminance_to_char_10 by assumption. cbv zeta.
  destruct (of_int32_exact 9 ltac:(reflexivity)) as [Hf9 Hv9].
  destruct HALF_val as [Hfh Hvh].
  assert (Hbig : (8589934592 < IZR (2 ^ 127))%R).
  { apply (IZR_lt 8589934592). now apply Z.ltb_lt. }
  assert (Hfmt : format32 (- 2147483648)).
  { apply (format_opp F32.prec F32.emax). apply (format32_pow2 31). lia. }
  assert (HP : rounds32 (SF2R lum * 9) (F32.mul lum (F32.of_int 9))).
  { rewrite <- Hv9. apply mul32_rounds; try assumption.
    rewrite Hv9, Rabs_left1 by lra. lra. }
  pose proof (rounds32_fv _ _ HP) as HfP.
  pose proof (rounds32_near _ _ HP) as HnP.
  set (P := F32.mul lum (F32.of_int 9)) in *.
  assert (HP0 : (SF2R P <= 0)%R).
  { apply (near32_le (SF2R lum * 9)); [assumption|apply format32_0|lra]. }
  assert (HPlo : (- 2147483648 <= SF2R P)%R).
  { apply (near32_ge (SF2R lum * 9)); [assumption..|lra]. }
  assert (HS : rounds32 (SF2R P + / 2) (F32.add P HALF)).
  { rewrite <- Hvh. apply add32_rounds; try assumption.
    rewrite Hvh. apply Rabs_def1; lra. }
  pose proof (rounds32_fv _ _ HS) as [HfinS _].
  pose proof (rounds32_near _ _ HS) as HnS.
  set (S := F32.add P HALF) in *.
  assert (HShi : (SF2R S <= / 2)%R).
  { apply (near32_le (SF2R P + / 2)); [assumption| |lra].
    rewrite <- Hvh. apply (format_SF2R F32.prec F32.emax); try f32. assumption. }
  assert (HSlo : (- 2147483648 <= SF2R S)%R).
  { apply (near32_ge (SF2R P + / 2)); [assumption..|lra]. }
  destruct (floorf_is_finite S HfinS) as [z Hz]. rewrite Hz.
  pose proof (floorf_spec S z Hz) as Hfl.
  assert (H1 : (IZR z < IZR 1)%R) by lra.
  assert (H2 : (IZR (-2147483649) < IZR z)%R) by lra.
  apply lt_IZR in H1, H2.
  cbn [to_int]. assert (in_int z = true) as -> by (apply in_int_iff; lia).
  f_equal. unfold clampi. destruct (Z.ltb_spec z 0); [lia|].
  rewrite Z.gtb_ltb. destruct (Z.ltb_spec 9 z); lia.
Qed.

End Glyph.

(** ** The luminance of a pixel *)

Lemma SF2R_neg_exp s m e :
  e < 0 -> SF2R (S754_finite s m e) = (IZR (signed s m) / IZR (2 ^ (- e)))%R.
Proof. intros He. rewrite SF2R_signed, bpow_neg_inv by assumption. reflexivity. Qed.

Lemma format32_SF2R x : fv32 x -> format32 (SF2R x).
Proof. intros H. apply (format_SF2R F32.prec F32.emax); try f32. assumption. Qed.

Lemma near32_nonneg X V : near32 X V -> (0 <= X)%R -> (0 <= V)%R.
Proof. intros H HX. apply (near32_ge X V 0 H format32_0 HX). Qed.

Lemma small_lt_2_127 x : (Rabs x <= 65536)%R -> (Rabs x < IZR (2 ^ 127))%R.
Proof.
  intros H. apply Rle_lt_trans with (1 := H).
  apply (IZR_lt 65536). now apply Z.ltb_lt.
Qed.

(** A channel weighted by [W]: at most the weighted full intensity. *)
Lemma weighted_channel W r :
  fv32 W -> (0 <= SF2R W <= 1)%R -> 0 <= r <= 255 ->
  (SF2R W * 254 <= SF2R (F32.mul W (F32.of_int 255)))%R ->
  fv32 (F32.mul W (F32.of_int r))
  /\ (0 <= SF2R (F32.mul W (F32.of_int r))
      <= SF2R (F32.mul W (F32.of_int 255)))%R.
Proof.
  intros HfW HW Hr H254.
  destruct (of_int32_exact r ltac:(lia)) as [Hfr Hvr].
  assert (HR : (0 <= IZR r <= 255)%R).
  { split; [apply (IZR_le 0)|apply (IZR_le r 255)]; lia. }
  assert (HP : rounds32 (SF2R W * IZR r) (F32.mul W (F32.of_int r))).
  { rewrite <- Hvr. apply mul32_rounds; try assumption.
    apply small_lt_2_127. rewrite Hvr, Rabs_pos_eq by nra. nra. }
  pose proof (rounds32_near _ _ HP) as Hn.
  split; [now apply rounds32_fv in HP|]. split.
  - apply (near32_nonneg _ _ Hn). nra.
  - destruct (Z.eq_dec r 255) as [->|Hne]; [lra|].
    assert (IZR r <= 254)%R by (apply (IZR_le r 254); lia).
    apply (near32_le _ _ _ Hn); [|nra].
    apply format32_SF2R.
    destruct (of_int32_exact 255 ltac:(reflexivity)) as [Hf255 Hv255].
    apply (rounds32_fv (SF2R W * SF2R (F32.of_int 255))).
    apply mul32_rounds; try assumption.
    apply small_lt_2_127. rewrite Hv255, Rabs_pos_eq by nra. nra.
Qed.

Lemma W_RED_val : fv32 W_RED /\ SF2R W_RED = (14267344 / 67108864)%R.
Proof. split; [split; reflexivity|]. apply (SF2R_neg_exp false 14267344 (-26)). lia. Qed.

Lemma W_GREEN_val : fv32 W_GREEN /\ SF2R W_GREEN = (11999065 / 16777216)%R.
Proof. split; [split; reflexivity|]. apply (SF2R_neg_exp false 11999065 (-24)). lia. Qed.

Lemma W_BLUE_val : fv32 W_BLUE /\ SF2R W_BLUE = (9690520 / 134217728)%R.
Proof. split; [split; reflexivity|]. apply (SF2R_neg_exp false 9690520 (-27)). lia. Qed.

Lemma full_red : SF2R (F32.mul W_RED (F32.of_int 255)) = (14211612 / 262144)%R.
Proof. apply (SF2R_neg_exp false 14211612 (-18)). lia. Qed.

Lemma full_green : SF2R (F32.mul W_GREEN (F32.of_int 255)) = (11952194 / 65536)%R.
Proof. apply (SF2R_neg_exp false 11952194 (-16)). lia. Qed.

Lemma full_blue : SF2R (F32.mul W_BLUE (F32.of_int 255)) = (9652666 / 524288)%R.
Proof. apply (SF2R_neg_exp false 9652666 (-19)). lia. Qed.

Lemma F255_val : fv32 F255 /\ SF2R F255 = 255%R.
Proof. apply (of_int32_exact 255). reflexivity. Qed.

(** The absolute error of a rounding in binary32. *)
Lemma near32_abs X V k :
  near32 X V -> -125 <= k -> (Rabs X < bpow k)%R ->
  (Rabs (V - X) <= bpow (k - 24) / 2)%R.
Proof. intros H Hk. now apply (near_abs F32.prec F32.emax). Qed.

Lemma near32_abs_num X V k :
  0 <= k -> near32 X V -> (Rabs X < IZR (2 ^ k))%R ->
  (Rabs (V - X) <= IZR (2 ^ k) / 33554432)%R.
Proof.
  intros Hk H HX. rewrite <- bpow_IZR in * by assumption.
  pose proof (near32_abs X V k H ltac:(lia) HX) as Ha.
  replace (k - 24) with (k + - 24) in Ha by lia.
  rewrite bpow_plus, (bpow_neg_inv (-24)) in Ha by lia.
  change (2 ^ (- -24)) with 16777216 in Ha. lra.
Qed.

(** The luminance of a pixel is a float between 0 and 1, within [2^-22] of
    the exact weighted sum. *)
Lemma pixel_lum_spec r g b :
  0 <= r <= 255 -> 0 <= g <= 255 -> 0 <= b <= 255 ->
  fv32 (pixel_lum r g b) /\ (0 <= SF2R (pixel_lum r g b) <= 1)%R
  /\ (Rabs (SF2R (pixel_lum r g b) - exact_lum r g b) <= / 4194304)%R.
Proof.
  intros Hr Hg Hb. unfold pixel_lum.
  destruct W_RED_val as [HfR HvR]. destruct W_GREEN_val as [HfG HvG].
  destruct W_BLUE_val as [HfB HvB]. destruct F255_val as [HfF HvF].
  destruct (weighted_channel W_RED r HfR ltac:(rewrite HvR; lra) Hr
              ltac:(rewrite full_red, HvR; lra)) as [Hf1 [H1l H1u]].
  destruct (weighted_channel W_GREEN g HfG ltac:(rewrite HvG; lra) Hg
              ltac:(rewrite full_green, HvG; lra)) as [Hf2 [H2l H2u]].
  destruct (weighted_channel W_BLUE b HfB ltac:(rewrite HvB; lra) Hb
              ltac:(rewrite full_blue, HvB; lra)) as [Hf3 [H3l H3u]].
  rewrite full_red in H1u. rewrite full_green in H2u. rewrite full_blue in H3u.
  assert (HRr : (0 <= IZR r <= 255)%R)
    by (split; [apply (IZR_le 0)|apply (IZR_le r 255)]; lia).
  assert (HRg : (0 <= IZR g <= 255)%R)
    by (split; [apply (IZR_le 0)|apply (IZR_le g 255)]; lia).
  assert (HRb : (0 <= IZR b <= 255)%R)
    by (split; [apply (IZR_le 0)|apply (IZR_le b 255)]; lia).
  (* the three products *)
  assert (He1 : (Rabs (SF2R (F32.mul W_RED (F32.of_int r))
                       - 14267344 / 67108864 * IZR r) <= 64 / 33554432)%R).
  { destruct (of_int32_exact r ltac:(lia)) as [Hfr Hvr].
    assert (HP : rounds32 (SF2R W_RED * SF2R (F32.of_int r))
                          (F32.mul W_RED (F32.of_int r))).
    { apply mul32_rounds; try assumption.
      apply small_lt_2_127. rewrite Hvr, HvR, Rabs_pos_eq by nra. nra. }
    apply rounds32_near in HP. rewrite Hvr, HvR in HP.
    apply (near32_abs_num _ _ 6 ltac:(lia) HP).
    change (2 ^ 6) with 64. rewrite Rabs_pos_eq by nra. nra. }
  assert (He2 : (Rabs (SF2R (F32.mul W_GREEN (F32.of_int g))
                       - 11999065 / 16777216 * IZR g) <= 256 / 33554432)%R).
  { destruct (of_int32_exact g ltac:(lia)) as [Hfr Hvr].
    assert (HP : rounds32 (SF2R W_GREEN * SF2R (F32.of_int g))
                          (F32.mul W_GREEN (F32.of_int g))).
    { apply mul32_rounds; try assumption.
      apply small_lt_2_127. rewrite Hvr, HvG, Rabs_pos_eq by nra. nra. }
    apply rounds32_near in HP. rewrite Hvr, HvG in HP.
    apply (near32_abs_num _ _ 8 ltac:(lia) HP).
    change (2 ^ 8) with 256. rewrite Rabs_pos_eq by nra. nra. }
  assert (He3 : (Rabs (SF2R (F32.mul W_BLUE (F32.of_int b))
                       - 9690520 / 134217728 * IZR b) <= 32 / 33554432)%R).
  { destruct (of_int32_exact b ltac:(lia)) as [Hfr Hvr].
    assert (HP : rounds32 (SF2R W_BLUE * SF2R (F32.of_int b))
                          (F32.mul W_BLUE (F32.of_int b))).
    { apply mul32_rounds; try assumption.
      apply small_lt_2_127. rewrite Hvr, HvB, Rabs_pos_eq by nra. nra. }
    apply rounds32_near in HP. rewrite Hvr, HvB in HP.
    apply (near32_abs_num _ _ 5 ltac:(lia) HP).
    change (2 ^ 5) with 32. rewrite Rabs_pos_eq by nra. nra. }
  set (t1 := F32.mul W_RED (F32.of_int r)) in *.
  set (t2 := F32.mul W_GREEN (F32.of_int g)) in *.
  set (t3 := F32.mul W_BLUE (F32.of_int b)) in *.
  (* red and green *)
  assert (HU : rounds32 (SF2R t1 + SF2R t2) (F32.add t1 t2)).
  { apply add32_rounds; try assumption.
    apply small_lt_2_127. rewrite Rabs_pos_eq by lra. lra. }
  pose proof (rounds32_fv _ _ HU) as HfU.
  pose proof (rounds32_near _ _ HU) as HnU.
  set (u := F32.add t1 t2) in *.
  assert (HU0 : (0 <= SF2R u)%R) by (apply (near32_nonneg _ _ HnU); lra).
  assert (HU1 : (SF2R u <= 15505097 / 65536)%R).
  { apply (near32_le _ _ _ HnU); [|lra].
    replace (15505097 / 65536)%R
      with (SF2R (S754_finite false 15505097 (-16))).
    - apply format32_SF2R. split; reflexivity.
    - apply (SF2R_neg_exp false 15505097 (-16)). lia. }
  assert (HeU : (Rabs (SF2R u - (SF2R t1 + SF2R t2)) <= 256 / 33554432)%R).
  { apply (near32_abs_num _ _ 8 ltac:(lia) HnU).
    change (2 ^ 8) with 256. rewrite Rabs_pos_eq by lra. lra. }
  (* and blue *)
  assert (HT : rounds32 (SF2R u + SF2R t3) (F32.add u t3)).
  { apply add32_rounds; try assumption.
    apply small_lt_2_127. rewrite Rabs_pos_eq by lra. lra. }
  pose proof (rounds32_fv _ _ HT) as HfT.
  pose proof (rounds32_near _ _ HT) as HnT.
  set (T := F32.add u t3) in *.
  assert (HT0 : (0 <= SF2R T)%R) by (apply (near32_nonneg _ _ HnT); lra).
  assert (HT1 : (SF2R T <= 255)%R).
  { destruct (Rle_lt_dec (SF2R u + SF2R t3) 255) as [Hle|Hgt].
    - apply (near32_le _ _ _ HnT); [|assumption].
      apply (format32_int 255). reflexivity.
    - (* the sum exceeds 255 by less than half a unit in the last place *)
      assert (H := near_le_slack F32.prec F32.emax
                     (SF2R u + SF2R t3)%R (SF2R T) 16711680 8 HnT).
      change (8 - F32.prec) with (-16) in H. change (8 - 1) with 7 in H.
      rewrite (bpow_neg_inv (-16)), (bpow_IZR 7), (bpow_IZR 8) in H by lia.
      change (2 ^ (- -16)) with 65536 in H.
      change (2 ^ 7) with 128 in H. change (2 ^ 8) with 256 in H.
      replace (16711680 * / 65536)%R with 255%R in H by lra.
      apply H.
      + unfold SpecFloat.emin, F32.prec, F32.emax. lia.
      + rewrite Rabs_pos_eq by lra. lra.
      + lra. }
  assert (HeT : (Rabs (SF2R T - (SF2R u + SF2R t3)) <= 256 / 33554432)%R).
  { apply (near32_abs_num _ _ 8 ltac:(lia) HnT).
    change (2 ^ 8) with 256. rewrite Rabs_pos_eq by lra. lra. }
  (* the normalisation *)
  assert (HL : rounds32 (SF2R T / SF2R F255) (F32.div T F255)).
  { apply div32_rounds; try assumption.
    - rewrite HvF. lra.
    - apply small_lt_2_127. rewrite HvF, Rabs_pos_eq; lra. }
  pose proof (rounds32_near _ _ HL) as HnL. rewrite HvF in HnL.
  assert (HeL : (Rabs (SF2R (F32.div T F255) - SF2R T / 255)
                 <= 2 / 33554432)%R).
  { apply (near32_abs_num _ _ 1 ltac:(lia) HnL).
    change (2 ^ 1) with 2. rewrite Rabs_pos_eq by lra. lra. }
  split; [now apply rounds32_fv in HL|]. split; [split|].
  - apply (near32_nonneg _ _ HnL). lra.
  - apply (near32_le _ _ _ HnL); [|lra].
    apply (format32_int 1). reflexivity.
  - apply Rabs_le_inv in He1, He2, He3, HeU, HeT, HeL.
    unfold exact_lum. apply Rabs_le. lra.
Qed.

Lemma pixel_lum_range r g b :
  0 <= r <= 255 -> 0 <= g <= 255 -> 0 <= b <= 255 ->
  fv32 (pixel_lum r g b) /\ (0 <= SF2R (pixel_lum r g b) <= 1)%R.
Proof.
  intros Hr Hg Hb. destruct (pixel_lum_spec r g b Hr Hg Hb) as (H1 & H2 & _).
  split; assumption.
Qed.

(** ** Binary64: the accumulation *)

Lemma prec64_pos : 0 < F64.prec.
Proof. reflexivity. Qed.

Lemma emax64_gt : F64.prec < F64.emax.
Proof. reflexivity. Qed.

Ltac f64 := first [exact prec64_pos | exact emax64_gt].


Lemma bpow1023 : (4294967296 < bpow (F64.emax - 1))%R.
Proof.
  change (F64.emax - 1) with 1023. rewrite bpow_IZR by lia.
  apply (IZR_lt 4294967296). now apply Z.ltb_lt.
Qed.

Lemma format64_int n : Z.abs n < 2 ^ 53 -> format64 (IZR n).
Proof. intros H. apply (format_int F64.prec F64.emax); try f64; assumption. Qed.

Lemma near64_le X V z : near64 X V -> format64 z -> (X <= z)%R -> (V <= z)%R.
Proof. apply (near_le F64.prec F64.emax); f64. Qed.

Lemma near64_ge X V z : near64 X V -> format64 z -> (z <= X)%R -> (z <= V)%R.
Proof. apply (near_ge F64.prec F64.emax); f64. Qed.

Lemma near64_nonneg X V : near64 X V -> (0 <= X)%R -> (0 <= V)%R.
Proof.
  intros H HX. apply (near64_ge X V 0 H); [|assumption].
  apply (format64_int 0). reflexivity.
Qed.



Lemma byte_at_range data idx : 0 <= byte_at data idx <= 255.
Proof.
  unfold byte_at. pose proof (Byte.to_N_bounded (nth (Z.to_nat idx) data "000"%byte)).
  lia.
Qed.

Lemma pixel_luminance_range data w channels sx sy :
  fv32 (pixel_luminance data w channels sx sy)
  /\ (0 <= SF2R (pixel_luminance data w channels sx sy) <= 1)%R.
Proof.
  unfold pixel_luminance.
  destruct (channels =? 1); apply pixel_lum_range; apply byte_at_range.
Qed.


Lemma acc_ok_init : acc_ok (F64.zero, 0).
Proof. split; [split; reflexivity|]. cbn. split; [lia|lra]. Qed.

Lemma add_pixel_ok data w channels sy a sx :
  acc_ok a -> snd a + 1 < 2 ^ 31 ->
  acc_ok (add_pixel data w channels sy a sx).
Proof.
  intros (Hf & Hc & Hs) Hbound. unfold add_pixel, acc_ok.
  destruct a as [s c]. cbn [fst snd] in *.
  change (2 ^ 31) with 2147483648 in Hbound.
  destruct (pixel_luminance_range data w channels sx sy) as [Hfl Hl].
  set (lum := pixel_luminance data w channels sx sy) in *.
  pose proof bpow1023 as Hbig.
  assert (HC : (0 <= IZR c <= 2147483648)%R).
  { split; [apply (IZR_le 0); lia|apply (IZR_le _ 2147483648); lia]. }
  (* the promotion *)
  assert (HD : rounds64 (SF2R lum) (F64.of_f32 lum)).
  { apply (SFldexp0_real F64.prec F64.emax); try f64; [apply Hfl|].
    rewrite Rabs_pos_eq by lra. lra. }
  pose proof (rounds_fv _ _ _ _ HD) as HfD.
  pose proof (rounds_near _ _ _ _ HD) as HnD.
  assert (HD0 : (0 <= SF2R (F64.of_f32 lum))%R)
    by (apply (near64_nonneg _ _ HnD); lra).
  assert (HD1 : (SF2R (F64.of_f32 lum) <= 1)%R).
  { apply (near64_le _ _ _ HnD); [|lra]. apply (format64_int 1). reflexivity. }
  (* the addition *)
  assert (HA : rounds64 (SF2R s + SF2R (F64.of_f32 lum))
                        (F64.add s (F64.of_f32 lum))).
  { apply (SFadd_real F64.prec F64.emax); try f64; try assumption.
    rewrite Rabs_pos_eq by lra. lra. }
  pose proof (rounds_near _ _ _ _ HA) as HnA.
  split; [now apply rounds_fv in HA|]. split; [lia|]. split.
  - apply (near64_nonneg _ _ HnA). lra.
  - apply (near64_le _ _ _ HnA).
    + apply format64_int. change (2 ^ 53) with 9007199254740992. lia.
    + rewrite plus_IZR. lra.
Qed.

Lemma add_pixel_count data w channels sy a sx :
  snd (add_pixel data w channels sy a sx) = snd a + 1.
Proof. reflexivity. Qed.

Lemma fold_add_pixel_ok data w channels sy (cols : list Z) a :
  acc_ok a -> snd a + Z.of_nat (length cols) < 2 ^ 31 ->
  acc_ok (fold_left (add_pixel data w channels sy) cols a)
  /\ snd (fold_left (add_pixel data w channels sy) cols a)
     = snd a + Z.of_nat (length cols).
Proof.
  revert a. induction cols as [|sx cols IH]; intros a Ha Hb; cbn [fold_left length].
  - split; [assumption|lia].
  - cbn [length] in Hb. rewrite Nat2Z.inj_succ in Hb.
    destruct (IH (add_pixel data w channels sy a sx)) as [H1 H2].
    + apply add_pixel_ok; [assumption|lia].
    + rewrite add_pixel_count. lia.
    + split; [assumption|]. rewrite H2, add_pixel_count. lia.
Qed.

Lemma fold_rows_ok data w channels (cols rows : list Z) a :
  acc_ok a ->
  snd a + Z.of_nat (length rows) * Z.of_nat (length cols) < 2 ^ 31 ->
  let r := fold_left
             (fun a sy => fold_left (add_pixel data w channels sy) cols a)
             rows a in
  acc_ok r /\ snd r = snd a + Z.of_nat (length rows) * Z.of_nat (length cols).
Proof.
  revert a. induction rows as [|sy rows IH]; intros a Ha Hb; cbn [fold_left length].
  - split; [assumption|lia].
  - cbn [length] in Hb. rewrite Nat2Z.inj_succ in Hb.
    destruct (fold_add_pixel_ok data w channels sy cols a Ha ltac:(nia)) as [H1 H2].
    destruct (IH _ H1) as [H3 H4]; [rewrite H2; nia|].
    split; [assumption|]. rewrite H4, H2. nia.
Qed.


Lemma sum_rect_ok data w channels sx0 sx1 sy0 sy1 :
  rect_pixels sx0 sx1 sy0 sy1 < 2 ^ 31 ->
  acc_ok (sum_rect data w channels sx0 sx1 sy0 sy1)
  /\ snd (sum_rect data w channels sx0 sx1 sy0 sy1)
     = rect_pixels sx0 sx1 sy0 sy1.
Proof.
  intros Hsz. unfold sum_rect, rect_pixels in *.
  pose proof (fold_rows_ok data w channels (Zrange sx0 sx1) (Zrange sy0 sy1)
                (F64.zero, 0) acc_ok_init) as H.
  rewrite !Zrange_length in H. cbn [snd] in H. revert H.
  replace (Z.of_nat (Z.to_nat (sy1 - sy0))) with (Z.max 0 (sy1 - sy0)) by lia.
  replace (Z.of_nat (Z.to_nat (sx1 - sx0))) with (Z.max 0 (sx1 - sx0)) by lia.
  intros H. destruct (H ltac:(lia)) as [H1 H2]. split; [assumption|lia].
Qed.

Lemma fold_add_pixel_count data w channels sy (cols : list Z) a :
  snd (fold_left (add_pixel data w channels sy) cols a)
  = snd a + Z.of_nat (length cols).
Proof.
  revert a. induction cols as [|sx cols IH]; intros a; cbn [fold_left length].
  - lia.
  - rewrite IH, add_pixel_count, Nat2Z.inj_succ. lia.
Qed.

(** [count] ends as the number of pixels of the rectangle. *)
Lemma sum_rect_count data w channels sx0 sx1 sy0 sy1 :
  snd (sum_rect data w channels sx0 sx1 sy0 sy1)
  = rect_pixels sx0 sx1 sy0 sy1.
Proof.
  unfold sum_rect, rect_pixels.
  assert (H : forall rows a,
             snd (fold_left
                    (fun a sy => fold_left (add_pixel data w channels sy)
                                           (Zrange sx0 sx1) a) rows a)
             = snd a + Z.of_nat (length rows) * Z.max 0 (sx1 - sx0)).
  { induction rows as [|sy rows IH]; intros a; cbn [fold_left length].
    - lia.
    - rewrite IH, fold_add_pixel_count, Zrange_length, Nat2Z.inj_succ. lia. }
  rewrite H, Zrange_length. cbn [snd]. lia.
Qed.

Lemma of_int64_exact n :
  Z.abs n < 2 ^ 53 -> fv64 (F64.of_int n) /\ SF2R (F64.of_int n) = IZR n.
Proof.
  intros Hn. unfold F64.of_int.
  assert (H := binary_normalize_real F64.prec F64.emax).
  specialize (H prec64_pos emax64_gt n 0 false).
  rewrite bpow_0, Rmult_1_r in H.
  assert (Hr : rounds64 (IZR n) (binary_normalize F64.prec F64.emax n 0 false)).
  { apply H. change (F64.emax - 1) with 1023. rewrite bpow_IZR by lia.
    rewrite <- abs_IZR. apply IZR_lt.
    apply Z.lt_trans with (1 := Hn). now apply Z.ltb_lt. }
  split; [now apply rounds_fv in Hr|].
  apply (near_exact F64.prec F64.emax); try f64.
  - now apply rounds_near in Hr.
  - now apply format64_int.
Qed.

(** The mean luminance of a rectangle is a float between 0 and 1. *)
Lemma average_luminance_range data w channels sx0 sx1 sy0 sy1 :
  rect_pixels sx0 sx1 sy0 sy1 < 2 ^ 31 ->
  fv32 (average_luminance data w channels sx0 sx1 sy0 sy1)
  /\ (0 <= SF2R (average_luminance data w channels sx0 sx1 sy0 sy1) <= 1)%R.
Proof.
  intros Hsz. unfold average_luminance.
  destruct (sum_rect_ok data w channels sx0 sx1 sy0 sy1 Hsz) as [Hok Hcount].
  destruct (sum_rect data w channels sx0 sx1 sy0 sy1) as [sum_lum count].
  cbn [snd] in Hcount. destruct Hok as (Hf & Hc & Hs). cbn [fst snd] in Hf, Hc, Hs.
  rewrite Z.gtb_ltb. destruct (Z.ltb_spec 0 count) as [Hpos|Hzero].
  - change (2 ^ 31) with 2147483648 in Hsz.
    destruct (of_int64_exact count) as [Hfd Hvd].
    { change (2 ^ 53) with 9007199254740992. lia. }
    assert (HC : (1 <= IZR count)%R) by (apply (IZR_le 1); lia).
    pose proof bpow1023 as Hbig.
    assert (Hinv : (0 < / IZR count <= 1)%R).
    { split; [apply Rinv_0_lt_compat; lra|apply Rinv_le_1; lra]. }
    assert (HX : (0 <= SF2R sum_lum / IZR count <= 1)%R).
    { unfold Rdiv. split; [nra|].
      apply Rmult_le_reg_r with (IZR count); [lra|].
      rewrite Rmult_assoc, Rinv_l by lra. lra. }
    assert (HQ : rounds64 (SF2R sum_lum / IZR count)
                          (F64.div sum_lum (F64.of_int count))).
    { rewrite <- Hvd. apply (SFdiv_real' F64.prec F64.emax); try f64;
        try assumption.
      - rewrite Hvd. lra.
      - rewrite Hvd, Rabs_pos_eq by lra. lra. }
    pose proof (rounds_fv _ _ _ _ HQ) as [HfinQ _].
    pose proof (rounds_near _ _ _ _ HQ) as HnQ.
    set (q := F64.div sum_lum (F64.of_int count)) in *.
    assert (HQ0 : (0 <= SF2R q)%R) by (apply (near64_nonneg _ _ HnQ); lra).
    assert (HQ1 : (SF2R q <= 1)%R).
    { apply (near64_le _ _ _ HnQ); [|lra]. apply (format64_int 1). reflexivity. }
    assert (HA : rounds32 (SF2R q) (F64.to_f32 q)).
    { apply (SFldexp0_real F32.prec F32.emax); try f32; [assumption|].
      rewrite bpow127. apply small_lt_2_127. rewrite Rabs_pos_eq by lra. lra. }
    pose proof (rounds32_near _ _ HA) as HnA.
    split; [now apply rounds32_fv in HA|]. split.
    + apply (near32_nonneg _ _ HnA). lra.
    + apply (near32_le _ _ _ HnA); [|lra]. apply (format32_int 1). reflexivity.
  - split; [split; reflexivity|]. cbn [F32.zero SF2R]. lra.
Qed.

(** ** The distance to the exact mean *)

Lemma pixel_luminance_error data w channels sx sy :
  (Rabs (SF2R (pixel_luminance data w channels sx sy)
         - exact_pixel data w channels sx sy) <= / 4194304)%R.
Proof.
  unfold pixel_luminance, exact_pixel, pixel_index. cbv zeta.
  destruct (Z.eqb_spec channels 1) as [->|_].
  - rewrite Z.mul_1_r. apply pixel_lum_spec; apply byte_at_range.
  - rewrite Z.add_0_r. apply pixel_lum_spec; apply byte_at_range.
Qed.


Section Rendering.

Variable cvt_invalid : spec_float -> Z.
Variable atoi_invalid : string -> Z.
Variable stbi_load : string -> option image.



Lemma render_row_emit img ramp out_w out_h out oy :
  render_row cvt_invalid img ramp out_w out_h out oy
  = out ++ row_glyphs cvt_invalid img ramp out_w out_h oy ++ [newline].
Proof.
  unfold render_row, row_glyphs.
  rewrite (fold_left_emit (fun ox => [cell_char cvt_invalid img ramp out_w out_h ox oy])).
  rewrite <- app_assoc. f_equal. f_equal.
  induction (Zrange 0 out_w) as [|x l IH]; simpl; [reflexivity|now rewrite IH].
Qed.

Lemma render_rows_emit img ramp out_w out_h (rows : list Z) out :
  fold_left (render_row cvt_invalid img ramp out_w out_h) rows out
  = out ++ concat (map (fun oy => row_glyphs cvt_invalid img ramp out_w out_h oy ++ [newline])
                       rows).
Proof.
  revert out. induction rows as [|oy l IH]; intros out; simpl.
  - now rewrite app_nil_r.
  - rewrite IH, render_row_emit, <- !app_assoc. reflexivity.
Qed.

Lemma render_grid img ramp out_w out_h :
  render cvt_invalid img ramp out_w out_h
  = concat (map (fun row => row ++ [newline]) (grid cvt_invalid img ramp out_w out_h)).
Proof.
  unfold render, grid. rewrite map_map. apply render_rows_emit.
Qed.

Lemma grid_length img ramp out_w out_h :
  length (grid cvt_invalid img ramp out_w out_h) = Z.to_nat out_h.
Proof. unfold grid. rewrite length_map, Zrange_length. f_equal. lia. Qed.

Lemma row_glyphs_length img ramp out_w out_h oy :
  length (row_glyphs cvt_invalid img ramp out_w out_h oy) = Z.to_nat out_w.
Proof. unfold row_glyphs. rewrite length_map, Zrange_length. f_equal. lia. Qed.

Lemma grid_rows img ramp out_w out_h row :
  In row (grid cvt_invalid img ramp out_w out_h) -> length row = Z.to_nat out_w.
Proof.
  unfold grid. rewrite in_map_iff. intros (oy & <- & _).
  apply row_glyphs_length.
Qed.

Lemma grid_cell img ramp out_w out_h ox oy :
  0 <= ox < out_w -> 0 <= oy < out_h ->
  nth (Z.to_nat ox) (nth (Z.to_nat oy) (grid cvt_invalid img ramp out_w out_h) []) Ascii.zero
  = cell_char cvt_invalid img ramp out_w out_h ox oy.
Proof.
  intros Hx Hy. unfold grid.
  rewrite (nth_indep _ [] (row_glyphs cvt_invalid img ramp out_w out_h 0))
    by (rewrite length_map, Zrange_length; lia).
  rewrite (map_nth (row_glyphs cvt_invalid img ramp out_w out_h)), Zrange_nth by lia.
  unfold row_glyphs.
  rewrite (nth_indep _ Ascii.zero
             (cell_char cvt_invalid img ramp out_w out_h 0 (0 + Z.of_nat (Z.to_nat oy))))
    by (rewrite length_map, Zrange_length; lia).
  rewrite (map_nth (fun ox => cell_char cvt_invalid img ramp out_w out_h ox _)).
  rewrite Zrange_nth by lia.
  f_equal; lia.
Qed.

Lemma out_height_min w h out_w : 1 <= out_height cvt_invalid w h out_w.
Proof.
  unfold out_height.
  destruct (Z.ltb_spec (to_int cvt_invalid (height_f w h out_w)
                               (roundf (height_f w h out_w))) 1); lia.
Qed.

Lemma out_height_in_range w h out_w z :
  roundf (height_f w h out_w) = Some z -> in_int z = true ->
  out_height cvt_invalid w h out_w = Z.max 1 z.
Proof.
  intros Hr Hz. unfold out_height, to_int. rewrite Hr, Hz.
  destruct (Z.ltb_spec z 1); lia.
Qed.

Lemma target_width_pos argv : 0 < target_width atoi_invalid argv.
Proof.
  unfold target_width.
  destruct (3 <=? length argv)%nat; [|lia].
  destruct (Z.leb_spec (atoi atoi_invalid (arg argv 2)) 0); lia.
Qed.

End Rendering.

(** ** Glyphs, arguments and indices *)

Lemma builtin_ramp_length ramp :
  ramp = RAMP_DEFAULT \/ ramp = RAMP_INVERT -> String.length ramp = 10%nat.
Proof. intros [->| ->]; reflexivity. Qed.

(** No glyph of the two ramps is a newline, nor is the NUL past their end. *)
Lemma builtin_ramp_no_newline ramp idx :
  ramp = RAMP_DEFAULT \/ ramp = RAMP_INVERT -> char_at ramp idx <> newline.
Proof.
  intros [->| ->]; unfold char_at; generalize (Z.to_nat idx) as n; intros n;
    do 11 (destruct n as [|n]; [cbn; discriminate|]); cbn; discriminate.
Qed.

Lemma digits_value_no_digit s v :
  match s with
  | String c _ => digit_of c = None
  | EmptyString => True
  end -> digits_value s v = v.
Proof. destruct s as [|c s]; cbn [digits_value]; [reflexivity|]. now intros ->. Qed.

(** [atoi] reads zero where it finds no number. *)
Lemma unparsable_zero s : unparsable s = true -> parse_int s = 0.
Proof.
  unfold unparsable, parse_int.
  destruct (skip_spaces s) as [|c t]; [reflexivity|].
  destruct (Ascii.eqb_spec c "-") as [->|Hm].
  - destruct t as [|d t]; [reflexivity|]. cbn [digits_value].
    destruct (digit_of d); [discriminate|reflexivity].
  - destruct (Ascii.eqb_spec c "+") as [->|Hp].
    + destruct t as [|d t]; [reflexivity|]. cbn [digits_value].
      destruct (digit_of d); [discriminate|reflexivity].
    + intros H.
      assert (Hc : digit_of c = None).
      { destruct c as [[] [] [] [] [] [] [] []]; try reflexivity; try discriminate H;
          try (exfalso; apply Hm; reflexivity); try (exfalso; apply Hp; reflexivity). }
      assert (Hd : digits_value (String c t) 0 = 0)
        by (cbn [digits_value]; now rewrite Hc).
      destruct c as [[] [] [] [] [] [] [] []]; try exact Hd;
        try (exfalso; apply Hm; reflexivity); try (exfalso; apply Hp; reflexivity).
Qed.

Lemma in_int_0 : in_int 0 = true.
Proof. reflexivity. Qed.

(** The nested loops add the luminances of the pixels in row-major order. *)
Lemma fold_add_pixel_flat data w channels sy (cols : list Z) a :
  fold_left (add_pixel data w channels sy) cols a
  = (fold_left (fun s l => F64.add s (F64.of_f32 l))
               (map (fun sx => pixel_luminance data w channels sx sy) cols)
               (fst a),
     snd a + Z.of_nat (length cols)).
Proof.
  revert a. induction cols as [|sx cols IH]; intros [s c]; cbn [fold_left map length fst snd].
  - f_equal. lia.
  - rewrite IH. unfold add_pixel. cbn [fst snd]. f_equal. lia.
Qed.

Lemma sum_rect_flat data w channels sx0 sx1 sy0 sy1 :
  let lums := map (fun p => pixel_luminance data w channels (fst p) (snd p))
                  (rect_coords sx0 sx1 sy0 sy1) in
  sum_rect data w channels sx0 sx1 sy0 sy1
  = (fold_left (fun s l => F64.add s (F64.of_f32 l)) lums F64.zero,
     Z.of_nat (length lums)).
Proof.
  cbv zeta. unfold sum_rect, rect_coords.
  assert (H : forall rows a,
    fold_left (fun a sy => fold_left (add_pixel data w channels sy)
                                     (Zrange sx0 sx1) a) rows a
    = (fold_left (fun s l => F64.add s (F64.of_f32 l))
         (map (fun p => pixel_luminance data w channels (fst p) (snd p))
              (flat_map (fun sy => map (fun sx => (sx, sy)) (Zrange sx0 sx1)) rows))
         (fst a),
       snd a + Z.of_nat
                 (length (map (fun p => pixel_luminance data w channels (fst p) (snd p))
                              (flat_map (fun sy => map (fun sx => (sx, sy))
                                                       (Zrange sx0 sx1)) rows))))).
  { induction rows as [|sy rows IH]; intros [s c]; cbn [fold_left flat_map map length fst snd].
    - f_equal. lia.
    - rewrite fold_add_pixel_flat, IH. cbn [fst snd].
      rewrite !map_app, fold_left_app, !length_app, !length_map, map_map.
      cbn [fst snd]. f_equal. lia. }
  rewrite H. reflexivity.
Qed.

(** Inside a sampling rectangle, every byte the loop body reads lies in the
    buffer. *)
Lemma pixel_reads_in_bounds w h ch sx sy idx :
  0 < w -> 0 < h -> ch = 1 \/ ch = 3 \/ ch = 4 ->
  0 <= sx < w -> 0 <= sy < h ->
  In idx (pixel_reads w ch sx sy) -> 0 <= idx < w * h * ch.
Proof.
  intros Hw Hh Hch Hx Hy Hin. unfold pixel_reads, pixel_index in Hin.
  assert (Hp : 0 <= sy * w + sx <= w * h - 1) by nia.
  destruct Hch as [->|[->| ->]]; cbn in Hin;
    repeat (destruct Hin as [<-|Hin]; [nia|]); contradiction.
Qed.

(** Where an [int] can index the whole buffer, the index of every pixel is
    computed without leaving [int], and so are the subscripts. *)
Lemma int_pixel_index_exact w h ch sx sy :
  0 < w -> 0 < h -> 0 < ch -> w * h * ch <= INT_MAX ->
  0 <= sx < w -> 0 <= sy < h ->
  int_pixel_index w ch sx sy = Some (pixel_index w ch sx sy).
Proof.
  intros Hw Hh Hch Hmax Hx Hy. unfold INT_MAX in Hmax.
  assert (Hin : forall z, 0 <= z < w * h * ch -> in_int z = true).
  { intros z Hz. unfold in_int, INT_MIN, INT_MAX.
    apply andb_true_intro. split; apply Z.leb_le; lia. }
  assert (Hwh : w * h <= w * h * ch) by nia.
  assert (Hp : 0 <= sy * w + sx <= w * h - 1) by nia.
  assert (Hrow : 0 <= sy * w <= sy * w + sx) by nia.
  set (c := if ch =? 1 then 1 else ch).
  assert (Hc : c = ch) by (unfold c; destruct (Z.eqb_spec ch 1); lia).
  unfold int_pixel_index, pixel_index, int_mul, int_add. fold c.
  rewrite (Hin (sy * w)) by lia.
  rewrite (Hin (sy * w + sx)) by lia.
  rewrite (Hin ((sy * w + sx) * c)) by (rewrite Hc; nia).
  reflexivity.
Qed.

Lemma int_pixel_reads_exact w h ch sx sy :
  0 < w -> 0 < h -> ch = 1 \/ 3 <= ch -> w * h * ch <= INT_MAX ->
  0 <= sx < w -> 0 <= sy < h ->
  int_pixel_reads w ch sx sy = Some (pixel_reads w ch sx sy).
Proof.
  intros Hw Hh Hch Hmax Hx Hy. unfold int_pixel_reads, pixel_reads. cbv zeta.
  rewrite (int_pixel_index_exact w h ch sx sy) by (try assumption; lia).
  destruct (Z.eqb_spec ch 1) as [_|Hne]; [reflexivity|].
  assert (Hp : 0 <= sy * w + sx <= w * h - 1) by nia.
  assert (Hi : 0 <= pixel_index w ch sx sy
               /\ pixel_index w ch sx sy + 2 < w * h * ch).
  { unfold pixel_index. destruct (Z.eqb_spec ch 1); [contradiction|]. nia. }
  unfold INT_MAX in Hmax.
  assert (Hin : forall z, 0 <= z < w * h * ch -> in_int z = true).
  { intros z Hz. unfold in_int, INT_MIN, INT_MAX.
    apply andb_true_intro. split; apply Z.leb_le; lia. }
  unfold int_add. rewrite !Hin by lia. reflexivity.
Qed.

Lemma floorf_finite x z : floorf x = Some z -> is_finite x = true.
Proof. destruct x; try discriminate; reflexivity. Qed.

Lemma ceilf_finite x z : ceilf x = Some z -> is_finite x = true.
Proof. destruct x; try discriminate; reflexivity. Qed.

Section GlyphBoundaries.

Variable cvt_invalid : spec_float -> Z.

(** A luminance of exactly one selects the last glyph, one of exactly zero
    the first. *)
Lemma glyph_one ramp :
  String.length ramp = 10%nat ->
  luminance_to_char cvt_invalid (F32.of_int 1) ramp = char_at ramp 9.
Proof.
  intros Hlen. destruct (of_int32_exact 1 ltac:(reflexivity)) as [Hf Hv].
  apply glyph_above; [assumption..|]. rewrite Hv. lra.
Qed.

Lemma glyph_zero ramp :
  String.length ramp = 10%nat ->
  luminance_to_char cvt_invalid F32.zero ramp = char_at ramp 0.
Proof.
  intros Hlen. apply glyph_below; [assumption|apply fv32_zero|].
  cbn [F32.zero SF2R]. lra.
Qed.

(** Above one, as the floor of the luminance tells. *)
Lemma glyph_above_floor lum ramp z :
  String.length ramp = 10%nat ->
  valid_binary F32.prec F32.emax lum = true ->
  floorf lum = Some z -> 1 <= z < 2 ^ 27 ->
  luminance_to_char cvt_invalid lum ramp
  = luminance_to_char cvt_invalid (F32.of_int 1) ramp.
Proof.
  intros Hlen Hv Hz Hr. rewrite glyph_one by assumption.
  pose proof (floorf_spec lum z Hz) as Hfl.
  apply glyph_above; [assumption| |].
  - split; [now apply floorf_finite in Hz|assumption].
  - assert (1 <= IZR z)%R by (apply (IZR_le 1); lia).
    assert (IZR z + 1 <= 134217728)%R.
    { rewrite <- (plus_IZR z 1). apply (IZR_le (z + 1) 134217728).
      change (2 ^ 27) with 134217728 in Hr. lia. }
    lra.
Qed.

(** At most zero, as the ceiling of the luminance tells. *)
Lemma glyph_below_ceil lum ramp z :
  String.length ramp = 10%nat ->
  valid_binary F32.prec F32.emax lum = true ->
  ceilf lum = Some z -> - 2 ^ 27 < z <= 0 ->
  luminance_to_char cvt_invalid lum ramp
  = luminance_to_char cvt_invalid F32.zero ramp.
Proof.
  intros Hlen Hv Hz Hr. rewrite glyph_zero by assumption.
  pose proof (ceilf_spec lum z Hz) as Hce.
  apply glyph_below; [assumption| |].
  - split; [now apply ceilf_finite in Hz|assumption].
  - assert (IZR z <= 0)%R by (apply (IZR_le z 0); lia).
    assert (- 134217728 <= IZR z - 1)%R.
    { rewrite <- (minus_IZR z 1). apply (IZR_le (-134217728) (z - 1)).
      change (2 ^ 27) with 134217728 in Hr. lia. }
    lra.
Qed.

End GlyphBoundaries.

(** The mean of a rectangle with pixels in it is the quotient of the sum by
    the count: the branch for [count = 0] is not taken. *)
Lemma average_luminance_nonempty data w channels sx0 sx1 sy0 sy1 :
  sx0 < sx1 -> sy0 < sy1 ->
  0 < snd (sum_rect data w channels sx0 sx1 sy0 sy1)
  /\ average_luminance data w channels sx0 sx1 sy0 sy1
     = F64.to_f32
         (F64.div (fst (sum_rect data w channels sx0 sx1 sy0 sy1))
                  (F64.of_int (snd (sum_rect data w channels sx0 sx1 sy0 sy1)))).
Proof.
  intros Hx Hy.
  pose proof (sum_rect_count data w channels sx0 sx1 sy0 sy1) as Hc.
  unfold rect_pixels in Hc. unfold average_luminance.
  destruct (sum_rect data w channels sx0 sx1 sy0 sy1) as [s c].
  cbn [fst snd] in *.
  assert (0 < c) as Hpos by nia.
  split; [assumption|].
  rewrite Z.gtb_ltb. destruct (Z.ltb_spec 0 c); [reflexivity|lia].
Qed.

Lemma average_luminance_empty data w channels sx0 sx1 sy0 sy1 :
  sx1 <= sx0 \/ sy1 <= sy0 ->
  average_luminance data w channels sx0 sx1 sy0 sy1 = F32.zero.
Proof.
  intros He.
  pose proof (sum_rect_count data w channels sx0 sx1 sy0 sy1) as Hc.
  unfold rect_pixels in Hc. unfold average_luminance.
  destruct (sum_rect data w channels sx0 sx1 sy0 sy1) as [s c].
  cbn [snd] in Hc.
  assert (c = 0) as -> by (destruct He; nia).
  reflexivity.
Qed.

(** [roundf]: the nearest integer, a tie going away from zero. *)
Lemma roundf_spec x z :
  roundf x = Some z ->
  (IZR (Z.abs z) - / 2 <= Rabs (SF2R x) < IZR (Z.abs z) + / 2)%R
  /\ ((0 <= SF2R x)%R -> 0 <= z) /\ ((SF2R x <= 0)%R -> z <= 0).
Proof.
  destruct x as [s|s| |s m e]; cbn [roundf]; intros H; try discriminate H.
  - assert (z = 0) as -> by congruence. cbn [SF2R]. rewrite Rabs_R0. cbn [Z.abs]. split; [lra|]. split; intros _; lia.
  - assert (Hz : z = if 0 <=? e then signed s m * 2 ^ e
                   else cond_Zopp s ((2 * Zpos m + 2 ^ (- e)) / (2 * 2 ^ (- e))))
      by congruence.
    clear H. subst z. rewrite SF2R_signed.
    assert (Hm : (0 < IZR (Zpos m))%R) by (apply IZR_lt; lia).
    assert (Hb : (0 < bpow e)%R) by apply bpow_gt_0.
    assert (Habs : Rabs (IZR (signed s m) * bpow e) = (IZR (Zpos m) * bpow e)%R).
    { rewrite Rabs_mult, (Rabs_pos_eq (bpow e)) by lra. f_equal.
      destruct s; cbn [signed cond_Zopp].
      - rewrite opp_IZR, Rabs_Ropp. apply Rabs_pos_eq. lra.
      - apply Rabs_pos_eq. lra. }
    assert (Hsgn : (0 <= IZR (signed s m) * bpow e)%R -> s = false).
    { destruct s; [|reflexivity]. cbn [signed cond_Zopp]. rewrite opp_IZR. nra. }
    assert (Hsgn' : (IZR (signed s m) * bpow e <= 0)%R -> s = true).
    { destruct s; [reflexivity|]. cbn [signed cond_Zopp]. nra. }
    rewrite Habs.
    destruct (Z.leb_spec 0 e) as [He|He].
    + assert (Hp : 0 < 2 ^ e) by (apply Z.pow_pos_nonneg; lia).
      rewrite Z.abs_mul, (Z.abs_eq (2 ^ e)) by lia.
      replace (Z.abs (signed s m)) with (Zpos m) by (destruct s; reflexivity).
      rewrite mult_IZR, <- bpow_IZR by lia.
      split; [lra|]. split.
      * intros H0. rewrite (Hsgn H0). cbn [signed cond_Zopp]. lia.
      * intros H0. rewrite (Hsgn' H0). cbn [signed cond_Zopp]. lia.
    + assert (HP : 0 < 2 ^ (- e)) by (apply Z.pow_pos_nonneg; lia).
      set (D := 2 ^ (- e)) in *.
      assert (Hk : 0 <= (2 * Zpos m + D) / (2 * D)) by (apply Z.div_pos; lia).
      replace (Z.abs (cond_Zopp s ((2 * Zpos m + D) / (2 * D))))
        with ((2 * Zpos m + D) / (2 * D)) by (destruct s; cbn [cond_Zopp]; lia).
      rewrite (bpow_neg_inv e) in Hsgn, Hsgn' |- * by lia. fold D in Hsgn, Hsgn' |- *.
      pose proof (IZR_div_bounds (2 * Zpos m + D) (2 * D) ltac:(lia)) as Hq.
      assert (HD : (0 < IZR D)%R) by (apply IZR_lt; lia).
      rewrite plus_IZR, !mult_IZR in Hq.
      replace ((2 * IZR (Zpos m) + IZR D) / (2 * IZR D))%R
        with (IZR (Zpos m) * / IZR D + / 2)%R in Hq by (field; lra).
      split; [lra|]. split.
      * intros H0. rewrite (Hsgn H0). cbn [cond_Zopp]. exact Hk.
      * intros H0. rewrite (Hsgn' H0). cbn [cond_Zopp]. lia.
Qed.

(** A row of the grid holds glyphs of the ramp only. *)
Lemma grid_no_newline cvt_invalid img ramp out_w out_h row :
  ramp = RAMP_DEFAULT \/ ramp = RAMP_INVERT ->
  In row (grid cvt_invalid img ramp out_w out_h) -> ~ In newline row.
Proof.
  intros Hr Hrow Hin. unfold grid in Hrow.
  apply in_map_iff in Hrow. destruct Hrow as (oy & <- & _).
  unfold row_glyphs in Hin. apply in_map_iff in Hin.
  destruct Hin as (ox & Hc & _). revert Hc.
  unfold cell_char, luminance_to_char. cbv zeta.
  now apply builtin_ramp_no_newline.
Qed.


(** A run with an image that decodes. *)
Lemma main_success cvt_invalid atoi_invalid stbi_load argv img :
  (2 <= length argv)%nat -> stbi_load (arg argv 1) = Some img ->
  main cvt_invalid atoi_invalid stbi_load argv
  = {| exit_code := 0;
       stdout := render cvt_invalid img
                   (if invert argv then RAMP_INVERT else RAMP_DEFAULT)
                   (target_width atoi_invalid argv)
                   (out_height cvt_invalid (img_w img) (img_h img)
                               (target_width atoi_invalid argv));
       stderr := EmptyString |}.
Proof.
  intros Hlen Hload. unfold main.
  destruct (Nat.ltb_spec (length argv) 2); [lia|]. now rewrite Hload.
Qed.

Lemma main_stdout cvt_invalid atoi_invalid stbi_load argv img :
  (2 <= length argv)%nat -> stbi_load (arg argv 1) = Some img ->
  stdout (main cvt_invalid atoi_invalid stbi_load argv)
  = concat (map (fun row => row ++ [newline])
                (grid cvt_invalid img
                      (if invert argv then RAMP_INVERT else RAMP_DEFAULT)
                      (target_width atoi_invalid argv)
                      (out_height cvt_invalid (img_w img) (img_h img)
                                  (target_width atoi_invalid argv)))).
Proof.
  intros Hlen Hload. rewrite (main_success _ _ _ _ img Hlen Hload).
  apply render_grid.
Qed.


(** [round_half_up]: the floor of the value plus one half. *)
Lemma round_half_up_spec x k :
  round_half_up x = Some k -> (IZR k <= SF2R x + / 2 < IZR k + 1)%R.
Proof.
  destruct x as [s|s| |s m e]; cbn [round_half_up]; intros H;
    try discriminate H.
  - assert (k = 0) as -> by congruence. cbn [SF2R]. lra.
  - assert (Hk : k = if 0 <=? e then signed s m * 2 ^ e
                     else (2 * signed s m + 2 ^ (- e)) / (2 * 2 ^ (- e)))
      by congruence.
    clear H. subst k. rewrite SF2R_signed.
    destruct (Z.leb_spec 0 e) as [He|He].
    + rewrite mult_IZR, <- bpow_IZR by lia. lra.
    + rewrite bpow_neg_inv by lia.
      assert (HP : 0 < 2 ^ (- e)) by (apply Z.pow_pos_nonneg; lia).
      set (D := 2 ^ (- e)) in *.
      pose proof (IZR_div_bounds (2 * signed s m + D) (2 * D) ltac:(lia)) as Hq.
      assert (HD : (0 < IZR D)%R) by (apply IZR_lt; lia).
      rewrite plus_IZR, !mult_IZR in Hq.
      replace ((2 * IZR (signed s m) + IZR D) / (2 * IZR D))%R
        with (IZR (signed s m) * / IZR D + / 2)%R in Hq by (field; lra).
      exact Hq.
Qed.

Lemma round_half_up_finite x :
  is_finite x = true -> exists k, round_half_up x = Some k.
Proof. destruct x; try discriminate; intros _; eexists; reflexivity. Qed.

Section GlyphRounding.

Variable cvt_invalid : spec_float -> Z.

(** The index is the product rounded half up, or one more: the latter
    where the sum with [0.5f] rounds up to the next integer. *)
Lemma glyph_round_half_up lum ramp z :
  String.length ramp = 10%nat ->
  valid_binary F32.prec F32.emax lum = true ->
  floorf lum = Some z -> - 2 ^ 20 <= z < 2 ^ 20 ->
  exists k,
    round_half_up (F32.mul lum (F32.of_int 9)) = Some k
    /\ (luminance_to_char cvt_invalid lum ramp = char_at ramp (clampi k 0 9)
        \/ luminance_to_char cvt_invalid lum ramp
           = char_at ramp (clampi (k + 1) 0 9)).
Proof.
  intros Hlen Hv Hz Hr. rewrite luminance_to_char_10 by assumption. cbv zeta.
  assert (Hf : fv32 lum) by (split; [now apply floorf_finite in Hz|assumption]).
  pose proof (floorf_spec lum z Hz) as Hfl.
  change (2 ^ 20) with 1048576 in Hr.
  assert (HL : (- 1048576 <= SF2R lum <= 1048576)%R).
  { assert (IZR (-1048576) <= IZR z)%R by (apply IZR_le; lia).
    assert (IZR z + 1 <= IZR 1048576)%R
      by (rewrite <- (plus_IZR z 1); apply IZR_le; lia).
    lra. }
  destruct (of_int32_exact 9 ltac:(reflexivity)) as [Hf9 Hv9].
  destruct HALF_val as [Hfh Hvh].
  assert (Hbig : (8589934592 < IZR (2 ^ 127))%R).
  { apply (IZR_lt 8589934592). now apply Z.ltb_lt. }
  assert (HP : rounds32 (SF2R lum * 9) (F32.mul lum (F32.of_int 9))).
  { rewrite <- Hv9. apply mul32_rounds; try assumption.
    rewrite Hv9. apply Rabs_def1; lra. }
  pose proof (rounds32_fv _ _ HP) as HfP.
  pose proof (rounds32_near _ _ HP) as HnP.
  set (P := F32.mul lum (F32.of_int 9)) in *.
  assert (HPhi : (SF2R P <= 9437184)%R).
  { apply (near32_le (SF2R lum * 9)); [assumption| |lra].
    apply (format32_int 9437184). reflexivity. }
  assert (HPlo : (- 9437184 <= SF2R P)%R).
  { apply (near32_ge (SF2R lum * 9)); [assumption| |lra].
    apply (format32_int (-9437184)). reflexivity. }
  destruct (round_half_up_finite P (proj1 HfP)) as [k Hk].
  exists k. split; [assumption|].
  pose proof (round_half_up_spec P k Hk) as Hku.
  assert (Hkr : - 9437185 <= k <= 9437184).
  { assert (H1 : (IZR (-9437186) < IZR k)%R) by lra.
    assert (H2 : (IZR k < IZR 9437185)%R) by lra.
    apply lt_IZR in H1, H2. lia. }
  assert (HS : rounds32 (SF2R P + / 2) (F32.add P HALF)).
  { rewrite <- Hvh. apply add32_rounds; try assumption.
    rewrite Hvh. apply Rabs_def1; lra. }
  pose proof (rounds32_fv _ _ HS) as [HfinS _].
  pose proof (rounds32_near _ _ HS) as HnS.
  set (S := F32.add P HALF) in *.
  assert (HSlo : (IZR k <= SF2R S)%R).
  { apply (near32_ge (SF2R P + / 2)); [assumption| |lra].
    apply format32_int. change (2 ^ 24) with 16777216. lia. }
  assert (HShi : (SF2R S <= IZR (k + 1))%R).
  { apply (near32_le (SF2R P + / 2)); [assumption| |rewrite plus_IZR; lra].
    apply format32_int. change (2 ^ 24) with 16777216. lia. }
  destruct (floorf_is_finite S HfinS) as [k' Hk']. rewrite Hk'.
  pose proof (floorf_spec S k' Hk') as Hfl'.
  rewrite plus_IZR in HShi.
  assert (H1 : (IZR (k - 1) < IZR k')%R) by (rewrite minus_IZR; lra).
  assert (H2 : (IZR k' < IZR (k + 2))%R) by (rewrite plus_IZR; lra).
  apply lt_IZR in H1, H2.
  cbn [to_int].
  assert (in_int k' = true) as ->.
  { apply in_int_iff. change (2 ^ 31) with 2147483648. lia. }
  destruct (Z.eq_dec k' k) as [->|Hne]; [left; reflexivity|].
  right. replace k' with (k + 1) by lia. reflexivity.
Qed.

End GlyphRounding.

(** * Order, locality and uniform pictures *)

(** ** Pixels of a rectangle *)

Lemma rect_coords_In sx0 sx1 sy0 sy1 sx sy :
  In (sx, sy) (rect_coords sx0 sx1 sy0 sy1)
  <-> sx0 <= sx < sx1 /\ sy0 <= sy < sy1.
Proof.
  unfold rect_coords. rewrite in_flat_map. split.
  - intros (y & Hy & Hin). apply in_map_iff in Hin.
    destruct Hin as (x & Heq & Hx). injection Heq as <- <-.
    apply Zrange_In in Hx, Hy. tauto.
  - intros [Hx Hy]. exists sy. split; [now apply Zrange_In|].
    apply in_map_iff. exists sx. split; [reflexivity|now apply Zrange_In].
Qed.

(** The mean depends on the luminances of the pixels of the rectangle
    only. *)
Lemma average_luminance_ext data1 data2 w channels sx0 sx1 sy0 sy1 :
  (forall sx sy, sx0 <= sx < sx1 -> sy0 <= sy < sy1 ->
     pixel_luminance data1 w channels sx sy
     = pixel_luminance data2 w channels sx sy) ->
  average_luminance data1 w channels sx0 sx1 sy0 sy1
  = average_luminance data2 w channels sx0 sx1 sy0 sy1.
Proof.
  intros Hext. unfold average_luminance.
  pose proof (sum_rect_flat data1 w channels sx0 sx1 sy0 sy1) as H1.
  pose proof (sum_rect_flat data2 w channels sx0 sx1 sy0 sy1) as H2.
  cbv zeta in H1, H2. rewrite H1, H2.
  rewrite (map_ext_in _ (fun p => pixel_luminance data2 w channels (fst p) (snd p))).
  - reflexivity.
  - intros [sx sy] Hin. apply rect_coords_In in Hin. cbn [fst snd].
    now apply Hext.
Qed.

(** The luminance of a pixel depends on the bytes at [pixel_reads] only. *)
Lemma pixel_luminance_ext data1 data2 w channels sx sy :
  (forall idx, In idx (pixel_reads w channels sx sy) ->
     byte_at data1 idx = byte_at data2 idx) ->
  pixel_luminance data1 w channels sx sy
  = pixel_luminance data2 w channels sx sy.
Proof.
  unfold pixel_reads, pixel_luminance. cbv zeta.
  destruct (channels =? 1); intros H.
  - rewrite (H _ (or_introl eq_refl)). reflexivity.
  - rewrite (H (pixel_index w channels sx sy + 0)),
            (H (pixel_index w channels sx sy + 1)),
            (H (pixel_index w channels sx sy + 2)); cbn [In]; auto.
Qed.

Lemma grid_ext cvt img1 img2 ramp out_w out_h :
  (forall ox oy, 0 <= ox < out_w -> 0 <= oy < out_h ->
     cell_char cvt img1 ramp out_w out_h ox oy
     = cell_char cvt img2 ramp out_w out_h ox oy) ->
  grid cvt img1 ramp out_w out_h = grid cvt img2 ramp out_w out_h.
Proof.
  intros H. unfold grid. apply map_ext_in. intros oy Hy.
  apply Zrange_In in Hy. unfold row_glyphs. apply map_ext_in. intros ox Hx.
  apply Zrange_In in Hx. now apply H.
Qed.

(** The inverted ramp mirrors the default one. *)
Lemma ramp_mirror i :
  0 <= i <= 9 -> char_at RAMP_INVERT i = char_at RAMP_DEFAULT (9 - i).
Proof.
  intros Hi.
  assert (H : i = 0 \/ i = 1 \/ i = 2 \/ i = 3 \/ i = 4 \/ i = 5 \/ i = 6
              \/ i = 7 \/ i = 8 \/ i = 9) by lia.
  repeat (destruct H as [->|H]; [reflexivity|]). subst. reflexivity.
Qed.

(** The characters of standard output. *)
Lemma ramp_char ramp i :
  ramp = RAMP_DEFAULT \/ ramp = RAMP_INVERT -> 0 <= i <= 9 ->
  In (char_at ramp i) (list_ascii_of_string RAMP_DEFAULT).
Proof.
  intros Hr Hi.
  assert (H : i = 0 \/ i = 1 \/ i = 2 \/ i = 3 \/ i = 4 \/ i = 5 \/ i = 6
              \/ i = 7 \/ i = 8 \/ i = 9) by lia.
  destruct Hr as [->| ->];
    repeat (destruct H as [->|H]; [cbn; tauto|]); subst; cbn; tauto.
Qed.

(** ** Order and rounding *)

Section Order.

Variables prec emax : Z.
Hypothesis Hprec : 0 < prec.
Hypothesis Hemax : prec < emax.

Local Abbreviation emin := (SpecFloat.emin prec emax).

(** An integer of at most [prec] digits, scaled by a power of two not
    below the smallest exponent, is in the format. *)
Lemma format_scaled i e :
  Z.abs i < 2 ^ prec -> emin <= e -> format prec emax (IZR i * bpow e).
Proof.
  intros Hi He. destruct (Z.eq_dec i 0) as [->|Hnz].
  - exists emin, 0. split; [rewrite Rmult_0_l; now apply quantum_zero|ring].
  - assert (Hpos : 0 < Z.abs i) by lia.
    pose proof (Zdigits2_spec _ Hpos) as [Hl Hu].
    pose proof (Zdigits2_pos _ Hpos) as Hd.
    assert (Hdp : Zdigits2 (Z.abs i) <= prec) by (apply Zdigits2_le; lia).
    set (d := Zdigits2 (Z.abs i)) in *.
    pose proof (bpow_gt_0 e) as Hb.
    assert (Habs : Rabs (IZR i * bpow e) = (IZR (Z.abs i) * bpow e)%R).
    { rewrite Rabs_mult, <- abs_IZR, (Rabs_pos_eq (bpow e)) by lra.
      reflexivity. }
    assert (Hup : (IZR (Z.abs i) * bpow e < bpow (d + e))%R).
    { rewrite bpow_plus, (bpow_IZR d) by lia.
      apply Rmult_lt_compat_r; [assumption|now apply IZR_lt]. }
    assert (Hlo : (bpow (d - 1 + e) <= IZR (Z.abs i) * bpow e)%R).
    { rewrite bpow_plus, (bpow_IZR (d - 1)) by lia.
      apply Rmult_le_compat_r; [lra|now apply IZR_le]. }
    destruct (Z_le_gt_dec emin (e + d - prec)) as [Hn|Hs].
    + exists (e + d - prec), (i * 2 ^ (e - (e + d - prec))). split.
      * unfold quantum. rewrite Habs. split; [assumption|]. split.
        -- replace (e + d - prec + prec) with (d + e) by lia. assumption.
        -- right. replace (e + d - prec + prec - 1) with (d - 1 + e) by lia.
           assumption.
      * apply multiple_finer. lia.
    + exists emin, (i * 2 ^ (e - emin)). split.
      * unfold quantum. rewrite Habs. split; [lia|]. split; [|now left].
        apply Rlt_le_trans with (1 := Hup). apply bpow_le. lia.
      * apply multiple_finer. lia.
Qed.

(** Two floats of the format with the same value, not zero, are the same
    float. *)
Lemma fv_eq x y :
  fv prec emax x -> fv prec emax y -> SF2R x = SF2R y -> SF2R x <> 0%R ->
  x = y.
Proof.
  intros [Hfx Hvx] [Hfy Hvy] Heq Hnz.
  destruct x as [sx|sx| |sx mx ex]; try discriminate; [now elim Hnz|].
  destruct y as [sy|sy| |sy my ey]; try discriminate.
  { rewrite Heq in Hnz. now elim Hnz. }
  assert (Hqx : quantum prec emax (SF2R (S754_finite sx mx ex)) ex)
    by (apply quantum_finite; assumption).
  assert (Hqy : quantum prec emax (SF2R (S754_finite sy my ey)) ey)
    by (apply quantum_finite; assumption).
  rewrite Heq in Hqx.
  assert (He : ex = ey) by (eapply quantum_unique; eassumption).
  subst ey.
  cbn [SF2R] in Heq. pose proof (bpow_gt_0 ex) as Hb.
  apply Rmult_eq_reg_r in Heq; [|lra]. apply eq_IZR in Heq.
  destruct sx, sy; cbn [cond_Zopp] in Heq; try lia;
    assert (mx = my) by lia; now subst.
Qed.

(** Rounding to nearest keeps the order of distinct numbers. *)
Lemma near_mono_pos X1 V1 X2 V2 :
  near prec emax X1 V1 -> near prec emax X2 V2 -> format prec emax V1 ->
  (0 <= X1 < X2)%R -> (V1 <= V2)%R.
Proof.
  intros H1 H2 Hf1 HX.
  destruct (Rle_lt_dec V1 X2) as [Hle|Hgt].
  { apply (near_ge prec emax) with (X := X2); assumption. }
  destruct H1 as (E1 & j1 & Hq1 & HV1 & Hd1).
  destruct H2 as (E2 & j2 & Hq2 & HV2 & Hd2).
  destruct Hf1 as (Ez & i & Hqz & Hz).
  assert (HE12 : E1 <= E2).
  { apply (quantum_mono prec emax) with (X := X1) (Y := X2); try assumption.
    rewrite !Rabs_pos_eq by lra. lra. }
  assert (HE2z : E2 <= Ez).
  { apply (quantum_mono prec emax) with (X := X2) (Y := V1); try assumption.
    rewrite !Rabs_pos_eq by lra. lra. }
  rewrite (multiple_finer i E2 Ez HE2z) in Hz.
  set (i' := i * 2 ^ (Ez - E2)) in *.
  pose proof (bpow_gt_0 E2) as Hb2.
  pose proof (bpow_le E1 E2 HE12) as Hb12.
  apply Rabs_le_inv in Hd1, Hd2.
  destruct (Z_le_gt_dec i' j2) as [Hij|Hij].
  - rewrite Hz, HV2. apply Rmult_le_compat_r; [lra|now apply IZR_le].
  - exfalso. assert (IZR j2 + 1 <= IZR i')%R as Hstep
      by (rewrite <- (plus_IZR j2 1); apply IZR_le; lia).
    assert (V2 + bpow E2 <= V1)%R by (rewrite Hz, HV2; nra).
    lra.
Qed.

Lemma near_mono X1 V1 X2 V2 :
  near prec emax X1 V1 -> near prec emax X2 V2 ->
  format prec emax V1 -> format prec emax V2 ->
  (X1 < X2)%R -> (V1 <= V2)%R.
Proof.
  intros H1 H2 Hf1 Hf2 HX.
  destruct (Rle_lt_dec 0 X1) as [Hp|Hn].
  { now apply (near_mono_pos X1 V1 X2 V2). }
  destruct (Rle_lt_dec X2 0) as [Hp2|Hn2].
  - apply near_opp in H1, H2. apply format_opp in Hf2.
    pose proof (near_mono_pos (- X2) (- V2) (- X1) (- V1) H2 H1 Hf2
                  ltac:(lra)). lra.
  - assert (Hz : format prec emax 0).
    { exists emin, 0. split; [now apply quantum_zero|ring]. }
    assert (V1 <= 0)%R
      by (apply (near_le prec emax) with (X := X1); try assumption; lra).
    assert (0 <= V2)%R
      by (apply (near_ge prec emax) with (X := X2); try assumption; lra).
    lra.
Qed.

(** The same for the floats of two roundings. *)
Lemma rounds_mono X1 r1 X2 r2 :
  rounds prec emax X1 r1 -> rounds prec emax X2 r2 -> (X1 < X2)%R ->
  (SF2R r1 <= SF2R r2)%R.
Proof.
  intros H1 H2 HX.
  apply (near_mono X1 _ X2 _); try assumption.
  - now apply rounds_near.
  - now apply rounds_near.
  - apply format_SF2R; try assumption. now apply (rounds_fv prec emax X1).
  - apply format_SF2R; try assumption. now apply (rounds_fv prec emax X2).
Qed.

End Order.

(** ** Sums of equal luminances *)

(** The mantissa and the exponent of a binary32 float. *)
Lemma fv32_finite s m e :
  valid_binary F32.prec F32.emax (S754_finite s m e) = true ->
  Zpos m < 2 ^ 24 /\ -149 <= e.
Proof.
  cbn [valid_binary]. unfold bounded. intros H.
  apply andb_true_iff in H. destruct H as [Hc _].
  apply canonical_finite in Hc. destruct Hc as (He & Hd & _).
  pose proof (digits2_pos_spec m) as [_ Hu].
  split; [|exact He].
  apply Z.lt_le_trans with (1 := Hu).
  apply Z.pow_le_mono_r; [lia|exact Hd].
Qed.

(** A binary32 float taken fewer than [2^29] times is a binary64 number:
    such sums are exact in [double]. *)
Lemma format64_multiple l k :
  fv32 l -> 0 <= k < 2 ^ 29 -> format64 (IZR k * SF2R l).
Proof.
  intros [Hf Hv] Hk. destruct l as [s|s| |s m e]; try discriminate.
  - cbn [SF2R]. rewrite Rmult_0_r. apply (format64_int 0). reflexivity.
  - destruct (fv32_finite s m e Hv) as [Hm He].
    rewrite SF2R_signed, <- Rmult_assoc, <- mult_IZR.
    apply (format_scaled F64.prec F64.emax); try f64.
    + change (2 ^ 29) with 536870912 in Hk.
      change (2 ^ 24) with 16777216 in Hm.
      change (2 ^ F64.prec) with 9007199254740992.
      unfold signed. destruct s; cbn [cond_Zopp]; nia.
    + unfold SpecFloat.emin, F64.prec, F64.emax. lia.
Qed.

Lemma format64_of_f32 l : fv32 l -> format64 (SF2R l).
Proof.
  intros H. rewrite <- (Rmult_1_l (SF2R l)).
  apply (format64_multiple l 1 H). split; [lia|reflexivity].
Qed.

(** The promotion of a luminance to [double] is exact. *)
Lemma of_f32_exact l :
  fv32 l -> (0 <= SF2R l <= 1)%R ->
  fv64 (F64.of_f32 l) /\ SF2R (F64.of_f32 l) = SF2R l.
Proof.
  intros Hfl Hl. pose proof bpow1023 as Hbig.
  assert (HD : rounds64 (SF2R l) (F64.of_f32 l)).
  { apply (SFldexp0_real F64.prec F64.emax); try f64; [apply Hfl|].
    rewrite Rabs_pos_eq by lra. lra. }
  split; [now apply rounds_fv in HD|].
  apply (near_exact F64.prec F64.emax); try f64.
  - now apply rounds_near in HD.
  - now apply format64_of_f32.
Qed.

(** One turn of the accumulation keeps the sum between [count] times a
    lower and [count] times an upper bound of the luminances. *)
Lemma accumulate_between (lo hi : F32.t) (s : F64.t) (l : F32.t) (k : Z) :
  fv32 lo -> fv32 hi -> fv64 s -> 0 <= k < 2 ^ 29 - 1 ->
  (0 <= SF2R s <= IZR k)%R ->
  (IZR k * SF2R lo <= SF2R s <= IZR k * SF2R hi)%R ->
  fv32 l -> (0 <= SF2R l <= 1)%R -> (SF2R lo <= SF2R l <= SF2R hi)%R ->
  let s' := F64.add s (F64.of_f32 l) in
  fv64 s' /\ (0 <= SF2R s' <= IZR (k + 1))%R
  /\ (IZR (k + 1) * SF2R lo <= SF2R s' <= IZR (k + 1) * SF2R hi)%R.
Proof.
  intros Hlo Hhi Hf Hk Hs Hb Hfl Hl Hlb s'. subst s'.
  change (2 ^ 29) with 536870912 in Hk.
  pose proof bpow1023 as Hbig.
  assert (HC : (0 <= IZR k <= 536870910)%R).
  { split; [apply (IZR_le 0); lia|apply (IZR_le _ 536870910); lia]. }
  destruct (of_f32_exact l Hfl Hl) as [HfD HvD].
  assert (HA : rounds64 (SF2R s + SF2R (F64.of_f32 l))
                        (F64.add s (F64.of_f32 l))).
  { apply (SFadd_real F64.prec F64.emax); try f64; try assumption.
    rewrite HvD, Rabs_pos_eq by lra. lra. }
  rewrite HvD in HA.
  pose proof (rounds_near _ _ _ _ HA) as HnA.
  assert (Hk1 : 0 <= k + 1 < 2 ^ 29)
    by (change (2 ^ 29) with 536870912; lia).
  split; [now apply rounds_fv in HA|]. split; [split|split].
  - apply (near64_nonneg _ _ HnA). lra.
  - apply (near64_le _ _ _ HnA).
    + apply format64_int. change (2 ^ 53) with 9007199254740992. lia.
    + rewrite plus_IZR. lra.
  - apply (near64_ge _ _ _ HnA).
    + now apply format64_multiple.
    + rewrite plus_IZR. lra.
  - apply (near64_le _ _ _ HnA).
    + now apply format64_multiple.
    + rewrite plus_IZR. lra.
Qed.

Lemma accumulate_all_between (lo hi : F32.t) (lums : list F32.t) (s : F64.t)
    (k : Z) :
  fv32 lo -> fv32 hi ->
  (forall l, In l lums ->
     fv32 l /\ (0 <= SF2R l <= 1)%R /\ (SF2R lo <= SF2R l <= SF2R hi)%R) ->
  fv64 s -> 0 <= k -> k + Z.of_nat (length lums) < 2 ^ 29 ->
  (0 <= SF2R s <= IZR k)%R ->
  (IZR k * SF2R lo <= SF2R s <= IZR k * SF2R hi)%R ->
  let s' := fold_left (fun s l => F64.add s (F64.of_f32 l)) lums s in
  let n := k + Z.of_nat (length lums) in
  fv64 s' /\ (0 <= SF2R s' <= IZR n)%R
  /\ (IZR n * SF2R lo <= SF2R s' <= IZR n * SF2R hi)%R.
Proof.
  intros Hlo Hhi. cbv zeta. revert s k.
  induction lums as [|l lums IH]; intros s k Hall Hf Hk Hlen Hs Hb;
    cbn [fold_left length] in *.
  - change (Z.of_nat 0) with 0. rewrite Z.add_0_r.
    split; [assumption|split; assumption].
  - rewrite Nat2Z.inj_succ in Hlen.
    destruct (Hall l (or_introl eq_refl)) as (Hfl & Hl & Hlb).
    destruct (accumulate_between lo hi s l k Hlo Hhi Hf ltac:(lia) Hs Hb
                Hfl Hl Hlb) as (Hf' & Hs' & Hb').
    destruct (IH _ (k + 1) (fun l' H => Hall l' (or_intror H)) Hf'
                ltac:(lia) ltac:(lia) Hs' Hb') as (H1 & H2 & H3).
    replace (k + Z.of_nat (S (length lums))) with (k + 1 + Z.of_nat (length lums))
      by lia.
    split; [assumption|split; assumption].
Qed.

(** The cell luminance lies between the least and the greatest pixel
    luminance of the rectangle. *)
Lemma average_luminance_between data w channels sx0 sx1 sy0 sy1 lo hi :
  sx0 < sx1 -> sy0 < sy1 -> rect_pixels sx0 sx1 sy0 sy1 < 2 ^ 29 ->
  fv32 lo -> fv32 hi ->
  (forall sx sy, sx0 <= sx < sx1 -> sy0 <= sy < sy1 ->
     (SF2R lo <= SF2R (pixel_luminance data w channels sx sy) <= SF2R hi)%R) ->
  (SF2R lo <= SF2R (average_luminance data w channels sx0 sx1 sy0 sy1)
   <= SF2R hi)%R.
Proof.
  intros Hx Hy Hsz Hlo Hhi Hall.
  destruct (average_luminance_nonempty data w channels sx0 sx1 sy0 sy1 Hx Hy)
    as [Hpos Havg].
  rewrite Havg. clear Havg.
  pose proof (sum_rect_flat data w channels sx0 sx1 sy0 sy1) as Hflat.
  cbv zeta in Hflat. rewrite Hflat in *. cbn [fst snd] in *.
  pose proof (sum_rect_count data w channels sx0 sx1 sy0 sy1) as Hc.
  rewrite Hflat in Hc. cbn [snd] in Hc.
  set (lums := map (fun p => pixel_luminance data w channels (fst p) (snd p))
                   (rect_coords sx0 sx1 sy0 sy1)) in *.
  set (n := Z.of_nat (length lums)) in *.
  assert (Hn : n < 2 ^ 29) by lia.
  destruct (accumulate_all_between lo hi lums F64.zero 0 Hlo Hhi)
    as (Hf & Hs & Hb).
  { intros l Hin. subst lums. apply in_map_iff in Hin.
    destruct Hin as ([sx sy] & <- & Hin). apply rect_coords_In in Hin.
    cbn [fst snd].
    destruct (pixel_luminance_range data w channels sx sy) as [H1 H2].
    split; [assumption|]. split; [assumption|]. now apply Hall. }
  { split; reflexivity. }
  { lia. }
  { fold n. lia. }
  { cbn [F64.zero SF2R]. lra. }
  { cbn [F64.zero SF2R]. lra. }
  cbv zeta in Hf, Hs, Hb. rewrite Z.add_0_l in Hs, Hb. fold n in Hs, Hb.
  set (S := fold_left (fun s l => F64.add s (F64.of_f32 l)) lums F64.zero) in *.
  change (2 ^ 29) with 536870912 in Hn.
  destruct (of_int64_exact n) as [Hfd Hvd].
  { change (2 ^ 53) with 9007199254740992. lia. }
  assert (HC : (1 <= IZR n)%R) by (apply (IZR_le 1); lia).
  pose proof bpow1023 as Hbig.
  assert (Hinv : (0 < / IZR n <= 1)%R).
  { split; [apply Rinv_0_lt_compat; lra|apply Rinv_le_1; lra]. }
  assert (HX : (0 <= SF2R S / IZR n <= 1)%R).
  { unfold Rdiv. split; [nra|].
    apply Rmult_le_reg_r with (IZR n); [lra|].
    rewrite Rmult_assoc, Rinv_l by lra. lra. }
  assert (HXb : (SF2R lo <= SF2R S / IZR n <= SF2R hi)%R).
  { unfold Rdiv. split.
    - apply Rmult_le_reg_r with (IZR n); [lra|].
      rewrite Rmult_assoc, Rinv_l by lra. lra.
    - apply Rmult_le_reg_r with (IZR n); [lra|].
      rewrite Rmult_assoc, Rinv_l by lra. lra. }
  assert (HQ : rounds64 (SF2R S / IZR n) (F64.div S (F64.of_int n))).
  { rewrite <- Hvd. apply (SFdiv_real' F64.prec F64.emax); try f64;
      try assumption.
    - rewrite Hvd. lra.
    - rewrite Hvd, Rabs_pos_eq by lra. lra. }
  pose proof (rounds_fv _ _ _ _ HQ) as [HfinQ _].
  pose proof (rounds_near _ _ _ _ HQ) as HnQ.
  set (q := F64.div S (F64.of_int n)) in *.
  assert (HQ0 : (0 <= SF2R q)%R) by (apply (near64_nonneg _ _ HnQ); lra).
  assert (HQ1 : (SF2R q <= 1)%R).
  { apply (near64_le _ _ _ HnQ); [|lra]. apply (format64_int 1). reflexivity. }
  assert (HQlo : (SF2R lo <= SF2R q)%R).
  { apply (near64_ge _ _ _ HnQ); [now apply format64_of_f32|lra]. }
  assert (HQhi : (SF2R q <= SF2R hi)%R).
  { apply (near64_le _ _ _ HnQ); [now apply format64_of_f32|lra]. }
  assert (HA : rounds32 (SF2R q) (F64.to_f32 q)).
  { apply (SFldexp0_real F32.prec F32.emax); try f32; [assumption|].
    rewrite bpow127. apply small_lt_2_127. rewrite Rabs_pos_eq by lra. lra. }
  pose proof (rounds32_near _ _ HA) as HnA.
  split.
  - apply (near32_ge _ _ _ HnA); [now apply format32_SF2R|assumption].
  - apply (near32_le _ _ _ HnA); [now apply format32_SF2R|assumption].
Qed.

(** A float of value zero is one of the two zeros. *)
Lemma fv32_zero_value x :
  fv32 x -> SF2R x = 0%R -> exists s, x = S754_zero s.
Proof.
  intros [Hf _] Hz. destruct x as [s|s| |s m e]; try discriminate.
  - now exists s.
  - exfalso. rewrite SF2R_finite in Hz.
    pose proof (bpow_gt_0 e) as Hb.
    assert (0 < IZR (Zpos m))%R by (apply IZR_lt; lia).
    unfold sign_R in Hz. destruct s; nra.
Qed.

Lemma fv32_eq x y :
  fv32 x -> fv32 y -> SF2R x = SF2R y -> SF2R x <> 0%R -> x = y.
Proof. apply (fv_eq F32.prec F32.emax); f32. Qed.

(** The glyph depends on the value of the luminance only: the sign of a
    zero plays no part. *)
Lemma glyph_of_value cvt a b ramp :
  String.length ramp = 10%nat -> fv32 a -> fv32 b -> SF2R a = SF2R b ->
  luminance_to_char cvt a ramp = luminance_to_char cvt b ramp.
Proof.
  intros Hlen Ha Hb Heq.
  destruct (Req_dec (SF2R a) 0) as [Hz|Hnz].
  - destruct (fv32_zero_value a Ha Hz) as [sa ->].
    rewrite Hz in Heq. symmetry in Heq.
    destruct (fv32_zero_value b Hb Heq) as [sb ->].
    rewrite !luminance_to_char_10 by assumption.
    destruct sa, sb; reflexivity.
  - now rewrite (fv32_eq a b Ha Hb Heq Hnz).
Qed.

(** A rectangle of pixels of one luminance has that luminance as its
    mean. *)
Lemma average_luminance_uniform data w channels sx0 sx1 sy0 sy1 l :
  sx0 < sx1 -> sy0 < sy1 -> rect_pixels sx0 sx1 sy0 sy1 < 2 ^ 29 ->
  fv32 l ->
  (forall sx sy, sx0 <= sx < sx1 -> sy0 <= sy < sy1 ->
     pixel_luminance data w channels sx sy = l) ->
  SF2R (average_luminance data w channels sx0 sx1 sy0 sy1) = SF2R l.
Proof.
  intros Hx Hy Hsz Hl Hall.
  pose proof (average_luminance_between data w channels sx0 sx1 sy0 sy1 l l
                Hx Hy Hsz Hl Hl) as H.
  apply Rle_antisym; apply H; intros sx sy Hsx Hsy;
    rewrite (Hall sx sy Hsx Hsy); lra.
Qed.

Lemma map_const {A B} (f : A -> B) (b : B) (l : list A) :
  (forall a, In a l -> f a = b) -> map f l = repeat b (length l).
Proof.
  induction l as [|a l IH]; intros H; [reflexivity|].
  cbn [map length repeat]. rewrite (H a (or_introl eq_refl)), IH; [reflexivity|].
  intros a' Ha'. apply H. now right.
Qed.

Section Uniform.

Variable cvt_invalid : spec_float -> Z.

(** Every cell of a picture of one colour shows the glyph of that
    colour. *)
Lemma uniform_cell img ramp out_w out_h v ox oy :
  let w := img_w img in
  let h := img_h img in
  let ch := effective_channels (img_channels img) in
  ramp = RAMP_DEFAULT \/ ramp = RAMP_INVERT ->
  0 < w -> 0 < h -> w * h < 2 ^ 29 ->
  ch = 1 \/ ch = 3 \/ ch = 4 ->
  0 < out_w <= 2 ^ 21 -> 0 < out_h <= 2 ^ 21 ->
  (forall idx, 0 <= idx < w * h * ch -> byte_at (img_data img) idx = v) ->
  0 <= ox < out_w -> 0 <= oy < out_h ->
  cell_char cvt_invalid img ramp out_w out_h ox oy
  = luminance_to_char cvt_invalid (pixel_lum v v v) ramp.
Proof.
  intros w h ch Hramp Hw Hh Hsz Hch How Hoh Hall Hox Hoy.
  pose proof (builtin_ramp_length ramp Hramp) as Hlen.
  change (2 ^ 29) with 536870912 in Hsz.
  assert (Hw30 : w <= 2 ^ 30) by (change (2 ^ 30) with 1073741824; nia).
  assert (Hh30 : h <= 2 ^ 30) by (change (2 ^ 30) with 1073741824; nia).
  assert (Hv : 0 <= v <= 255).
  { rewrite <- (Hall 0) by (destruct Hch as [->|[->| ->]]; nia).
    apply byte_at_range. }
  destruct (pixel_lum_range v v v Hv Hv Hv) as [Hfl _].
  unfold cell_char. cbv zeta. fold w h ch.
  pose proof (src_range cvt_invalid ox w out_w ltac:(lia)) as [Hx0 Hx1].
  pose proof (src_range cvt_invalid oy h out_h ltac:(lia)) as [Hy0 Hy1].
  assert (Hsx : src_lo cvt_invalid ox w out_w < src_hi cvt_invalid ox w out_w)
    by (apply src_nonempty; lia).
  assert (Hsy : src_lo cvt_invalid oy h out_h < src_hi cvt_invalid oy h out_h)
    by (apply src_nonempty; lia).
  set (sx0 := src_lo cvt_invalid ox w out_w) in *.
  set (sx1 := src_hi cvt_invalid ox w out_w) in *.
  set (sy0 := src_lo cvt_invalid oy h out_h) in *.
  set (sy1 := src_hi cvt_invalid oy h out_h) in *.
  assert (Hpix : rect_pixels sx0 sx1 sy0 sy1 < 2 ^ 29).
  { unfold rect_pixels. change (2 ^ 29) with 536870912. nia. }
  apply glyph_of_value; try assumption.
  - apply average_luminance_range.
    apply Z.lt_trans with (1 := Hpix). reflexivity.
  - apply average_luminance_uniform; try assumption.
    intros sx sy Hx Hy. unfold pixel_luminance. cbv zeta.
    assert (Hrd : forall idx, In idx (pixel_reads w ch sx sy) ->
                              byte_at (img_data img) idx = v).
    { intros idx Hin. apply Hall.
      apply (pixel_reads_in_bounds w h ch sx sy idx); try assumption; lia. }
    unfold pixel_reads in Hrd.
    destruct (ch =? 1).
    + rewrite (Hrd _ (or_introl eq_refl)). reflexivity.
    + rewrite (Hrd (pixel_index w ch sx sy + 0)),
              (Hrd (pixel_index w ch sx sy + 1)),
              (Hrd (pixel_index w ch sx sy + 2)); cbn [In]; auto.
Qed.

End Uniform.

(** ** Monotone operations *)

Lemma rounds32_mono X1 r1 X2 r2 :
  rounds32 X1 r1 -> rounds32 X2 r2 -> (X1 < X2)%R ->
  (SF2R r1 <= SF2R r2)%R.
Proof. apply (rounds_mono F32.prec F32.emax); f32. Qed.

Lemma rounds32_exact X r : rounds32 X r -> format32 X -> SF2R r = X.
Proof.
  intros Hr Hf. apply (near_exact F32.prec F32.emax); try f32; try assumption.
  now apply rounds32_near.
Qed.

(** A correctly rounded increasing operation is monotone on floats. *)
Lemma rounded_mono (f : F32.t -> F32.t) (F : R -> R) a b :
  fv32 a -> fv32 b ->
  rounds32 (F (SF2R a)) (f a) -> rounds32 (F (SF2R b)) (f b) ->
  (forall x y, (x < y)%R -> (F x < F y)%R) -> format32 (F 0%R) ->
  (SF2R a <= SF2R b)%R -> (SF2R (f a) <= SF2R (f b))%R.
Proof.
  intros Ha Hb Hra Hrb Hinc Hf0 [Hlt|Heq].
  - apply (rounds32_mono _ _ _ _ Hra Hrb). now apply Hinc.
  - destruct (Req_dec (SF2R a) 0) as [Hz|Hnz].
    + rewrite <- Heq, Hz in Hrb. rewrite Hz in Hra.
      rewrite (rounds32_exact _ _ Hra Hf0), (rounds32_exact _ _ Hrb Hf0). lra.
    + rewrite (fv32_eq a b Ha Hb Heq Hnz). lra.
Qed.

(** The floor grows with the float. *)
Lemma floorf_mono x y kx ky :
  floorf x = Some kx -> floorf y = Some ky -> (SF2R x <= SF2R y)%R -> kx <= ky.
Proof.
  intros Hx Hy Hle.
  pose proof (floorf_spec x kx Hx). pose proof (floorf_spec y ky Hy).
  assert (H1 : (IZR kx < IZR (ky + 1))%R) by (rewrite plus_IZR; lra).
  apply lt_IZR in H1. lia.
Qed.

Lemma ceilf_mono x y kx ky :
  ceilf x = Some kx -> ceilf y = Some ky -> (SF2R x <= SF2R y)%R -> kx <= ky.
Proof.
  intros Hx Hy Hle.
  pose proof (ceilf_spec x kx Hx). pose proof (ceilf_spec y ky Hy).
  assert (H1 : (IZR (kx - 1) < IZR ky)%R) by (rewrite minus_IZR; lra).
  apply lt_IZR in H1. lia.
Qed.

Section Monotone.

Variable cvt_invalid : spec_float -> Z.

Lemma format32_scaled i e :
  Z.abs i < 2 ^ 24 -> -149 <= e -> format32 (IZR i * bpow e).
Proof. intros Hi He. apply (format_scaled F32.prec F32.emax); try f32; assumption. Qed.

(** The product with nine and the sum with one half, for a luminance of
    magnitude up to [2^27]. *)
Lemma index_steps l :
  fv32 l -> (- 134217728 <= SF2R l <= 134217728)%R ->
  let P := F32.mul l (F32.of_int 9) in
  let S := F32.add P HALF in
  fv32 P /\ rounds32 (SF2R l * 9) P /\ rounds32 (SF2R P + / 2) S
  /\ (- 1610612992 <= SF2R S <= 1610612992)%R.
Proof.
  intros Hl HL P S.
  destruct (of_int32_exact 9 ltac:(reflexivity)) as [Hf9 Hv9].
  destruct HALF_val as [Hfh Hvh].
  assert (Hbig : (8589934592 < IZR (2 ^ 127))%R).
  { apply (IZR_lt 8589934592). now apply Z.ltb_lt. }
  assert (F1 : format32 1610612736).
  { replace 1610612736%R with (IZR 3 * bpow 29)%R
      by (rewrite (bpow_IZR 29) by lia; rewrite <- mult_IZR; reflexivity).
    apply format32_scaled; [reflexivity|lia]. }
  assert (F2 : format32 1610612992).
  { replace 1610612992%R with (IZR 6291457 * bpow 8)%R
      by (rewrite (bpow_IZR 8) by lia; rewrite <- mult_IZR; reflexivity).
    apply format32_scaled; [reflexivity|lia]. }
  assert (F1' : format32 (- 1610612736))
    by now apply (format_opp F32.prec F32.emax).
  assert (F2' : format32 (- 1610612992))
    by now apply (format_opp F32.prec F32.emax).
  assert (HP : rounds32 (SF2R l * 9) P).
  { subst P. rewrite <- Hv9. apply mul32_rounds; try assumption.
    rewrite Hv9. apply Rabs_def1; lra. }
  pose proof (rounds32_fv _ _ HP) as HfP.
  pose proof (rounds32_near _ _ HP) as HnP.
  assert (HP1 : (SF2R P <= 1610612736)%R)
    by (apply (near32_le (SF2R l * 9)); [assumption..|lra]).
  assert (HP0 : (- 1610612736 <= SF2R P)%R)
    by (apply (near32_ge (SF2R l * 9)); [assumption..|lra]).
  assert (HS : rounds32 (SF2R P + / 2) S).
  { subst S. rewrite <- Hvh. apply add32_rounds; try assumption.
    rewrite Hvh. apply Rabs_def1; lra. }
  pose proof (rounds32_near _ _ HS) as HnS.
  split; [assumption|]. split; [assumption|]. split; [assumption|]. split.
  - apply (near32_ge (SF2R P + / 2)); [assumption..|lra].
  - apply (near32_le (SF2R P + / 2)); [assumption..|lra].
Qed.

(** A brighter luminance never selects an earlier glyph. *)
Lemma ramp_index_mono a b :
  fv32 a -> fv32 b ->
  (- 134217728 <= SF2R a)%R -> (SF2R b <= 134217728)%R ->
  (SF2R a <= SF2R b)%R ->
  ramp_index cvt_invalid a 10 <= ramp_index cvt_invalid b 10.
Proof.
  intros Ha Hb Hlo Hhi Hab. unfold ramp_index. cbv zeta.
  change (10 - 1) with 9.
  destruct HALF_val as [Hfh Hvh].
  destruct (index_steps a Ha ltac:(lra)) as (HfPa & HPa & HSa & HBa).
  destruct (index_steps b Hb ltac:(lra)) as (HfPb & HPb & HSb & HBb).
  cbv zeta in HfPa, HPa, HSa, HBa, HfPb, HPb, HSb, HBb.
  assert (HP : (SF2R (F32.mul a (F32.of_int 9))
                <= SF2R (F32.mul b (F32.of_int 9)))%R).
  { apply (rounded_mono (fun l => F32.mul l (F32.of_int 9))
                        (fun x => x * 9)%R a b); try assumption.
    - intros x y Hxy. lra.
    - rewrite Rmult_0_l. apply format32_0. }
  set (Pa := F32.mul a (F32.of_int 9)) in *.
  set (Pb := F32.mul b (F32.of_int 9)) in *.
  assert (HS : (SF2R (F32.add Pa HALF) <= SF2R (F32.add Pb HALF))%R).
  { apply (rounded_mono (fun p => F32.add p HALF) (fun x => x + / 2)%R Pa Pb);
      try assumption.
    - intros x y Hxy. lra.
    - rewrite Rplus_0_l, <- Hvh. now apply format32_SF2R. }
  set (Sa := F32.add Pa HALF) in *. set (Sb := F32.add Pb HALF) in *.
  pose proof (rounds32_fv _ _ HSa) as [HfinA _].
  pose proof (rounds32_fv _ _ HSb) as [HfinB _].
  destruct (floorf_is_finite Sa HfinA) as [ka Hka].
  destruct (floorf_is_finite Sb HfinB) as [kb Hkb].
  pose proof (floorf_mono Sa Sb ka kb Hka Hkb HS) as Hk.
  pose proof (floorf_spec Sa ka Hka) as Hfa.
  pose proof (floorf_spec Sb kb Hkb) as Hfb.
  rewrite Hka, Hkb. cbn [to_int].
  assert (Hin : forall k S, (IZR k <= SF2R S < IZR k + 1)%R ->
            (- 1610612992 <= SF2R S <= 1610612992)%R -> in_int k = true).
  { intros k S Hf HB. apply in_int_iff. change (2 ^ 31) with 2147483648.
    assert (H1 : (IZR (-1610612994) < IZR k)%R) by lra.
    assert (H2 : (IZR k < IZR 1610612993)%R) by lra.
    apply lt_IZR in H1, H2. lia. }
  rewrite (Hin ka Sa Hfa HBa), (Hin kb Sb Hfb HBb).
  apply clampi_mono; lia.
Qed.

End Monotone.

(** ** The edges grow with the cell index *)

Lemma of_int32_nonneg o :
  0 <= o < 2 ^ 31 ->
  fv32 (F32.of_int o) /\ (0 <= SF2R (F32.of_int o) <= IZR (2 ^ 31))%R.
Proof.
  intros Ho. destruct (Z.eq_dec o 0) as [->|Hnz].
  - split; [apply fv32_zero|]. cbn. split; [lra|]. apply (IZR_le 0). lia.
  - destruct (of_int32_pos o ltac:(lia)) as (H1 & H2 & _).
    split; [assumption|lra].
Qed.

Lemma of_int32_mono o o' :
  0 <= o <= o' -> o' < 2 ^ 31 ->
  (SF2R (F32.of_int o) <= SF2R (F32.of_int o'))%R.
Proof.
  intros Ho Ho'. destruct (Z.eq_dec o o') as [->|Hne]; [lra|].
  apply (rounds32_mono (IZR o) _ (IZR o')).
  - apply of_int32_rounds. lia.
  - apply of_int32_rounds. lia.
  - apply IZR_lt. lia.
Qed.

(** The two roundings of an edge. *)
Lemma edge_steps o n d :
  0 <= o < 2 ^ 31 -> 0 < n < 2 ^ 31 -> 0 < d < 2 ^ 31 ->
  let P := F32.mul (F32.of_int o) (F32.of_int n) in
  fv32 P
  /\ rounds32 (SF2R (F32.of_int o) * SF2R (F32.of_int n)) P
  /\ rounds32 (SF2R P / SF2R (F32.of_int d)) (edge o n d).
Proof.
  intros Ho Hn Hd P.
  destruct (of_int32_nonneg o Ho) as (Hfo & Ho1 & Ho2).
  destruct (of_int32_pos n Hn) as (Hfn & [Hn1 Hn2] & _).
  destruct (of_int32_pos d Hd) as (Hfd & [Hd1 Hd2] & _).
  set (o' := SF2R (F32.of_int o)) in *.
  set (n' := SF2R (F32.of_int n)) in *.
  set (d' := SF2R (F32.of_int d)) in *.
  change (2 ^ 31) with 2147483648 in *.
  assert (Hbig : (IZR (2 ^ 127) = 2147483648 * 2147483648 * 2147483648
                                   * 2147483648 * 8)%R).
  { rewrite <- !mult_IZR. reflexivity. }
  assert (Ha : (0 <= o' * n' <= 2147483648 * 2147483648)%R) by nra.
  assert (HP : rounds32 (o' * n') P).
  { apply mul32_rounds; try assumption. fold o' n'.
    rewrite Rabs_pos_eq by lra. lra. }
  pose proof (rounds32_fv _ _ HP) as HfP.
  pose proof (rounds32_near _ _ HP) as HnP.
  assert (HP0 : (0 <= SF2R P)%R) by (apply (near32_nonneg _ _ HnP); lra).
  assert (HP1 : (SF2R P <= 2147483648 * 2147483648)%R).
  { apply (near32_le _ _ _ HnP); [|lra].
    replace (2147483648 * 2147483648)%R with (IZR (2 ^ 62))
      by (rewrite <- mult_IZR; reflexivity).
    apply format32_pow2. lia. }
  assert (Hinv : (0 < / d' <= 1)%R).
  { split; [apply Rinv_0_lt_compat; lra|apply Rinv_le_1; lra]. }
  split; [assumption|]. split; [assumption|].
  unfold edge. apply div32_rounds; try assumption.
  - fold d'. lra.
  - fold P d'. unfold Rdiv. rewrite Rabs_pos_eq by nra. nra.
Qed.

Lemma edge_mono o o' n d :
  0 <= o <= o' -> o' < 2 ^ 31 -> 0 < n < 2 ^ 31 -> 0 < d < 2 ^ 31 ->
  (SF2R (edge o n d) <= SF2R (edge o' n d))%R.
Proof.
  intros Ho Ho' Hn Hd.
  destruct (edge_steps o n d ltac:(lia) Hn Hd) as (HfP & HP & HQ).
  destruct (edge_steps o' n d ltac:(lia) Hn Hd) as (HfP' & HP' & HQ').
  cbv zeta in *.
  destruct (of_int32_nonneg o ltac:(lia)) as (Hfo & _).
  destruct (of_int32_nonneg o' ltac:(lia)) as (Hfo' & _).
  destruct (of_int32_pos n Hn) as (Hfn & [Hn1 _] & _).
  destruct (of_int32_pos d Hd) as (Hfd & [Hd1 _] & _).
  pose proof (of_int32_mono o o' Ho Ho') as Hoo.
  assert (HPP : (SF2R (F32.mul (F32.of_int o) (F32.of_int n))
                 <= SF2R (F32.mul (F32.of_int o') (F32.of_int n)))%R).
  { apply (rounded_mono (fun x => F32.mul x (F32.of_int n))
                        (fun x => x * SF2R (F32.of_int n))%R
                        (F32.of_int o) (F32.of_int o')); try assumption.
    - intros x y Hxy. nra.
    - rewrite Rmult_0_l. apply format32_0. }
  assert (Hinv : (0 < / SF2R (F32.of_int d))%R)
    by (apply Rinv_0_lt_compat; lra).
  unfold edge in *.
  apply (rounded_mono (fun p => F32.div p (F32.of_int d))
                      (fun x => x / SF2R (F32.of_int d))%R
                      (F32.mul (F32.of_int o) (F32.of_int n))
                      (F32.mul (F32.of_int o') (F32.of_int n)));
    try assumption.
  - intros x y Hxy. unfold Rdiv. nra.
  - unfold Rdiv. rewrite Rmult_0_l. apply format32_0.
Qed.

(** Up to the last edge, and for at most [2^30] pixels, an edge stays
    clear of the end of [int]. *)
Lemma edge_bound o n d :
  0 <= o <= d -> 0 < n <= 2 ^ 30 -> 0 < d < 2 ^ 31 ->
  fv32 (edge o n d) /\ (0 <= SF2R (edge o n d) <= 1073742080)%R.
Proof.
  intros Ho Hn Hd.
  assert (Hn' : 0 < n < 2 ^ 31)
    by (change (2 ^ 30) with 1073741824 in Hn;
        change (2 ^ 31) with 2147483648; lia).
  destruct (edge_fv o n d ltac:(lia) Hn' Hd) as [Hf H0].
  split; [assumption|]. split; [assumption|].
  apply Rle_trans with (SF2R (edge d n d)).
  { apply edge_mono; try assumption; lia. }
  destruct (edge_enclosure d n d Hd Hn' Hd) as [_ [_ Hup]].
  cbv zeta in Hup.
  destruct (of_int32_pos d Hd) as (_ & [Hd1 _] & _).
  assert (Hfn : (1 <= SF2R (F32.of_int n) <= 1073741824)%R).
  { destruct (of_int32_pos n Hn') as (_ & [Hn1 _] & _).
    split; [assumption|].
    apply (near32_le (IZR n)).
    - apply rounds32_near, of_int32_rounds. lia.
    - apply (format32_pow2 30). lia.
    - apply (IZR_le n 1073741824). change (2 ^ 30) with 1073741824 in Hn. lia. }
  replace (SF2R (F32.of_int d) * SF2R (F32.of_int n) / SF2R (F32.of_int d))%R
    with (SF2R (F32.of_int n)) in Hup by (field; lra).
  assert (He : (eps = / 16777216)%R) by reflexivity.
  rewrite He in Hup. nra.
Qed.

Section Ordered.

Variable cvt_invalid : spec_float -> Z.

(** The floor and the ceiling of a float of that range, as [int]s. *)
Lemma to_int_floor f :
  fv32 f -> (0 <= SF2R f <= 1073742080)%R ->
  exists k, floorf f = Some k /\ to_int cvt_invalid f (floorf f) = k.
Proof.
  intros [Hfin _] Hr. destruct (floorf_is_finite f Hfin) as [k Hk].
  exists k. split; [assumption|]. rewrite Hk. cbn [to_int].
  pose proof (floorf_spec f k Hk) as Hs.
  assert (H1 : (IZR (-1) < IZR k)%R) by lra.
  assert (H2 : (IZR k < IZR 1073742081)%R) by lra.
  apply lt_IZR in H1, H2.
  assert (in_int k = true) as ->; [|reflexivity].
  apply in_int_iff. change (2 ^ 31) with 2147483648. lia.
Qed.

Lemma to_int_ceil f :
  fv32 f -> (0 <= SF2R f <= 1073742080)%R ->
  exists k, ceilf f = Some k /\ to_int cvt_invalid f (ceilf f) = k.
Proof.
  intros [Hfin _] Hr. destruct (ceilf_is_finite f Hfin) as [k Hk].
  exists k. split; [assumption|]. rewrite Hk. cbn [to_int].
  pose proof (ceilf_spec f k Hk) as Hs.
  assert (H1 : (IZR (-1) < IZR k)%R) by lra.
  assert (H2 : (IZR (k - 1) < IZR 1073742080)%R) by (rewrite minus_IZR; lra).
  apply lt_IZR in H1, H2.
  assert (in_int k = true) as ->; [|reflexivity].
  apply in_int_iff. change (2 ^ 31) with 2147483648. lia.
Qed.

End Ordered.

(** ** The accuracy of the output height *)

Lemma CHAR_ASPECT_val :
  fv32 CHAR_ASPECT /\ SF2R CHAR_ASPECT = (9227469 / 16777216)%R.
Proof.
  split; [split; reflexivity|].
  apply (SF2R_neg_exp false 9227469 (-24)). lia.
Qed.

Lemma Rmult_enclosure a b al au bl bu :
  (0 <= al <= a)%R -> (a <= au)%R -> (0 <= bl <= b)%R -> (b <= bu)%R ->
  (al * bl <= a * b <= au * bu)%R.
Proof. intros. split; apply Rmult_le_compat; lra. Qed.

(** The conversion of a positive [int], as an enclosure. *)
Lemma of_int32_enclosure n :
  0 < n < 2 ^ 31 ->
  fv32 (F32.of_int n)
  /\ (1 <= SF2R (F32.of_int n) <= 2147483648)%R
  /\ (IZR n * (1 - eps) <= SF2R (F32.of_int n) <= IZR n * (1 + eps))%R.
Proof.
  intros Hn. destruct (of_int32_pos n Hn) as (Hf & Hr & He).
  change (2 ^ 31) with 2147483648 in Hr.
  split; [assumption|]. split; [assumption|].
  apply Rabs_le_inv in He. rewrite eps_def. unfold Rdiv in He. lra.
Qed.

(** The float the height is rounded from lies within [2^-20], relatively,
    of [0.55 * h * out_w / w]. *)
Lemma height_f_accuracy w h out_w :
  0 < w < 2 ^ 31 -> 0 < h < 2 ^ 31 -> 0 < out_w < 2 ^ 31 ->
  let E := (55 / 100 * IZR h * IZR out_w / IZR w)%R in
  fv32 (height_f w h out_w)
  /\ (E * (1 - / 1048576) <= SF2R (height_f w h out_w)
      <= E * (1 + / 1048576))%R.
Proof.
  intros Hw Hh Ht E. unfold height_f.
  destruct (of_int32_enclosure w Hw) as (Hfw & Hrw & Hew).
  destruct (of_int32_enclosure h Hh) as (Hfh & Hrh & Heh).
  destruct (of_int32_enclosure out_w Ht) as (Hft & Hrt & Het).
  destruct CHAR_ASPECT_val as [Hfc Hvc].
  assert (HW : (1 <= IZR w)%R) by (apply (IZR_le 1); lia).
  assert (HH : (1 <= IZR h)%R) by (apply (IZR_le 1); lia).
  assert (HT : (1 <= IZR out_w)%R) by (apply (IZR_le 1); lia).
  set (W := IZR w) in *. set (H := IZR h) in *. set (T := IZR out_w) in *.
  set (fw := SF2R (F32.of_int w)) in *.
  set (fh := SF2R (F32.of_int h)) in *.
  set (ft := SF2R (F32.of_int out_w)) in *.
  assert (He : (eps = / 16777216)%R) by reflexivity.
  assert (Hbig : (IZR (2 ^ 127) = 2147483648 * 2147483648 * 2147483648
                                   * 2147483648 * 8)%R).
  { rewrite <- !mult_IZR. reflexivity. }
  assert (Hsmall : (/ IZR (2 ^ 126) <= / 2147483648 / 8)%R).
  { replace (/ 2147483648 / 8)%R with (/ 17179869184)%R by lra.
    apply Rinv_le_contravar; [lra|]. apply IZR_le. now apply Z.leb_le. }
  (* the reciprocal of the width *)
  assert (HiW : (0 < / W <= 1)%R).
  { split; [apply Rinv_0_lt_compat; lra|apply Rinv_le_1; lra]. }
  assert (Hifw : (/ 2147483648 <= / fw <= 1)%R).
  { split; [apply Rinv_le_contravar; lra|apply Rinv_le_1; lra]. }
  assert (Hinv : (/ W * (1 - eps) <= / fw <= / W * (1 + 2 * eps))%R).
  { assert (HWW : (W * / W = 1)%R) by (apply Rinv_r; lra).
    assert (Hff : (fw * / fw = 1)%R) by (apply Rinv_r; lra).
    rewrite He in *. split.
    - apply Rmult_le_reg_r with fw; [lra|].
      rewrite Rinv_l by lra. nra.
    - apply Rmult_le_reg_r with fw; [lra|].
      rewrite Rinv_l by lra. nra. }
  (* the quotient *)
  assert (HXq : (T * (1 - eps) * (/ W * (1 - eps)) <= ft * / fw
                 <= T * (1 + eps) * (/ W * (1 + 2 * eps)))%R).
  { apply Rmult_enclosure; rewrite ?He in *; try lra; nra. }
  assert (HXq' : (/ 2147483648 <= ft * / fw <= 2147483648)%R).
  { pose proof (Rmult_enclosure ft (/ fw) 1 2147483648 (/ 2147483648) 1)
      as Hm. lra. }
  assert (HQ : rounds32 (ft / fw) (F32.div (F32.of_int out_w) (F32.of_int w))).
  { apply div32_rounds; try assumption.
    - fold fw. lra.
    - fold ft fw. unfold Rdiv. rewrite Rabs_pos_eq by lra. lra. }
  pose proof (rounds32_fv _ _ HQ) as HfQ.
  pose proof (near32_enclosure _ _ (rounds32_near _ _ HQ)) as HencQ.
  unfold Rdiv in HencQ.
  set (q := SF2R (F32.div (F32.of_int out_w) (F32.of_int w))) in *.
  assert (Hq : (ft * / fw * (1 - eps) <= q <= ft * / fw * (1 + eps))%R).
  { apply HencQ. apply Rle_trans with (1 := Hsmall). lra. }
  assert (Hq' : (/ 2147483648 / 2 <= q <= 2147483648 * 2)%R)
    by (rewrite He in *; nra).
  assert (Hqe : (T * (1 - eps) * (/ W * (1 - eps)) * (1 - eps) <= q
                 <= T * (1 + eps) * (/ W * (1 + 2 * eps)) * (1 + eps))%R).
  { rewrite He in *. split.
    - apply Rle_trans with (2 := proj1 Hq).
      apply Rmult_le_compat_r; lra.
    - apply Rle_trans with (1 := proj2 Hq).
      apply Rmult_le_compat_r; lra. }
  (* times the height *)
  assert (HXp : (H * (1 - eps) * (T * (1 - eps) * (/ W * (1 - eps)) * (1 - eps))
                 <= fh * q
                 <= H * (1 + eps)
                    * (T * (1 + eps) * (/ W * (1 + 2 * eps)) * (1 + eps)))%R).
  { apply Rmult_enclosure; rewrite ?He in *;
      first [lra | split; [repeat apply Rmult_le_pos; lra|lra]]. }
  assert (HXp' : (/ 2147483648 / 2 <= fh * q
                  <= 2147483648 * (2147483648 * 2))%R).
  { pose proof (Rmult_enclosure fh q 1 2147483648 (/ 2147483648 / 2)
                  (2147483648 * 2)) as Hm. lra. }
  assert (HP : rounds32 (fh * q)
                 (F32.mul (F32.of_int h)
                          (F32.div (F32.of_int out_w) (F32.of_int w)))).
  { apply mul32_rounds; try assumption. fold fh q.
    rewrite Rabs_pos_eq by lra. lra. }
  pose proof (rounds32_fv _ _ HP) as HfP.
  pose proof (near32_enclosure _ _ (rounds32_near _ _ HP)) as HencP.
  set (p := SF2R (F32.mul (F32.of_int h)
                          (F32.div (F32.of_int out_w) (F32.of_int w)))) in *.
  assert (Hp : (fh * q * (1 - eps) <= p <= fh * q * (1 + eps))%R).
  { apply HencP. apply Rle_trans with (1 := Hsmall). lra. }
  assert (Hp' : (/ 2147483648 / 4 <= p <= 2147483648 * (2147483648 * 4))%R)
    by (rewrite He in *; nra).
  (* times the aspect ratio *)
  assert (HV : rounds32 (p * SF2R CHAR_ASPECT)
                 (F32.mul
                    (F32.mul (F32.of_int h)
                             (F32.div (F32.of_int out_w) (F32.of_int w)))
                    CHAR_ASPECT)).
  { apply mul32_rounds; try assumption. fold p.
    rewrite Hvc, Rabs_pos_eq by nra. nra. }
  split; [now apply rounds32_fv in HV|].
  pose proof (near32_enclosure _ _ (rounds32_near _ _ HV)) as HencV.
  rewrite Hvc in HencV.
  set (v := SF2R (F32.mul
                    (F32.mul (F32.of_int h)
                             (F32.div (F32.of_int out_w) (F32.of_int w)))
                    CHAR_ASPECT)) in *.
  assert (Hv : (p * (9227469 / 16777216) * (1 - eps) <= v
                <= p * (9227469 / 16777216) * (1 + eps))%R).
  { apply HencV. apply Rle_trans with (1 := Hsmall). lra. }
  (* the factors *)
  set (B := (H * T * / W)%R).
  assert (HB : (0 < B)%R) by (unfold B; repeat apply Rmult_lt_0_compat; lra).
  assert (HE : (E = 55 / 100 * B)%R) by (unfold E, B, Rdiv; ring).
  assert (Hplo : (B * ((1 - eps) * (1 - eps) * (1 - eps) * (1 - eps)
                       * (1 - eps)) <= p)%R).
  { apply Rle_trans with (2 := proj1 Hp).
    apply Rle_trans with (H * (1 - eps) * (T * (1 - eps) * (/ W * (1 - eps))
                                           * (1 - eps)) * (1 - eps))%R.
    - unfold B. apply Req_le. ring.
    - apply Rmult_le_compat_r; [rewrite He; lra|]. apply HXp. }
  assert (Hphi : (p <= B * ((1 + eps) * (1 + eps) * (1 + eps) * (1 + eps)
                            * (1 + 2 * eps)))%R).
  { apply Rle_trans with (1 := proj2 Hp).
    apply Rle_trans with (H * (1 + eps)
                          * (T * (1 + eps) * (/ W * (1 + 2 * eps)) * (1 + eps))
                          * (1 + eps))%R.
    - apply Rmult_le_compat_r; [rewrite He; lra|]. apply HXp.
    - unfold B. apply Req_le. ring. }
  rewrite HE. rewrite He in *. split.
  - apply Rle_trans with (2 := proj1 Hv).
    apply Rle_trans
      with (B * ((1 - / 16777216) * (1 - / 16777216) * (1 - / 16777216)
                 * (1 - / 16777216) * (1 - / 16777216))
            * (9227469 / 16777216) * (1 - / 16777216))%R.
    + rewrite !Rmult_assoc. rewrite (Rmult_comm (55 / 100)%R).
      rewrite !Rmult_assoc. apply Rmult_le_compat_l; [lra|]. lra.
    + apply Rmult_le_compat_r; [lra|]. apply Rmult_le_compat_r; lra.
  - apply Rle_trans with (1 := proj2 Hv).
    apply Rle_trans
      with (B * ((1 + / 16777216) * (1 + / 16777216) * (1 + / 16777216)
                 * (1 + / 16777216) * (1 + 2 * / 16777216))
            * (9227469 / 16777216) * (1 + / 16777216))%R.
    + apply Rmult_le_compat_r; [lra|]. apply Rmult_le_compat_r; lra.
    + rewrite !Rmult_assoc. rewrite (Rmult_comm (55 / 100)%R).
      rewrite !Rmult_assoc. apply Rmult_le_compat_l; [lra|]. lra.
Qed.

(** ** The height grows with the picture and with the width *)

Lemma roundf_mono x y kx ky :
  roundf x = Some kx -> roundf y = Some ky ->
  (0 <= SF2R x <= SF2R y)%R -> kx <= ky.
Proof.
  intros Hx Hy [H0 Hle].
  destruct (roundf_spec x kx Hx) as (Hrx & Hpx & _).
  destruct (roundf_spec y ky Hy) as (Hry & Hpy & _).
  specialize (Hpx H0). specialize (Hpy ltac:(lra)).
  rewrite Rabs_pos_eq, Z.abs_eq in Hrx, Hry by (assumption || lra).
  assert (H1 : (IZR kx < IZR (ky + 1))%R) by (rewrite plus_IZR; lra).
  apply lt_IZR in H1. lia.
Qed.

(** The three roundings of the height. *)
Lemma height_f_steps w h out_w :
  0 < w < 2 ^ 31 -> 0 < h < 2 ^ 31 -> 0 < out_w < 2 ^ 31 ->
  let q := F32.div (F32.of_int out_w) (F32.of_int w) in
  let p := F32.mul (F32.of_int h) q in
  fv32 q /\ (0 < SF2R q)%R
  /\ rounds32 (SF2R (F32.of_int out_w) / SF2R (F32.of_int w)) q
  /\ fv32 p /\ (0 <= SF2R p)%R
  /\ rounds32 (SF2R (F32.of_int h) * SF2R q) p
  /\ rounds32 (SF2R p * SF2R CHAR_ASPECT) (height_f w h out_w).
Proof.
  intros Hw Hh Ht q p.
  destruct (of_int32_enclosure w Hw) as (Hfw & Hrw & _).
  destruct (of_int32_enclosure h Hh) as (Hfh & Hrh & _).
  destruct (of_int32_enclosure out_w Ht) as (Hft & Hrt & _).
  destruct CHAR_ASPECT_val as [Hfc Hvc].
  set (fw := SF2R (F32.of_int w)) in *.
  set (fh := SF2R (F32.of_int h)) in *.
  set (ft := SF2R (F32.of_int out_w)) in *.
  assert (He : (eps = / 16777216)%R) by reflexivity.
  assert (Hbig : (IZR (2 ^ 127) = 2147483648 * 2147483648 * 2147483648
                                   * 2147483648 * 8)%R).
  { rewrite <- !mult_IZR. reflexivity. }
  assert (Hsmall : (/ IZR (2 ^ 126) <= / 2147483648 / 8)%R).
  { replace (/ 2147483648 / 8)%R with (/ 17179869184)%R by lra.
    apply Rinv_le_contravar; [lra|]. apply IZR_le. now apply Z.leb_le. }
  assert (Hifw : (/ 2147483648 <= / fw <= 1)%R).
  { split; [apply Rinv_le_contravar; lra|apply Rinv_le_1; lra]. }
  assert (HXq : (/ 2147483648 <= ft * / fw <= 2147483648)%R).
  { pose proof (Rmult_enclosure ft (/ fw) 1 2147483648 (/ 2147483648) 1)
      as Hm. lra. }
  assert (HQ : rounds32 (ft / fw) q).
  { apply div32_rounds; try assumption.
    - fold fw. lra.
    - fold ft fw. unfold Rdiv. rewrite Rabs_pos_eq by lra. lra. }
  pose proof (rounds32_fv _ _ HQ) as HfQ.
  pose proof (near32_enclosure _ _ (rounds32_near _ _ HQ)) as HencQ.
  unfold Rdiv in HencQ.
  assert (Hq : (ft * / fw * (1 - eps) <= SF2R q <= ft * / fw * (1 + eps))%R).
  { apply HencQ. apply Rle_trans with (1 := Hsmall). lra. }
  assert (Hq' : (/ 2147483648 / 2 <= SF2R q <= 2147483648 * 2)%R)
    by (rewrite He in *; nra).
  assert (HXp : (/ 2147483648 / 2 <= fh * SF2R q
                 <= 2147483648 * (2147483648 * 2))%R).
  { pose proof (Rmult_enclosure fh (SF2R q) 1 2147483648 (/ 2147483648 / 2)
                  (2147483648 * 2)) as Hm. lra. }
  assert (HP : rounds32 (fh * SF2R q) p).
  { apply mul32_rounds; try assumption. fold fh.
    rewrite Rabs_pos_eq by lra. lra. }
  pose proof (rounds32_fv _ _ HP) as HfP.
  pose proof (near32_enclosure _ _ (rounds32_near _ _ HP)) as HencP.
  assert (Hp : (fh * SF2R q * (1 - eps) <= SF2R p
                <= fh * SF2R q * (1 + eps))%R).
  { apply HencP. apply Rle_trans with (1 := Hsmall). lra. }
  assert (Hp' : (/ 2147483648 / 4 <= SF2R p
                 <= 2147483648 * (2147483648 * 4))%R)
    by (rewrite He in *; nra).
  split; [assumption|]. split; [lra|]. split; [assumption|].
  split; [assumption|]. split; [lra|]. split; [assumption|].
  unfold height_f. apply mul32_rounds; try assumption. fold q p.
  rewrite Hvc, Rabs_pos_eq by nra. nra.
Qed.

Lemma height_f_mono w h h' out_w out_w' :
  0 < w < 2 ^ 31 -> 0 < h <= h' -> h' < 2 ^ 31 ->
  0 < out_w <= out_w' -> out_w' < 2 ^ 31 ->
  (0 <= SF2R (height_f w h out_w) <= SF2R (height_f w h' out_w'))%R.
Proof.
  intros Hw Hh Hh' Ht Ht'.
  destruct (height_f_steps w h out_w Hw ltac:(lia) ltac:(lia))
    as (Hfq & Hq0 & HQ & Hfp & Hp0 & HP & HV).
  destruct (height_f_steps w h' out_w' Hw ltac:(lia) ltac:(lia))
    as (Hfq' & Hq0' & HQ' & Hfp' & Hp0' & HP' & HV').
  destruct (height_f_steps w h out_w' Hw ltac:(lia) ltac:(lia))
    as (_ & _ & _ & Hfm & Hm0 & HM & _).
  cbv zeta in *.
  destruct (of_int32_enclosure w Hw) as (Hfw & Hrw & _).
  destruct (of_int32_enclosure h ltac:(lia)) as (Hfh & Hrh & _).
  destruct (of_int32_enclosure h' ltac:(lia)) as (Hfh' & Hrh' & _).
  destruct (of_int32_enclosure out_w ltac:(lia)) as (Hft & Hrt & _).
  destruct (of_int32_enclosure out_w' ltac:(lia)) as (Hft' & Hrt' & _).
  destruct CHAR_ASPECT_val as [Hfc Hvc].
  pose proof (of_int32_mono h h' ltac:(lia) Hh') as Hhh.
  pose proof (of_int32_mono out_w out_w' ltac:(lia) Ht') as Htt.
  assert (Hinv : (0 < / SF2R (F32.of_int w))%R)
    by (apply Rinv_0_lt_compat; lra).
  set (q := F32.div (F32.of_int out_w) (F32.of_int w)) in *.
  set (q' := F32.div (F32.of_int out_w') (F32.of_int w)) in *.
  (* the quotient grows with the width *)
  assert (Hqq : (SF2R q <= SF2R q')%R).
  { apply (rounded_mono (fun x => F32.div x (F32.of_int w))
                        (fun x => x / SF2R (F32.of_int w))%R
                        (F32.of_int out_w) (F32.of_int out_w'));
      try assumption.
    - intros x y Hxy. unfold Rdiv. nra.
    - unfold Rdiv. rewrite Rmult_0_l. apply format32_0. }
  (* the product grows with the quotient, and with the height *)
  assert (H1 : (SF2R (F32.mul (F32.of_int h) q)
                <= SF2R (F32.mul (F32.of_int h) q'))%R).
  { apply (rounded_mono (fun y => F32.mul (F32.of_int h) y)
                        (fun y => SF2R (F32.of_int h) * y)%R q q');
      try assumption.
    - intros x y Hxy. nra.
    - rewrite Rmult_0_r. apply format32_0. }
  assert (H2 : (SF2R (F32.mul (F32.of_int h) q')
                <= SF2R (F32.mul (F32.of_int h') q'))%R).
  { apply (rounded_mono (fun x => F32.mul x q')
                        (fun x => x * SF2R q')%R
                        (F32.of_int h) (F32.of_int h')); try assumption.
    - intros x y Hxy. nra.
    - rewrite Rmult_0_l. apply format32_0. }
  set (p := F32.mul (F32.of_int h) q) in *.
  set (p' := F32.mul (F32.of_int h') q') in *.
  assert (Hpp : (SF2R p <= SF2R p')%R) by lra.
  split.
  - apply (near32_nonneg _ _ (rounds32_near _ _ HV)). rewrite Hvc. nra.
  - unfold height_f. fold q q' p p'.
    apply (rounded_mono (fun x => F32.mul x CHAR_ASPECT)
                        (fun x => x * SF2R CHAR_ASPECT)%R p p');
      try assumption.
    + intros x y Hxy. rewrite Hvc. nra.
    + rewrite Rmult_0_l. apply format32_0.
Qed.


(** ** Monotone operations between two formats *)

Section Conversion.

Variables prec emax prec' emax' : Z.
Hypothesis Hprec : 0 < prec.
Hypothesis Hemax : prec < emax.
Hypothesis Hprec' : 0 < prec'.
Hypothesis Hemax' : prec' < emax'.


End Conversion.



(** ** The luminance grows with the channels *)






(** ** The mean grows with the pixels *)







(** * The claims *)

(** C1. When the image decodes, and the rounded float
    [h * (tw / w) * 0.55f] fits an [int], the program writes
    [max 1 (roundf ...)] lines of [tw] glyphs each, every line closed by a
    newline that no glyph is, the cell [(ox, oy)] at column [ox] of line
    [oy]; [roundf] yields the nearest integer, a tie going away from
    zero. *)
Theorem C1_output_grid cvt ai stbi argv img z :
  (2 <= length argv)%nat ->
  stbi (arg argv 1) = Some img ->
  0 < img_w img -> 0 < img_h img ->
  roundf (height_f (img_w img) (img_h img) (target_width ai argv)) = Some z ->
  in_int z = true ->
  let tw := target_width ai argv in
  let out_h := out_height cvt (img_w img) (img_h img) tw in
  let ramp := if invert argv then RAMP_INVERT else RAMP_DEFAULT in
  let g := grid cvt img ramp tw out_h in
  0 < tw
  /\ out_h = Z.max 1 z
  /\ (IZR (Z.abs z) - / 2
      <= Rabs (SF2R (height_f (img_w img) (img_h img) tw))
      < IZR (Z.abs z) + / 2)%R
  /\ stdout (main cvt ai stbi argv)
     = concat (map (fun row => row ++ [newline]) g)
  /\ length g = Z.to_nat out_h
  /\ (forall row, In row g ->
        length row = Z.to_nat tw /\ ~ In newline row)
  /\ (forall ox oy, 0 <= ox < tw -> 0 <= oy < out_h ->
        nth (Z.to_nat ox) (nth (Z.to_nat oy) g []) Ascii.zero
        = cell_char cvt img ramp tw out_h ox oy).
Proof.
  intros Hargs Hload _ _ Hround Hfit tw out_h ramp g.
  assert (Hramp : ramp = RAMP_DEFAULT \/ ramp = RAMP_INVERT)
    by (subst ramp; destruct (invert argv); auto).
  split; [apply target_width_pos|].
  split; [now apply out_height_in_range|].
  split; [apply (roundf_spec _ _ Hround)|].
  split.
  - unfold main.
    destruct (Nat.ltb_spec (length argv) 2) as [Hlt|_]; [lia|].
    rewrite Hload. cbn [stdout]. apply render_grid.
  - split; [apply grid_length|]. split.
    + intros row Hrow. split; [now apply (grid_rows cvt img ramp tw out_h)|].
      now apply (grid_no_newline cvt img ramp tw out_h).
    + intros ox oy Hx Hy. now apply grid_cell.
Qed.



(** C4. On either ramp, for a binary32 luminance, the glyph is
    [ramp[idx]] with [idx] the floor of the float
    [lum * 9.0f + 0.5f] (a rounded product and a rounded sum), converted
    to [int] and clamped into [[0, 9]].  A finite luminance [lum] with
    [1 <= floor lum < 2^27] yields the glyph of 1.0, the last of the ramp;
    one with [-2^27 < ceil lum <= 0] yields the glyph of 0.0, the first
    of the ramp.  For [-2^20 <= floor lum < 2^20] the index is the float
    product [lum * 9.0f] rounded half up, or one more than that, clamped. *)
Theorem C4_glyph_mapper cvt lum ramp :
  ramp = RAMP_DEFAULT \/ ramp = RAMP_INVERT ->
  valid_binary F32.prec F32.emax lum = true ->
  let x := F32.add (F32.mul lum (F32.of_int 9)) HALF in
  luminance_to_char cvt lum ramp
  = char_at ramp (clampi (to_int cvt x (floorf x)) 0 9)
  /\ (forall k, floorf x = Some k -> in_int k = true ->
        luminance_to_char cvt lum ramp = char_at ramp (clampi k 0 9))
  /\ (forall z, floorf lum = Some z -> 1 <= z < 2 ^ 27 ->
        luminance_to_char cvt lum ramp
        = luminance_to_char cvt (F32.of_int 1) ramp)
  /\ (forall z, ceilf lum = Some z -> - 2 ^ 27 < z <= 0 ->
        luminance_to_char cvt lum ramp
        = luminance_to_char cvt F32.zero ramp)
  /\ luminance_to_char cvt (F32.of_int 1) ramp = char_at ramp 9
  /\ luminance_to_char cvt F32.zero ramp = char_at ramp 0
  /\ (forall z, floorf lum = Some z -> - 2 ^ 20 <= z < 2 ^ 20 ->
        exists k,
          round_half_up (F32.mul lum (F32.of_int 9)) = Some k
          /\ (luminance_to_char cvt lum ramp = char_at ramp (clampi k 0 9)
              \/ luminance_to_char cvt lum ramp
                 = char_at ramp (clampi (k + 1) 0 9))).
Proof.
  intros Hramp Hvalid x.
  pose proof (builtin_ramp_length ramp Hramp) as Hlen.
  pose proof (luminance_to_char_10 cvt lum ramp Hlen) as Hidx.
  cbv zeta in Hidx. fold x in Hidx.
  split; [assumption|].
  split.
  { intros k Hk Hfit. rewrite Hidx, Hk. cbn [to_int]. now rewrite Hfit. }
  split; [intros z; now apply glyph_above_floor|].
  split; [intros z; now apply glyph_below_ceil|].
  split; [now apply glyph_one|].
  split; [now apply glyph_zero|].
  intros z. now apply glyph_round_half_up.
Qed.

(** C5. The default ramp is the string [@%#*+=-:. ] (ten glyphs, the last
    a space), and the inverted ramp is the default one read backwards. *)
Theorem C5_ramps :
  RAMP_DEFAULT = "@%#*+=-:. "%string
  /\ RAMP_INVERT = string_rev RAMP_DEFAULT
  /\ String.length RAMP_DEFAULT = 10%nat.
Proof. repeat split. Qed.

(** C6. Without an image argument the program exits with 1 and writes the
    usage text, which names the program, to standard error; when the
    decoder fails it exits with 2 and writes to standard error a message
    that names the file; in both cases standard output stays empty.
    Otherwise it exits with 0, writes the grid to standard output and
    nothing to standard error. *)
Theorem C6_exit_codes cvt ai stbi argv :
  ((length argv < 2)%nat ->
     exit_code (main cvt ai stbi argv) = 1
     /\ stdout (main cvt ai stbi argv) = []
     /\ stderr (main cvt ai stbi argv) = usage (arg argv 0))
  /\ ((2 <= length argv)%nat -> stbi (arg argv 1) = None ->
     exit_code (main cvt ai stbi argv) = 2
     /\ stdout (main cvt ai stbi argv) = []
     /\ stderr (main cvt ai stbi argv) = load_error (arg argv 1))
  /\ (forall img, (2 <= length argv)%nat -> stbi (arg argv 1) = Some img ->
     let tw := target_width ai argv in
     let out_h := out_height cvt (img_w img) (img_h img) tw in
     let ramp := if invert argv then RAMP_INVERT else RAMP_DEFAULT in
     exit_code (main cvt ai stbi argv) = 0
     /\ stdout (main cvt ai stbi argv)
        = concat (map (fun row => row ++ [newline])
                      (grid cvt img ramp tw out_h))
     /\ stderr (main cvt ai stbi argv) = EmptyString)
  /\ (exists rest, usage (arg argv 0)
                   = ("Usage: " ++ arg argv 0 ++ rest)%string)
  /\ (exists rest, load_error (arg argv 1)
                   = ("Failed to load image '" ++ arg argv 1 ++ rest)%string).
Proof.
  split.
  { intros Hlen. unfold main.
    destruct (Nat.ltb_spec (length argv) 2); [|lia]. repeat split. }
  split.
  { intros Hlen Hload. unfold main.
    destruct (Nat.ltb_spec (length argv) 2); [lia|].
    rewrite Hload. repeat split. }
  split.
  { intros img Hlen Hload tw out_h ramp. unfold main.
    destruct (Nat.ltb_spec (length argv) 2); [lia|].
    rewrite Hload. cbn [exit_code stdout stderr].
    split; [reflexivity|]. split; [apply render_grid|reflexivity]. }
  split; eexists; reflexivity.
Qed.

(** C7. With a width argument [a], the target width is 120 when [atoi a]
    is zero or negative, as it is for an [a] that holds no number, and
    [atoi a] itself when that is positive; [atoi a] is the number written
    in [a] when that number fits an [int].  The only text the run can
    write to standard error is the one for a file that does not decode. *)
Theorem C7_width_fallback cvt ai stbi argv :
  (3 <= length argv)%nat ->
  let a := arg argv 2 in
  let tw := target_width ai argv in
  (unparsable a = true -> atoi ai a = 0 /\ tw = 120)
  /\ (atoi ai a <= 0 -> tw = 120)
  /\ (0 < atoi ai a -> tw = atoi ai a)
  /\ (in_int (parse_int a) = true -> atoi ai a = parse_int a)
  /\ stderr (main cvt ai stbi argv)
     = match stbi (arg argv 1) with
       | Some _ => EmptyString
       | None => load_error (arg argv 1)
       end.
Proof.
  intros Hlen a tw.
  assert (Htw : tw = if atoi ai a <=? 0 then 120 else atoi ai a).
  { subst tw a. unfold target_width.
    destruct (Nat.leb_spec 3 (length argv)); [reflexivity|lia]. }
  assert (Hfit : in_int (parse_int a) = true -> atoi ai a = parse_int a).
  { intros H. unfold atoi. now rewrite H. }
  split.
  { intros Hun. pose proof (unparsable_zero a Hun) as H0.
    assert (Hz : atoi ai a = 0)
      by (rewrite Hfit; [assumption|rewrite H0; apply in_int_0]).
    split; [assumption|]. rewrite Htw, Hz. reflexivity. }
  split.
  { intros Hle. rewrite Htw. destruct (Z.leb_spec (atoi ai a) 0); [reflexivity|lia]. }
  split.
  { intros Hpos. rewrite Htw. destruct (Z.leb_spec (atoi ai a) 0); [lia|reflexivity]. }
  split; [assumption|].
  unfold main. destruct (Nat.ltb_spec (length argv) 2); [lia|].
  destruct (stbi (arg argv 1)); reflexivity.
Qed.

(** C8. For a rectangle without pixels ([sx1 <= sx0] or [sy1 <= sy0]) the
    loops count nothing, the cell luminance is [0.0f], and the glyph is the
    first of the ramp: [@] on the default ramp. *)
Theorem C8_empty_rectangle cvt data w channels sx0 sx1 sy0 sy1 ramp :
  sx1 <= sx0 \/ sy1 <= sy0 ->
  ramp = RAMP_DEFAULT \/ ramp = RAMP_INVERT ->
  let avg := average_luminance data w channels sx0 sx1 sy0 sy1 in
  snd (sum_rect data w channels sx0 sx1 sy0 sy1) = 0
  /\ avg = F32.zero
  /\ SF2R avg = 0%R
  /\ luminance_to_char cvt avg ramp = char_at ramp 0
  /\ (ramp = RAMP_DEFAULT -> luminance_to_char cvt avg ramp = "@"%char).
Proof.
  intros Hempty Hramp avg.
  pose proof (average_luminance_empty data w channels sx0 sx1 sy0 sy1 Hempty)
    as Havg.
  fold avg in Havg.
  assert (Hg : luminance_to_char cvt avg ramp = char_at ramp 0).
  { rewrite Havg. apply glyph_zero. now apply builtin_ramp_length. }
  split.
  { rewrite sum_rect_count. unfold rect_pixels. destruct Hempty; nia. }
  split; [assumption|].
  split; [rewrite Havg; reflexivity|].
  split; [assumption|].
  intros ->. rewrite Hg. reflexivity.
Qed.


(** C10. For a buffer of [w * h * ch] bytes that an [int] can index
    ([w * h * ch <= INT_MAX]), [ch] being 1, 3 or 4 after the normalisation
    of the channel count, the subscripts the loop body computes on [int] for
    a pixel of a cell's rectangle are computed without overflow and are the
    exact ones: [(sy * w + sx) * ch], and the next two for [ch] other than
    1.  Each of them is non-negative and below the length of the buffer, and
    the luminance of the pixel depends on the bytes at these subscripts
    only. *)
Theorem C10_reads_in_bounds cvt (data : list byte) w h channels out_w out_h ox oy
    sx sy idx :
  0 < w -> 0 < h ->
  let ch := effective_channels channels in
  ch = 1 \/ ch = 3 \/ ch = 4 ->
  Z.of_nat (length data) = w * h * ch ->
  w * h * ch <= INT_MAX ->
  src_lo cvt ox w out_w <= sx < src_hi cvt ox w out_w ->
  src_lo cvt oy h out_h <= sy < src_hi cvt oy h out_h ->
  In idx (pixel_reads w ch sx sy) ->
  int_pixel_index w ch sx sy = Some ((sy * w + sx) * ch)
  /\ int_pixel_reads w ch sx sy = Some (pixel_reads w ch sx sy)
  /\ 0 <= idx < Z.of_nat (length data)
  /\ (idx = (sy * w + sx) * ch
      \/ ch <> 1 /\ (idx = (sy * w + sx) * ch + 1
                     \/ idx = (sy * w + sx) * ch + 2))
  /\ (forall data' : list byte,
        (forall i, In i (pixel_reads w ch sx sy) ->
           byte_at data i = byte_at data' i) ->
        pixel_luminance data w ch sx sy = pixel_luminance data' w ch sx sy).
Proof.
  intros Hw Hh ch Hch Hlen Hmax Hsx Hsy Hin.
  pose proof (src_range cvt ox w out_w ltac:(lia)) as [Hx0 Hx1].
  pose proof (src_range cvt oy h out_h ltac:(lia)) as [Hy0 Hy1].
  assert (Hx : 0 <= sx < w) by lia.
  assert (Hy : 0 <= sy < h) by lia.
  split; [|split; [|split; [|split]]].
  - rewrite (int_pixel_index_exact w h ch sx sy) by (try assumption; lia).
    unfold pixel_index. destruct (Z.eqb_spec ch 1) as [->|_]; reflexivity.
  - apply (int_pixel_reads_exact w h ch sx sy); try assumption; lia.
  - rewrite Hlen. apply (pixel_reads_in_bounds w h ch sx sy idx); assumption.
  - revert Hin. unfold pixel_reads, pixel_index.
    destruct (Z.eqb_spec ch 1) as [->|Hne]; cbn [In].
    + intros [<-|[]]. left. reflexivity.
    + intros [<-|[<-|[<-|[]]]]; [left; lia|right..]; split; try assumption;
        [left|right]; reflexivity.
  - intros data' Hd. now apply pixel_luminance_ext.
Qed.

(** * Further properties of the program *)

(** X1. The number of output lines is at least one, whatever the image
    size, the width and the outcome of the conversion to [int]. *)
Theorem X1_out_height_positive cvt w h out_w :
  1 <= out_height cvt w h out_w.
Proof.
  unfold out_height.
  destruct (Z.ltb_spec (to_int cvt (height_f w h out_w)
                               (roundf (height_f w h out_w))) 1); lia.
Qed.

(** X2. The target width is positive for every command line: 120 without
    a width argument, and never the zero or negative result of [atoi]. *)
Theorem X2_target_width_positive ai argv :
  0 < target_width ai argv
  /\ ((length argv < 3)%nat -> target_width ai argv = 120).
Proof.
  unfold target_width. split.
  - destruct (3 <=? length argv)%nat; [|lia].
    destruct (Z.leb_spec (atoi ai (arg argv 2)) 0); lia.
  - intros Hlen. destruct (Nat.leb_spec 3 (length argv)); [lia|reflexivity].
Qed.

(** X3. The two ramps mirror each other: where the default ramp shows the
    glyph at position [i], the inverted ramp shows the glyph the default
    ramp has at position [9 - i]. *)
Theorem X3_inverted_glyph cvt lum :
  exists i, 0 <= i <= 9
    /\ luminance_to_char cvt lum RAMP_DEFAULT = char_at RAMP_DEFAULT i
    /\ luminance_to_char cvt lum RAMP_INVERT = char_at RAMP_DEFAULT (9 - i).
Proof.
  rewrite !luminance_to_char_10 by reflexivity. cbv zeta.
  set (x := F32.add (F32.mul lum (F32.of_int 9)) HALF).
  exists (clampi (to_int cvt x (floorf x)) 0 9).
  assert (Hr : 0 <= clampi (to_int cvt x (floorf x)) 0 9 <= 9)
    by (apply clampi_range; lia).
  split; [assumption|]. split; [reflexivity|now apply ramp_mirror].
Qed.

(** X4. Whatever the luminance (a NaN or an infinity too) and whatever the
    conversion to [int] delivers, the glyph is one of the ten characters of
    the ramp: the index is clamped into [[0, 9]]. *)
Theorem X4_glyph_in_ramp cvt lum :
  (exists i, 0 <= i <= 9
             /\ luminance_to_char cvt lum RAMP_DEFAULT = char_at RAMP_DEFAULT i)
  /\ (exists i, 0 <= i <= 9
                /\ luminance_to_char cvt lum RAMP_INVERT = char_at RAMP_INVERT i).
Proof.
  split; rewrite luminance_to_char_10 by reflexivity; cbv zeta;
    eexists; (split; [|reflexivity]); apply clampi_range; lia.
Qed.

(** X5. The luminance of every pixel is a finite float between 0 and 1,
    within [2^-22] of [(0.2126 r + 0.7152 g + 0.0722 b) / 255] in exact
    arithmetic. *)
Theorem X5_pixel_luminance data w channels sx sy :
  is_finite (pixel_luminance data w channels sx sy) = true
  /\ (0 <= SF2R (pixel_luminance data w channels sx sy) <= 1)%R
  /\ (Rabs (SF2R (pixel_luminance data w channels sx sy)
            - exact_pixel data w channels sx sy) <= / 4194304)%R.
Proof.
  destruct (pixel_luminance_range data w channels sx sy) as [[Hfin _] Hr].
  split; [assumption|]. split; [assumption|].
  apply pixel_luminance_error.
Qed.

(** X6. Standard output holds [out_h * (out_w + 1)] characters: [out_w]
    glyphs and a newline per line. *)
Theorem X6_output_size cvt img ramp out_w out_h :
  length (render cvt img ramp out_w out_h)
  = (Z.to_nat out_h * (Z.to_nat out_w + 1))%nat.
Proof.
  rewrite render_grid. unfold grid.
  assert (H : forall rows,
             length (concat (map (fun row => row ++ [newline])
                                 (map (row_glyphs cvt img ramp out_w out_h) rows)))
             = (length rows * (Z.to_nat out_w + 1))%nat).
  { induction rows as [|oy rows IH]; [reflexivity|].
    cbn [map concat length]. rewrite !length_app, IH, row_glyphs_length.
    cbn [length]. lia. }
  rewrite H, Zrange_length. do 2 f_equal. lia.
Qed.

(** X7. Under the contract of the decoder (a buffer of [w * h * c] bytes
    for [c] channels, [c] from 1 to 4, that an [int] can index), the
    averaging loops stay within [int] and within the buffer: for a pixel of a
    cell's rectangle the subscripts are computed on [int] without overflow,
    every one of them lies in the buffer, and the counter of the cell, which
    grows by one from zero, ends at most at [INT_MAX].  With two channels the
    normalised count is 1 and the byte read for pixel [(sx, sy)] is the one
    at [sy * w + sx]. *)
Theorem X7_reads_in_decoded_buffer cvt (data : list byte) w h c out_w out_h ox oy
    sx sy :
  0 < w -> 0 < h -> 1 <= c <= 4 ->
  Z.of_nat (length data) = w * h * c ->
  w * h * c <= INT_MAX ->
  src_lo cvt ox w out_w <= sx < src_hi cvt ox w out_w ->
  src_lo cvt oy h out_h <= sy < src_hi cvt oy h out_h ->
  let ch := effective_channels c in
  int_pixel_reads w ch sx sy = Some (pixel_reads w ch sx sy)
  /\ (forall idx, In idx (pixel_reads w ch sx sy) ->
        in_int idx = true
        /\ 0 <= idx < Z.of_nat (length data)
        /\ (c = 2 -> idx = sy * w + sx))
  /\ 0 < snd (sum_rect data w ch (src_lo cvt ox w out_w) (src_hi cvt ox w out_w)
                       (src_lo cvt oy h out_h) (src_hi cvt oy h out_h))
      <= INT_MAX.
Proof.
  intros Hw Hh Hc Hlen Hmax Hsx Hsy ch.
  pose proof (src_range cvt ox w out_w ltac:(lia)) as [Hx0 Hx1].
  pose proof (src_range cvt oy h out_h ltac:(lia)) as [Hy0 Hy1].
  assert (Hp : 0 <= sy * w + sx <= w * h - 1) by nia.
  assert (Hwh : w * h <= w * h * c) by nia.
  assert (Hcases : c = 1 \/ c = 2 \/ c = 3 \/ c = 4) by lia.
  assert (Hch : ch = 1 /\ c <= 2 \/ ch = c /\ 3 <= c).
  { unfold ch, effective_channels.
    destruct (Z.ltb_spec c 3); [left|right]; lia. }
  split; [|split].
  - apply (int_pixel_reads_exact w h ch sx sy); unfold INT_MAX in *; nia.
  - intros idx Hin.
    assert (Hidx : 0 <= idx < w * h * c /\ (c = 2 -> idx = sy * w + sx)).
    { unfold pixel_reads, pixel_index in Hin. fold ch in Hin.
      destruct Hch as [[E _]|[E Hc3]]; rewrite E in Hin.
      - cbn in Hin. destruct Hin as [<-|[]]. split; [nia|intros; lia].
      - destruct (Z.eqb_spec c 1); [lia|]. cbn [In] in Hin.
        repeat (destruct Hin as [<-|Hin]; [split; [nia|intros; lia]|]).
        contradiction. }
    destruct Hidx as [Hb H2]. split; [|split; [lia|exact H2]].
    unfold in_int, INT_MIN. apply andb_true_intro.
    split; apply Z.leb_le; lia.
  - rewrite sum_rect_count. unfold rect_pixels. nia.
Qed.

(** X8. For [a <= b], [clampi v a b] is [max a (min v b)]: it lies in
    [[a, b]], leaves a value of that range alone, is idempotent and
    monotone. *)
Theorem X8_clampi v a b :
  a <= b ->
  clampi v a b = Z.max a (Z.min v b)
  /\ a <= clampi v a b <= b
  /\ (a <= v <= b -> clampi v a b = v)
  /\ clampi (clampi v a b) a b = clampi v a b
  /\ (forall v', v <= v' -> clampi v a b <= clampi v' a b).
Proof.
  intros Hab. unfold clampi.
  assert (H : forall u, (if u <? a then a else if u >? b then b else u)
                        = Z.max a (Z.min u b)).
  { intros u. destruct (Z.ltb_spec u a); [lia|].
    rewrite Z.gtb_ltb. destruct (Z.ltb_spec b u); lia. }
  rewrite !H. repeat split; try lia.
  intros v' Hv. rewrite H. lia.
Qed.

(** X9. The alpha channel plays no part: two four-channel pictures of the
    same size that agree on every red, green and blue byte render the
    same. *)
Theorem X9_alpha_ignored cvt img1 img2 ramp out_w out_h :
  img_w img1 = img_w img2 -> img_h img1 = img_h img2 ->
  img_channels img1 = 4 -> img_channels img2 = 4 ->
  (forall idx, idx mod 4 <> 3 ->
     byte_at (img_data img1) idx = byte_at (img_data img2) idx) ->
  render cvt img1 ramp out_w out_h = render cvt img2 ramp out_w out_h.
Proof.
  intros Hw Hh Hc1 Hc2 Hrgb. rewrite !render_grid. do 2 f_equal.
  apply grid_ext. intros ox oy _ _. unfold cell_char. cbv zeta.
  rewrite Hc1, Hc2, <- Hw, <- Hh. f_equal.
  apply average_luminance_ext. intros sx sy _ _.
  apply pixel_luminance_ext. intros idx Hin. apply Hrgb.
  unfold pixel_reads, pixel_index in Hin.
  change (effective_channels 4) with 4 in Hin. cbn [Z.eqb] in Hin. cbv iota in Hin.
  cbn [In] in Hin.
  destruct Hin as [<-|[<-|[<-|[]]]];
    rewrite (Z.add_comm ((sy * img_w img1 + sx) * 4)), Z.mod_add by lia;
    discriminate.
Qed.

(** X10. Whatever the command line and the picture, standard output holds
    nothing but newlines and the ten characters of the ramp. *)
Theorem X10_stdout_alphabet cvt ai stbi argv c :
  In c (stdout (main cvt ai stbi argv)) ->
  c = newline \/ In c (list_ascii_of_string RAMP_DEFAULT).
Proof.
  unfold main. destruct (length argv <? 2)%nat; [intros []|].
  destruct (stbi (arg argv 1)) as [img|]; [|intros []].
  cbn [stdout]. rewrite render_grid. intros Hin.
  apply in_concat in Hin. destruct Hin as (line & Hline & Hc).
  apply in_map_iff in Hline. destruct Hline as (row & <- & Hrow).
  apply in_app_or in Hc. destruct Hc as [Hc|[<-|[]]]; [|left; reflexivity].
  right. unfold grid in Hrow. apply in_map_iff in Hrow.
  destruct Hrow as (oy & <- & _). unfold row_glyphs in Hc.
  apply in_map_iff in Hc. destruct Hc as (ox & <- & _).
  unfold cell_char. cbv zeta.
  set (ramp := if invert argv then RAMP_INVERT else RAMP_DEFAULT).
  assert (Hramp : ramp = RAMP_DEFAULT \/ ramp = RAMP_INVERT)
    by (subst ramp; destruct (invert argv); auto).
  rewrite luminance_to_char_10 by now apply builtin_ramp_length.
  cbv zeta. apply ramp_char; [assumption|]. apply clampi_range. lia.
Qed.

(** X11. The cell luminance of a non-empty rectangle of fewer than [2^29]
    pixels lies between any two luminances of [[0, 1]] that bound the pixel
    luminances of the rectangle (the least and the greatest, say), and so
    does its glyph: its index lies between the indices of the two. *)
Theorem X11_mean_between cvt data w channels sx0 sx1 sy0 sy1 lo hi :
  sx0 < sx1 -> sy0 < sy1 -> rect_pixels sx0 sx1 sy0 sy1 < 2 ^ 29 ->
  is_finite lo = true -> valid_binary F32.prec F32.emax lo = true ->
  is_finite hi = true -> valid_binary F32.prec F32.emax hi = true ->
  (0 <= SF2R lo)%R -> (SF2R hi <= 1)%R ->
  (forall sx sy, sx0 <= sx < sx1 -> sy0 <= sy < sy1 ->
     (SF2R lo <= SF2R (pixel_luminance data w channels sx sy) <= SF2R hi)%R) ->
  let avg := average_luminance data w channels sx0 sx1 sy0 sy1 in
  (SF2R lo <= SF2R avg <= SF2R hi)%R
  /\ ramp_index cvt lo 10 <= ramp_index cvt avg 10 <= ramp_index cvt hi 10.
Proof.
  intros Hx Hy Hsz Hflo Hvlo Hfhi Hvhi Hlo0 Hhi1 Hall avg.
  assert (Hlo : fv32 lo) by (split; assumption).
  assert (Hhi : fv32 hi) by (split; assumption).
  pose proof (average_luminance_between data w channels sx0 sx1 sy0 sy1 lo hi
                Hx Hy Hsz Hlo Hhi Hall) as Hb.
  fold avg in Hb. split; [assumption|].
  destruct (average_luminance_range data w channels sx0 sx1 sy0 sy1) as [Hfa Ha].
  { apply Z.lt_trans with (1 := Hsz). reflexivity. }
  fold avg in Hfa, Ha.
  split; apply ramp_index_mono; try assumption; lra.
Qed.

(** X12. A picture of one colour (every byte [v], fewer than [2^29]
    pixels, a grid of at most [2^21] by [2^21] cells) renders as a grid of
    one glyph, the glyph of the luminance of that colour: the first of the
    ramp for black, the last for white. *)
Theorem X12_uniform_image cvt img ramp out_w out_h v :
  let w := img_w img in
  let h := img_h img in
  let ch := effective_channels (img_channels img) in
  let g := luminance_to_char cvt (pixel_lum v v v) ramp in
  ramp = RAMP_DEFAULT \/ ramp = RAMP_INVERT ->
  0 < w -> 0 < h -> w * h < 2 ^ 29 ->
  ch = 1 \/ ch = 3 \/ ch = 4 ->
  0 < out_w <= 2 ^ 21 -> 0 < out_h <= 2 ^ 21 ->
  (forall idx, 0 <= idx < w * h * ch -> byte_at (img_data img) idx = v) ->
  grid cvt img ramp out_w out_h
  = repeat (repeat g (Z.to_nat out_w)) (Z.to_nat out_h)
  /\ (v = 0 -> g = char_at ramp 0)
  /\ (v = 255 -> g = char_at ramp 9).
Proof.
  intros w h ch g Hramp Hw Hh Hsz Hch How Hoh Hall.
  pose proof (builtin_ramp_length ramp Hramp) as Hlen.
  split; [|split].
  - unfold grid.
    replace (Z.to_nat out_h) with (length (Zrange 0 out_h))
      by (rewrite Zrange_length; f_equal; lia).
    replace (Z.to_nat out_w) with (length (Zrange 0 out_w))
      by (rewrite Zrange_length; f_equal; lia).
    apply map_const. intros oy Hy. apply Zrange_In in Hy.
    unfold row_glyphs. apply map_const. intros ox Hx. apply Zrange_In in Hx.
    now apply (uniform_cell cvt img ramp out_w out_h v ox oy).
  - intros ->. subst g. change (pixel_lum 0 0 0) with (S754_zero false).
    now apply glyph_zero.
  - intros ->. subst g.
    replace (pixel_lum 255 255 255) with (F32.of_int 1)
      by (vm_compute; reflexivity).
    now apply glyph_one.
Qed.

(** X13. The glyph follows the luminance: of two finite luminances of
    magnitude up to [2^27], the greater never selects an earlier position
    of the ramp. *)
Theorem X13_glyph_monotone cvt a b :
  is_finite a = true -> valid_binary F32.prec F32.emax a = true ->
  is_finite b = true -> valid_binary F32.prec F32.emax b = true ->
  (- 134217728 <= SF2R a)%R -> (SF2R a <= SF2R b)%R ->
  (SF2R b <= 134217728)%R ->
  ramp_index cvt a 10 <= ramp_index cvt b 10
  /\ (forall l ramp, String.length ramp = 10%nat ->
        luminance_to_char cvt l ramp = char_at ramp (ramp_index cvt l 10)).
Proof.
  intros Hfa Hva Hfb Hvb Hlo Hab Hhi. split.
  - apply ramp_index_mono; try assumption; split; assumption.
  - intros l ramp Hlen. unfold luminance_to_char, ramp_index.
    rewrite Hlen. reflexivity.
Qed.

(** X14. Along an axis of at most [2^30] pixels the cells follow one
    another: the lower and the upper bound grow with the cell index, and
    no cell ends before it starts. *)
Theorem X14_cells_ordered cvt o o' n out_n :
  0 < n <= 2 ^ 30 -> 0 < out_n < 2 ^ 31 -> 0 <= o <= o' -> o' < out_n ->
  src_lo cvt o n out_n <= src_lo cvt o' n out_n
  /\ src_hi cvt o n out_n <= src_hi cvt o' n out_n
  /\ src_lo cvt o n out_n <= src_hi cvt o n out_n.
Proof.
  intros Hn Hd Ho Ho'.
  assert (Hn' : 0 < n < 2 ^ 31)
    by (change (2 ^ 30) with 1073741824 in Hn;
        change (2 ^ 31) with 2147483648; lia).
  unfold src_lo, src_hi.
  destruct (edge_bound o n out_n ltac:(lia) Hn Hd) as [Hf0 Hb0].
  destruct (edge_bound o' n out_n ltac:(lia) Hn Hd) as [Hf1 Hb1].
  destruct (edge_bound (o + 1) n out_n ltac:(lia) Hn Hd) as [Hf2 Hb2].
  destruct (edge_bound (o' + 1) n out_n ltac:(lia) Hn Hd) as [Hf3 Hb3].
  destruct (to_int_floor cvt _ Hf0 Hb0) as (a & Ha & ->).
  destruct (to_int_floor cvt _ Hf1 Hb1) as (a' & Ha' & ->).
  destruct (to_int_ceil cvt _ Hf2 Hb2) as (b & Hb & ->).
  destruct (to_int_ceil cvt _ Hf3 Hb3) as (b' & Hb' & ->).
  pose proof (edge_mono o o' n out_n Ho ltac:(lia) Hn' Hd) as H01.
  pose proof (edge_mono (o + 1) (o' + 1) n out_n ltac:(lia) ltac:(lia) Hn' Hd)
    as H23.
  pose proof (edge_mono o (o + 1) n out_n ltac:(lia) ltac:(lia) Hn' Hd) as H02.
  pose proof (floorf_mono _ _ a a' Ha Ha' H01) as Haa.
  pose proof (ceilf_mono _ _ b b' Hb Hb' H23) as Hbb.
  assert (Hab : a <= b).
  { pose proof (floorf_spec _ a Ha). pose proof (ceilf_spec _ b Hb).
    assert (H1 : (IZR a <= IZR b)%R) by lra. now apply le_IZR in H1. }
  repeat split; apply clampi_mono; lia.
Qed.

(** X15. For positive sizes the height the program rounds is a finite
    float within [2^-20], relatively, of [0.55 * h * out_w / w]: the
    rounded height differs from that exact value by at most one half and
    that float error, and it is the number of lines (or 1 in its stead if
    it is 0) when it fits an [int]. *)
Theorem X15_height_accuracy cvt w h out_w :
  0 < w < 2 ^ 31 -> 0 < h < 2 ^ 31 -> 0 < out_w < 2 ^ 31 ->
  let E := (55 / 100 * IZR h * IZR out_w / IZR w)%R in
  exists z,
    roundf (height_f w h out_w) = Some z
    /\ 0 <= z
    /\ (Rabs (IZR z - E) <= / 2 + E / 1048576)%R
    /\ (in_int z = true -> out_height cvt w h out_w = Z.max 1 z).
Proof.
  intros Hw Hh Ht E.
  destruct (height_f_accuracy w h out_w Hw Hh Ht) as [[Hfin _] Hacc].
  fold E in Hacc.
  assert (HE : (0 < E)%R).
  { unfold E, Rdiv.
    assert (0 < IZR w)%R by (apply (IZR_lt 0); lia).
    assert (0 < IZR h)%R by (apply (IZR_lt 0); lia).
    assert (0 < IZR out_w)%R by (apply (IZR_lt 0); lia).
    assert (0 < / IZR w)%R by now apply Rinv_0_lt_compat.
    repeat apply Rmult_lt_0_compat; lra. }
  assert (Hz : exists z, roundf (height_f w h out_w) = Some z).
  { destruct (height_f w h out_w); try discriminate; eexists; reflexivity. }
  destruct Hz as [z Hz]. exists z. split; [assumption|].
  destruct (roundf_spec _ _ Hz) as (Hr & Hpos & _).
  assert (Hv : (0 <= SF2R (height_f w h out_w))%R) by nra.
  specialize (Hpos Hv). split; [assumption|].
  rewrite Rabs_pos_eq, Z.abs_eq in Hr by assumption.
  split.
  - apply Rabs_le. unfold Rdiv. nra.
  - intros Hfit. unfold out_height, to_int. rewrite Hz, Hfit.
    destruct (Z.ltb_spec z 1); lia.
Qed.

(** X16. The glyph of a cell depends on the bytes the loops read for the
    pixels of its rectangle only: two pictures of the same geometry that
    agree on those bytes have the same glyph there, whatever else they
    hold. *)
Theorem X16_cell_locality cvt img1 img2 ramp out_w out_h ox oy :
  img_w img1 = img_w img2 -> img_h img1 = img_h img2 ->
  img_channels img1 = img_channels img2 ->
  (forall sx sy idx,
     src_lo cvt ox (img_w img1) out_w <= sx < src_hi cvt ox (img_w img1) out_w ->
     src_lo cvt oy (img_h img1) out_h <= sy < src_hi cvt oy (img_h img1) out_h ->
     In idx (pixel_reads (img_w img1)
                         (effective_channels (img_channels img1)) sx sy) ->
     byte_at (img_data img1) idx = byte_at (img_data img2) idx) ->
  cell_char cvt img1 ramp out_w out_h ox oy
  = cell_char cvt img2 ramp out_w out_h ox oy.
Proof.
  intros Hw Hh Hc Hagree. unfold cell_char. cbv zeta.
  rewrite <- Hw, <- Hh, <- Hc. f_equal.
  apply average_luminance_ext. intros sx sy Hx Hy.
  apply pixel_luminance_ext. intros idx Hin. now apply (Hagree sx sy idx).
Qed.

(** X17. Where the bounds are exact ([n * out_n < 2^24]), a cell spans at
    least one and at most [ceil (n / out_n) + 1] pixels, and if [out_n]
    divides [n] the cells are the blocks of [n / out_n] pixels, one after
    the other without overlap. *)
Theorem X17_exact_tiling cvt o n out_n :
  0 < n -> 0 < out_n -> n * out_n < 2 ^ 24 -> 0 <= o < out_n ->
  let lo := src_lo cvt o n out_n in
  let hi := src_hi cvt o n out_n in
  1 <= hi - lo <= - ((- n) / out_n) + 1
  /\ (forall k, n = k * out_n -> lo = o * k /\ hi = (o + 1) * k).
Proof.
  intros Hn Hd Hprod Ho lo hi.
  destruct (src_bounds_exact cvt o n out_n Hn Hd Hprod Ho) as [Hlo Hhi].
  fold lo in Hlo. fold hi in Hhi.
  pose proof (Z.div_mod (o * n) out_n ltac:(lia)) as E1.
  pose proof (Z.mod_pos_bound (o * n) out_n Hd) as B1.
  pose proof (Z.div_mod (- ((o + 1) * n)) out_n ltac:(lia)) as E2.
  pose proof (Z.mod_pos_bound (- ((o + 1) * n)) out_n Hd) as B2.
  pose proof (Z.div_mod (- n) out_n ltac:(lia)) as E3.
  pose proof (Z.mod_pos_bound (- n) out_n Hd) as B3.
  split.
  - rewrite Hlo, Hhi. split; nia.
  - intros k Hk. subst n. split.
    + rewrite Hlo. rewrite Z.mul_assoc. now apply Z.div_mul; lia.
    + rewrite Hhi. rewrite Z.mul_assoc, <- Z.mul_opp_l, Z.div_mul by lia. lia.
Qed.

(** X18. The program looks at its first four arguments only; [inv] and
    [invert] are synonyms; and any other fourth argument is as good as
    none. *)
Theorem X18_arguments cvt ai stbi p f w a rest :
  main cvt ai stbi (p :: f :: w :: a :: rest) = main cvt ai stbi [p; f; w; a]
  /\ main cvt ai stbi [p; f; w; "inv"%string]
     = main cvt ai stbi [p; f; w; "invert"%string]
  /\ (a <> "inv"%string -> a <> "invert"%string ->
      main cvt ai stbi [p; f; w; a] = main cvt ai stbi [p; f; w]).
Proof.
  split; [reflexivity|]. split; [reflexivity|].
  intros H1 H2. unfold main, target_width, invert, arg.
  cbn [length nth Nat.ltb Nat.leb].
  apply String.eqb_neq in H1, H2. rewrite H1, H2. reflexivity.
Qed.

(** X19. A taller picture or a wider grid never has fewer lines: for one
    and the same image width, the number of lines grows with the image
    height and with the target width, as long as the greater rounded
    height fits an [int]. *)
Theorem X19_height_monotone cvt w h h' out_w out_w' z z' :
  0 < w < 2 ^ 31 -> 0 < h <= h' -> h' < 2 ^ 31 ->
  0 < out_w <= out_w' -> out_w' < 2 ^ 31 ->
  roundf (height_f w h out_w) = Some z ->
  roundf (height_f w h' out_w') = Some z' ->
  in_int z' = true ->
  out_height cvt w h out_w <= out_height cvt w h' out_w'.
Proof.
  intros Hw Hh Hh' Ht Ht' Hz Hz' Hfit'.
  pose proof (height_f_mono w h h' out_w out_w' Hw Hh Hh' Ht Ht') as Hm.
  pose proof (roundf_mono _ _ z z' Hz Hz' Hm) as Hzz.
  destruct (roundf_spec _ _ Hz) as (_ & Hpos & _).
  specialize (Hpos (proj1 Hm)).
  assert (Hfit : in_int z = true).
  { apply in_int_iff. apply in_int_iff in Hfit'.
    change (2 ^ 31) with 2147483648 in *. lia. }
  unfold out_height, to_int. rewrite Hz, Hz', Hfit, Hfit'.
  destruct (Z.ltb_spec z 1); destruct (Z.ltb_spec z' 1); lia.
Qed.


(** * The claims at concrete inputs *)

(** The sample picture at width 4: two lines of four glyphs. *)
Lemma C1_witness :
  let argv := ["ascii_art"; "sample.png"; "4"]%string in
  roundf (height_f 2 2 4) = Some 2
  /\ stdout (main x86_cvt glibc_atoi sample_decoder argv)
     = concat (map (fun row => row ++ [newline])
                   (grid x86_cvt sample_image RAMP_DEFAULT 4 2))
  /\ length (grid x86_cvt sample_image RAMP_DEFAULT 4 2) = 2%nat.
Proof.
  cbv zeta. split; [vm_compute; reflexivity|].
  destruct (C1_output_grid x86_cvt glibc_atoi sample_decoder
              ["ascii_art"; "sample.png"; "4"]%string sample_image 2)
    as (_ & _ & _ & Hout & Hlen & _).
  - cbn [length]. lia.
  - reflexivity.
  - reflexivity.
  - reflexivity.
  - vm_compute. reflexivity.
  - reflexivity.
  - split; [exact Hout|exact Hlen].
Defined.

(** The run of 8 pixels at the widest grid an [int] allows: the rounded
    height is beyond [int], and the program writes one line, on x86-64 and
    on no target as many as the formula says. *)
Lemma C1_counterexample :
  let argv := ["ascii_art"; "strip.png"; "2147483647"]%string in
  let out_h := out_height x86_cvt 1 8 2147483647 in
  target_width glibc_atoi argv = 2147483647
  /\ roundf (height_f 1 8 2147483647) = Some 9448928256
  /\ Z.max 1 9448928256 = 9448928256
  /\ out_h = 1
  /\ stdout (main x86_cvt glibc_atoi sample_decoder argv)
     = concat (map (fun row => row ++ [newline])
                   (grid x86_cvt strip_image RAMP_DEFAULT 2147483647 out_h))
  /\ length (grid x86_cvt strip_image RAMP_DEFAULT 2147483647 out_h) = 1%nat
  /\ (forall cvt, in_int (cvt (height_f 1 8 2147483647)) = true ->
        out_height cvt 1 8 2147483647 <> Z.max 1 9448928256).
Proof.
  cbv zeta.
  assert (Htw : target_width glibc_atoi
                  ["ascii_art"; "strip.png"; "2147483647"]%string
                = 2147483647) by (vm_compute; reflexivity).
  assert (Hr : roundf (height_f 1 8 2147483647) = Some 9448928256)
    by (vm_compute; reflexivity).
  assert (Hh : out_height x86_cvt 1 8 2147483647 = 1)
    by (vm_compute; reflexivity).
  split; [assumption|]. split; [assumption|]. split; [reflexivity|].
  split; [assumption|]. split.
  { assert (Hlen : (2 <= length ["ascii_art"; "strip.png"; "2147483647"]%string)%nat)
      by (cbn [length]; lia).
    pose proof (main_stdout x86_cvt glibc_atoi sample_decoder _ strip_image
                  Hlen eq_refl) as Hout.
    rewrite Htw in Hout.
    change (invert _) with false in Hout. cbv iota in Hout.
    change (img_w strip_image) with 1 in Hout.
    change (img_h strip_image) with 8 in Hout.
    exact Hout. }
  split.
  { rewrite grid_length, Hh. reflexivity. }
  intros cvt Hfit Heq.
  unfold out_height, to_int in Heq. rewrite Hr in Heq.
  change (in_int 9448928256) with false in Heq. cbv iota in Heq.
  apply in_int_iff in Hfit.
  destruct (Z.ltb_spec (cvt (height_f 1 8 2147483647)) 1);
    change (Z.max 1 9448928256) with 9448928256 in Heq;
    change (2 ^ 31) with 2147483648 in Hfit; lia.
Qed.




(** A luminance of two on the default ramp. *)
Lemma C4_witness :
  valid_binary F32.prec F32.emax (F32.of_int 2) = true
  /\ luminance_to_char x86_cvt (F32.of_int 2) RAMP_DEFAULT
     = luminance_to_char x86_cvt (F32.of_int 1) RAMP_DEFAULT.
Proof.
  assert (Hv : valid_binary F32.prec F32.emax (F32.of_int 2) = true)
    by reflexivity.
  split; [assumption|].
  destruct (C4_glyph_mapper x86_cvt (F32.of_int 2) RAMP_DEFAULT
              (or_introl eq_refl) Hv) as (_ & _ & Habove & _).
  apply (Habove 2); [reflexivity|split; [discriminate|reflexivity]].
Defined.

(** The luminance [14913080 * 2^-28] (about 0.0556): times nine it is the
    float just below one half, which rounds half up to 0; the sum with
    [0.5f] rounds to 1.0, and the glyph is the second of the ramp.  And a
    luminance of [2^31] yields the first glyph on x86-64, where one clamped
    to 1.0 yields the last. *)
Lemma C4_counterexample :
  let lum := S754_finite false 14913080 (-28) in
  let big := S754_finite false 8388608 8 in
  valid_binary F32.prec F32.emax lum = true
  /\ F32.mul lum (F32.of_int 9) = S754_finite false 16777215 (-25)
  /\ round_half_up (F32.mul lum (F32.of_int 9)) = Some 0
  /\ char_at RAMP_DEFAULT (clampi 0 0 9) = "@"%char
  /\ (forall cvt, luminance_to_char cvt lum RAMP_DEFAULT = "%"%char)
  /\ valid_binary F32.prec F32.emax big = true
  /\ floorf big = Some (2 ^ 31)
  /\ luminance_to_char x86_cvt big RAMP_DEFAULT = "@"%char
  /\ luminance_to_char x86_cvt (F32.of_int 1) RAMP_DEFAULT = " "%char.
Proof.
  cbv zeta.
  split; [reflexivity|].
  split; [vm_compute; reflexivity|].
  split; [vm_compute; reflexivity|].
  split; [reflexivity|].
  split; [intros cvt; vm_compute; reflexivity|].
  split; [reflexivity|].
  split; [reflexivity|].
  split; vm_compute; reflexivity.
Qed.

(** A width of zero, and one that holds no number. *)
Lemma C7_witness :
  target_width glibc_atoi ["ascii_art"; "sample.png"; "0"]%string = 120
  /\ target_width glibc_atoi ["ascii_art"; "sample.png"; "wide"]%string = 120.
Proof.
  split.
  - apply (C7_width_fallback x86_cvt glibc_atoi sample_decoder
             ["ascii_art"; "sample.png"; "0"]%string).
    + cbn [length]. lia.
    + discriminate.
  - apply (C7_width_fallback x86_cvt glibc_atoi sample_decoder
             ["ascii_art"; "sample.png"; "wide"]%string).
    + cbn [length]. lia.
    + reflexivity.
Defined.

(** A rectangle without columns. *)
Lemma C8_witness :
  average_luminance sample_pixels 2 3 1 1 0 2 = F32.zero
  /\ luminance_to_char x86_cvt (average_luminance sample_pixels 2 3 1 1 0 2)
                       RAMP_DEFAULT
     = "@"%char.
Proof.
  destruct (C8_empty_rectangle x86_cvt sample_pixels 2 3 1 1 0 2 RAMP_DEFAULT)
    as (_ & Hz & _ & _ & Hg).
  - left. discriminate.
  - left. reflexivity.
  - split; [exact Hz|exact (Hg eq_refl)].
Defined.



(** The green byte of the top left pixel of the sample picture. *)
Lemma C10_witness :
  In 1 (pixel_reads 2 3 0 0)
  /\ int_pixel_reads 2 3 0 0 = Some (pixel_reads 2 3 0 0)
  /\ 0 <= 1 < Z.of_nat (length sample_pixels).
Proof.
  assert (Hin : In 1 (pixel_reads 2 3 0 0)) by (right; left; reflexivity).
  split; [assumption|].
  assert (H : 0 < 2) by evaluate.
  assert (Hch : effective_channels 3 = 1 \/ effective_channels 3 = 3
                \/ effective_channels 3 = 4) by (right; left; reflexivity).
  assert (Hlen : Z.of_nat (length sample_pixels)
                 = 2 * 2 * effective_channels 3) by evaluate.
  assert (Hmax : 2 * 2 * effective_channels 3 <= INT_MAX) by evaluate.
  assert (Hx : src_lo x86_cvt 0 2 4 <= 0 < src_hi x86_cvt 0 2 4) by evaluate.
  assert (Hy : src_lo x86_cvt 0 2 1 <= 0 < src_hi x86_cvt 0 2 1) by evaluate.
  destruct (C10_reads_in_bounds x86_cvt sample_pixels 2 2 3 4 1 0 0 0 0 1
              H H Hch Hlen Hmax Hx Hy Hin) as (_ & Hr & Hb & _).
  split; assumption.
Defined.

(** A grey picture of 46341 by 46341 pixels, one cell for the whole of it
    (the same bounds on both axes): the index of the last pixel, 2147488280, is below the length of the
    buffer, 2147488281, but it is not an [int]; the product [sy * w + sx]
    leaves the range, the source computes no index, and the 32 bits a
    two's complement target keeps are those of a negative number. *)
Lemma C10_counterexample :
  effective_channels 1 = 1
  /\ src_lo x86_cvt 0 46341 1 <= 46340 < src_hi x86_cvt 0 46341 1
  /\ In 2147488280 (pixel_reads 46341 1 46340 46340)
  /\ 2147488280 < 46341 * 46341 * 1
  /\ in_int 2147488280 = false
  /\ int_pixel_index 46341 1 46340 46340 = None
  /\ int_pixel_reads 46341 1 46340 46340 = None
  /\ wrap_int 2147488280 = -2147479016.
Proof.
  split; [reflexivity|]. split; [evaluate|].
  split; [left; reflexivity|].
  repeat split; vm_compute; reflexivity.
Defined.

(** * The further properties at concrete inputs *)

(** The last pixel of a picture of two channels. *)
Lemma X7_witness :
  int_pixel_reads 2 1 1 1 = Some [3]
  /\ 0 <= 3 < Z.of_nat (length grey_alpha_pixels).
Proof.
  assert (H : 0 < 2) by evaluate.
  assert (Hc : 1 <= 2 <= 4) by evaluate.
  assert (Hlen : Z.of_nat (length grey_alpha_pixels) = 2 * 2 * 2) by evaluate.
  assert (Hmax : 2 * 2 * 2 <= INT_MAX) by evaluate.
  assert (Hx : src_lo x86_cvt 1 2 2 <= 1 < src_hi x86_cvt 1 2 2) by evaluate.
  destruct (X7_reads_in_decoded_buffer x86_cvt grey_alpha_pixels 2 2 2 2 2 1 1
              1 1 H H Hc Hlen Hmax Hx Hx) as (Hr & Hb & _).
  split; [exact Hr|]. apply (Hb 3). left. reflexivity.
Defined.

(** An index beyond the ramp. *)
Lemma X8_witness : 0 <= 9 /\ clampi 12 0 9 = Z.max 0 (Z.min 12 9).
Proof.
  assert (H : 0 <= 9) by evaluate.
  split; [assumption|]. apply (X8_clampi 12 0 9 H).
Defined.

(** The same pixel, opaque and transparent. *)
Lemma X9_witness :
  render x86_cvt rgba_opaque RAMP_DEFAULT 2 1
  = render x86_cvt rgba_clear RAMP_DEFAULT 2 1.
Proof.
  apply X9_alpha_ignored; try reflexivity.
  intros idx Hmod. unfold byte_at.
  destruct (Z.to_nat idx) as [|[|[|[|k]]]] eqn:Hk; try reflexivity.
  exfalso. apply Hmod. replace idx with 3 by lia. reflexivity.
Defined.

(** The output for the sample picture holds an at sign. *)
Lemma X10_witness :
  "@"%char = newline \/ In "@"%char (list_ascii_of_string RAMP_DEFAULT).
Proof.
  apply (X10_stdout_alphabet x86_cvt glibc_atoi sample_decoder
           ["ascii_art"; "sample.png"; "4"]%string).
  vm_compute. repeat (first [left; reflexivity | right]).
Defined.

(** The sample picture between black and white. *)
Lemma X11_witness :
  (SF2R F32.zero <= SF2R (average_luminance sample_pixels 2 3 0 2 0 2)
   <= SF2R (F32.of_int 1))%R.
Proof.
  destruct (of_int32_exact 1 ltac:(reflexivity)) as [_ Hone].
  apply (X11_mean_between x86_cvt sample_pixels 2 3 0 2 0 2 F32.zero
           (F32.of_int 1)).
  - evaluate.
  - evaluate.
  - evaluate.
  - reflexivity.
  - reflexivity.
  - reflexivity.
  - reflexivity.
  - cbn [F32.zero SF2R]. lra.
  - rewrite Hone. lra.
  - intros sx sy _ _. rewrite Hone. cbn [F32.zero SF2R].
    apply pixel_luminance_range.
Defined.

(** The black column on a grid of one by four cells. *)
Lemma X12_witness :
  grid x86_cvt strip_image RAMP_DEFAULT 1 4
  = repeat (repeat (luminance_to_char x86_cvt (pixel_lum 0 0 0) RAMP_DEFAULT)
                   (Z.to_nat 1)) (Z.to_nat 4).
Proof.
  apply (X12_uniform_image x86_cvt strip_image RAMP_DEFAULT 1 4 0).
  - left. reflexivity.
  - evaluate.
  - evaluate.
  - evaluate.
  - left. reflexivity.
  - evaluate.
  - evaluate.
  - intros idx _. unfold byte_at, strip_image. cbn [img_data].
    rewrite nth_repeat. reflexivity.
Defined.

(** Black and white. *)
Lemma X13_witness :
  ramp_index x86_cvt F32.zero 10 <= ramp_index x86_cvt (F32.of_int 1) 10.
Proof.
  destruct (of_int32_exact 1 ltac:(reflexivity)) as [_ Hone].
  apply (X13_glyph_monotone x86_cvt F32.zero (F32.of_int 1)); try reflexivity.
  - cbn [F32.zero SF2R]. lra.
  - rewrite Hone. cbn [F32.zero SF2R]. lra.
  - rewrite Hone. lra.
Defined.

(** The last two of 4999 cells over 5000 pixels. *)
Lemma X14_witness :
  src_lo x86_cvt 4997 5000 4999 <= src_lo x86_cvt 4998 5000 4999.
Proof.
  apply (X14_cells_ordered x86_cvt 4997 4998 5000 4999); evaluate.
Defined.

(** The sample picture at width 4. *)
Lemma X15_witness :
  exists z, roundf (height_f 2 2 4) = Some z /\ 0 <= z
            /\ (Rabs (IZR z - 55 / 100 * IZR 2 * IZR 4 / IZR 2)
                <= / 2 + 55 / 100 * IZR 2 * IZR 4 / IZR 2 / 1048576)%R.
Proof.
  assert (H2 : 0 < 2 < 2 ^ 31) by evaluate.
  assert (H4 : 0 < 4 < 2 ^ 31) by evaluate.
  destruct (X15_height_accuracy x86_cvt 2 2 4 H2 H2 H4)
    as (z & Hz & Hpos & Hacc & _).
  exists z. split; [exact Hz|]. split; [exact Hpos|exact Hacc].
Defined.

(** The opaque and the transparent pixel, in the one cell of the grid. *)
Lemma X16_witness :
  cell_char x86_cvt rgba_opaque RAMP_DEFAULT 1 1 0 0
  = cell_char x86_cvt rgba_clear RAMP_DEFAULT 1 1 0 0.
Proof.
  apply X16_cell_locality; try reflexivity.
  intros sx sy idx Hx Hy Hin.
  assert (Hx' : 0 <= sx < 1) by exact Hx.
  assert (Hy' : 0 <= sy < 1) by exact Hy.
  assert (sx = 0) by lia. assert (sy = 0) by lia. subst sx sy.
  cbn in Hin. destruct Hin as [<-|[<-|[<-|[]]]]; reflexivity.
Defined.

(** Twelve pixels under four cells: blocks of three. *)
Lemma X17_witness :
  src_lo x86_cvt 2 12 4 = 2 * 3 /\ src_hi x86_cvt 2 12 4 = (2 + 1) * 3.
Proof.
  assert (H12 : 0 < 12) by evaluate.
  assert (H4 : 0 < 4) by evaluate.
  assert (Hp : 12 * 4 < 2 ^ 24) by evaluate.
  assert (Ho : 0 <= 2 < 4) by evaluate.
  destruct (X17_exact_tiling x86_cvt 2 12 4 H12 H4 Hp Ho) as [_ Hk].
  apply (Hk 3). reflexivity.
Defined.

(** The sample picture, and one twice as tall. *)
Lemma X19_witness :
  out_height x86_cvt 2 2 4 <= out_height x86_cvt 2 4 4.
Proof.
  apply (X19_height_monotone x86_cvt 2 2 4 4 4 2 4); evaluate.
Defined.

